(** * Exercise engine of the course reader: a shallow embedding

    The development follows the TypeScript sources of the exercise
    interaction and validation engine:

    - [JsString], [JsArray], [JsObject], [JsNumber]: the fragment of the
      JavaScript built-ins the engine calls (string methods, arrays with
      holes, objects used as maps, binary64 numbers and 32-bit integers);
    - [Blanks]: the bracket micro-syntax parser and the blank interaction
      state of [hooks/useBlanks.tsx];
    - [Placement]: the drag / click placement state of [FillBlanks.tsx];
    - [Progress]: exercise identity and lesson progress
      ([utils/exerciseId], [utils/pathUtils], [utils/progressStorage]);
    - [Quiz]: the multiple-choice validator of [Quiz.tsx];
    - [Speaking]: the transcript matcher of [SpeakingChallenge.tsx];
    - [Media]: the checkpointed media controller of [InteractiveMedia].

    Conventions.  A JavaScript string is a sequence of UTF-16 code units; a
    [string] here is a sequence of code units below 256, one [ascii] per code
    unit, and the built-ins are given exactly on that range.  A JavaScript
    number is an IEEE-754 binary64 value, a [spec_float] with precision 53
    and maximal exponent 1024.  React state is threaded explicitly: a handler
    is a function from the state of the render it closes over to the state
    of the next render. *)

From Stdlib Require Import ZArith Lia Ascii String List Bool.
From Stdlib Require Import SpecFloat.
From stdpp Require Import base tactics option list strings pretty.
From Equations Require Import Equations.
Import ListNotations.

Local Open Scope string_scope.
Local Open Scope list_scope.
Local Open Scope nat_scope.

(** ** JavaScript strings *)

Module JsString.

Definition chr_eqb (a b : ascii) : bool := Ascii.eqb a b.
Global Arguments chr_eqb : simpl never.

(** [LineTerminator] code units below 256: LF and CR (U+2028 and U+2029
    lie outside the range). *)
Definition is_line_terminator (c : ascii) : bool :=
  chr_eqb c "010" || chr_eqb c "013".

(** [WhiteSpace] and [LineTerminator] code units below 256: TAB, LF, VT,
    FF, CR, SP and NBSP.  This is the class [\s] and the set [trim]
    removes. *)
Definition is_white (c : ascii) : bool :=
  chr_eqb c "009" || chr_eqb c "010" || chr_eqb c "011" || chr_eqb c "012"
  || chr_eqb c "013" || chr_eqb c " " || chr_eqb c "160".

(** [s.startsWith(p)] *)
Fixpoint startsWith (s p : string) {struct p} : bool :=
  match p with
  | EmptyString => true
  | String a p' =>
      match s with
      | String b s' => chr_eqb a b && startsWith s' p'
      | EmptyString => false
      end
  end.

Fixpoint rev_string (s : string) : string :=
  match s with
  | EmptyString => EmptyString
  | String c r => rev_string r ++ String c EmptyString
  end.

(** [s.endsWith(p)] *)
Definition endsWith (s p : string) : bool :=
  startsWith (rev_string s) (rev_string p).

(** [s.substring(n)] for [0 <= n] *)
Fixpoint substring_from (n : nat) (s : string) : string :=
  match n, s with
  | O, _ => s
  | S n', String _ r => substring_from n' r
  | S _, EmptyString => EmptyString
  end.

Fixpoint drop_last (s : string) : string :=
  match s with
  | EmptyString => EmptyString
  | String c EmptyString => EmptyString
  | String c r => String c (drop_last r)
  end.

(** [s.slice(1, -1)] *)
Definition slice_1_m1 (s : string) : string := drop_last (substring_from 1 s).

(** [s.split(sep)] for a separator of one code unit: the pieces between
    the separators, the empty string giving one empty piece. *)
Fixpoint split_on (sep : ascii) (s : string) : list string :=
  match s with
  | EmptyString => [EmptyString]
  | String c r =>
      if chr_eqb c sep then EmptyString :: split_on sep r
      else match split_on sep r with
           | piece :: rest => String c piece :: rest
           | [] => [String c EmptyString]
           end
  end.

(** [s.includes(c)] for one code unit *)
Fixpoint includes_chr (c : ascii) (s : string) : bool :=
  match s with
  | EmptyString => false
  | String a r => chr_eqb a c || includes_chr c r
  end.

Fixpoint trimStart (s : string) : string :=
  match s with
  | EmptyString => EmptyString
  | String c r => if is_white c then trimStart r else s
  end.

Definition trimEnd (s : string) : string :=
  rev_string (trimStart (rev_string s)).

(** [s.trim()] *)
Definition trim (s : string) : string := trimEnd (trimStart s).

(** [toLowerCase] on one code unit below 256: A-Z, and the Latin-1 capitals
    U+00C0..U+00DE except the multiplication sign U+00D7, move up by 32;
    every other code unit of the range is its own lower case. *)
Definition lower_chr (c : ascii) : ascii :=
  let n := nat_of_ascii c in
  if ((65 <=? n) && (n <=? 90)) || ((192 <=? n) && (n <=? 222) && negb (n =? 215))
  then ascii_of_nat (n + 32) else c.

(** [s.toLowerCase()] *)
Fixpoint toLowerCase (s : string) : string :=
  match s with
  | EmptyString => EmptyString
  | String c r => String (lower_chr c) (toLowerCase r)
  end.

(** [s === t] on strings *)
Definition str_eqb (s t : string) : bool := String.eqb s t.
Global Arguments str_eqb : simpl never.

(** Truthiness of a string value: every string but the empty one. *)
Definition truthy (s : string) : bool := negb (str_eqb s EmptyString).

(** [s.split(/\s+/)]: the pieces between the maximal runs of white space.
    [in_gap] tells that the code unit before was white. *)
Fixpoint split_white_aux (in_gap : bool) (s : string) : list string :=
  match s with
  | EmptyString => [EmptyString]
  | String c r =>
      if is_white c then
        if in_gap then split_white_aux true r
        else EmptyString :: split_white_aux true r
      else match split_white_aux false r with
           | piece :: rest => String c piece :: rest
           | [] => [String c EmptyString]
           end
  end.

Definition split_white (s : string) : list string := split_white_aux false s.

(** The last code unit of a string. *)
Fixpoint last_chr (s : string) : option ascii :=
  match s with
  | EmptyString => None
  | String c EmptyString => Some c
  | String _ r => last_chr r
  end.

(** *** Facts on the string built-ins *)

Lemma chr_eqb_eq a b : chr_eqb a b = true ↔ a = b.
Proof. apply Ascii.eqb_eq. Qed.

Lemma chr_eqb_refl a : chr_eqb a a = true.
Proof. apply Ascii.eqb_refl. Qed.

Lemma chr_eqb_sym a b : chr_eqb a b = chr_eqb b a.
Proof. apply Ascii.eqb_sym. Qed.

Lemma str_eqb_eq a b : str_eqb a b = true ↔ a = b.
Proof. apply String.eqb_eq. Qed.

Lemma str_eqb_neq a b : str_eqb a b = false ↔ a ≠ b.
Proof. apply String.eqb_neq. Qed.

Lemma str_eqb_refl a : str_eqb a a = true.
Proof. apply String.eqb_refl. Qed.

Lemma str_eqb_sym a b : str_eqb a b = str_eqb b a.
Proof. apply String.eqb_sym. Qed.

Lemma str_app_cons c (s t : string) : String c s +:+ t = String c (s +:+ t).
Proof. reflexivity. Qed.

Lemma str_app_nil_l (s : string) : EmptyString +:+ s = s.
Proof. reflexivity. Qed.

Lemma str_app_nil_r (s : string) : s +:+ EmptyString = s.
Proof. induction s as [|c s IH]; [reflexivity|]. now rewrite str_app_cons, IH. Qed.

Lemma str_app_assoc (s t u : string) : (s +:+ t) +:+ u = s +:+ (t +:+ u).
Proof.
  induction s as [|c s IH]; [reflexivity|].
  now rewrite !str_app_cons, IH.
Qed.

Lemma rev_string_cons c s : rev_string (String c s) = rev_string s +:+ String c EmptyString.
Proof. reflexivity. Qed.

Lemma rev_string_app (s t : string) : rev_string (s +:+ t) = rev_string t +:+ rev_string s.
Proof.
  induction s as [|c s IH].
  - now rewrite str_app_nil_l, str_app_nil_r.
  - now rewrite str_app_cons, !rev_string_cons, IH, str_app_assoc.
Qed.

Lemma rev_string_involutive s : rev_string (rev_string s) = s.
Proof.
  induction s as [|c s IH]; [reflexivity|].
  rewrite rev_string_cons, rev_string_app, IH. reflexivity.
Qed.

Lemma last_chr_cons_cons a b s : last_chr (String a (String b s)) = last_chr (String b s).
Proof. reflexivity. Qed.

Lemma last_chr_app_cons (s : string) c t : last_chr (s +:+ String c t) = last_chr (String c t).
Proof.
  induction s as [|a s IH]; [reflexivity|].
  rewrite str_app_cons.
  destruct s as [|b s'].
  - rewrite str_app_nil_l. apply last_chr_cons_cons.
  - rewrite str_app_cons in *. rewrite last_chr_cons_cons. exact IH.
Qed.

Lemma last_chr_snoc (s : string) c : last_chr (s +:+ String c EmptyString) = Some c.
Proof. now rewrite last_chr_app_cons. Qed.

Lemma drop_last_cons_cons a b s :
  drop_last (String a (String b s)) = String a (drop_last (String b s)).
Proof. reflexivity. Qed.

Lemma drop_last_snoc (s : string) c : drop_last (s +:+ String c EmptyString) = s.
Proof.
  induction s as [|a s IH]; [reflexivity|].
  rewrite str_app_cons.
  destruct s as [|b s']; [reflexivity|].
  rewrite str_app_cons in *. now rewrite drop_last_cons_cons, IH.
Qed.

(** A string is empty or ends with its last code unit. *)
Lemma str_snoc_inv s :
  s = EmptyString ∨ ∃ c, last_chr s = Some c ∧ s = drop_last s +:+ String c EmptyString.
Proof.
  induction s as [|a s IH]; [now left|right].
  destruct IH as [->|(c & Hc & Hs)].
  - exists a. split; reflexivity.
  - exists c. destruct s as [|b s']; [discriminate|].
    rewrite last_chr_cons_cons, drop_last_cons_cons, str_app_cons.
    split; [exact Hc|]. now rewrite <- Hs.
Qed.

(** [endsWith] with a one-unit suffix looks at the last code unit. *)
Lemma endsWith_chr s c :
  endsWith s (String c EmptyString) =
  match last_chr s with Some a => chr_eqb c a | None => false end.
Proof.
  unfold endsWith.
  destruct (str_snoc_inv s) as [->|(a & Ha & Hs)]; [reflexivity|].
  rewrite Ha, Hs, rev_string_app.
  change (rev_string (String a EmptyString)) with (String a EmptyString).
  change (rev_string (String c EmptyString)) with (String c EmptyString).
  rewrite str_app_cons. simpl. now rewrite andb_true_r.
Qed.

Lemma startsWith_chr s c :
  startsWith s (String c EmptyString) =
  match s with String a _ => chr_eqb c a | EmptyString => false end.
Proof. destruct s; simpl; [reflexivity|]. now rewrite andb_true_r. Qed.

Lemma includes_chr_app c (s t : string) :
  includes_chr c (s +:+ t) = includes_chr c s || includes_chr c t.
Proof.
  induction s as [|a s IH]; [reflexivity|].
  rewrite str_app_cons. simpl. now rewrite IH, orb_assoc.
Qed.

Lemma last_chr_includes s c : last_chr s = Some c → includes_chr c s = true.
Proof.
  induction s as [|a s IH]; [discriminate|].
  destruct s as [|b s'].
  - intros [= ->]. simpl. now rewrite chr_eqb_refl.
  - rewrite last_chr_cons_cons. intros H.
    change (includes_chr c (String a (String b s')))
      with (chr_eqb a c || includes_chr c (String b s')).
    rewrite (IH H). apply orb_true_r.
Qed.

End JsString.

(** ** JavaScript arrays *)

Module JsArray.

(** An index of an array is a hole (never assigned), holds [undefined], or
    holds a value. *)
Inductive slot (A : Type) : Type :=
| Hole
| Undefined
| Value (a : A).
Arguments Hole {A}.
Arguments Undefined {A}.
Arguments Value {A} a.

(** A value that may be [undefined], stored at an index. *)
Definition of_option {A} (v : option A) : slot A :=
  match v with Some a => Value a | None => Undefined end.

(** [new Array(n).fill(v)] *)
Definition filled {A} (n : nat) (v : A) : list (slot A) := replicate n (Value v).

(** [[...a]]: the iterator reads a hole as [undefined]. *)
Definition spread {A} (a : list (slot A)) : list (slot A) :=
  map (fun x => match x with Hole => Undefined | _ => x end) a.

(** [[...a]] on an array without holes, such as the result of [map]. *)
Definition dense {A} (a : list A) : list (slot A) := map Value a.

(** [a[i] = x]: in range the index is overwritten; out of range the array
    grows to length [i + 1], the indices in between being holes. *)
Definition assign {A} (a : list (slot A)) (i : nat) (x : slot A) : list (slot A) :=
  if i <? length a then <[i := x]> a
  else a ++ replicate (i - length a) Hole ++ [x].

End JsArray.

(** ** JavaScript objects used as maps *)

Module JsObject.
Import JsString.

(** An object with string keys and string values, as the list of its
    entries.  Keys that are not canonical array indices are enumerated in
    the order they were first assigned; the objects below only ever carry
    such keys. *)
Definition obj : Type := list (string * string).

(** [o[k]]; [None] is [undefined]. *)
Fixpoint obj_get (o : obj) (k : string) : option string :=
  match o with
  | [] => None
  | (k', v) :: r => if str_eqb k' k then Some v else obj_get r k
  end.

(** [o[k] = v]: an existing key keeps its place, a new key goes last. *)
Fixpoint obj_set (o : obj) (k v : string) : obj :=
  match o with
  | [] => [(k, v)]
  | (k', v') :: r =>
      if str_eqb k' k then (k', v) :: r else (k', v') :: obj_set r k v
  end.

(** [delete o[k]] *)
Definition obj_delete (o : obj) (k : string) : obj :=
  List.filter (fun kv => negb (str_eqb (fst kv) k)) o.

(** [Object.keys(o)] *)
Definition obj_keys (o : obj) : list string := map fst o.

(** [x === y] for [x] a string or [undefined] and [y] a string. *)
Definition opt_str_eqb (x : option string) (y : string) : bool :=
  match x with Some a => str_eqb a y | None => false end.

(** Truthiness of a string or [undefined] / [null]. *)
Definition opt_truthy (x : option string) : bool :=
  match x with Some a => truthy a | None => false end.

(** *** Facts *)

Lemma obj_get_set o k v k' :
  obj_get (obj_set o k v) k' = if str_eqb k k' then Some v else obj_get o k'.
Proof.
  induction o as [|[k0 v0] r IH]; simpl.
  - destruct (str_eqb k k'); reflexivity.
  - destruct (str_eqb k0 k) eqn:E0; simpl.
    + apply str_eqb_eq in E0. subst k0. destruct (str_eqb k k'); reflexivity.
    + rewrite IH. destruct (str_eqb k0 k') eqn:E1; [|reflexivity].
      apply str_eqb_eq in E1. subst k0.
      now rewrite (str_eqb_sym k k'), E0.
Qed.

Lemma obj_get_delete o k k' :
  obj_get (obj_delete o k) k' = if str_eqb k k' then None else obj_get o k'.
Proof.
  induction o as [|[k0 v0] r IH]; simpl.
  - destruct (str_eqb k k'); reflexivity.
  - destruct (str_eqb k0 k) eqn:E0; simpl.
    + apply str_eqb_eq in E0. subst k0. rewrite IH.
      destruct (str_eqb k k'); reflexivity.
    + rewrite IH. destruct (str_eqb k0 k') eqn:E1; [|reflexivity].
      apply str_eqb_eq in E1. subst k0.
      now rewrite (str_eqb_sym k k'), E0.
Qed.

Lemma obj_get_Some_key o k v : obj_get o k = Some v → k ∈ obj_keys o.
Proof.
  induction o as [|[k0 v0] r IH]; simpl; [discriminate|].
  destruct (str_eqb k0 k) eqn:E.
  - apply str_eqb_eq in E. subst k0. intros _. apply list_elem_of_here.
  - intros H. apply list_elem_of_further. now apply IH.
Qed.

Lemma obj_key_get o k : k ∈ obj_keys o → ∃ v, obj_get o k = Some v.
Proof.
  induction o as [|[k0 v0] r IH]; simpl.
  - intros H. now apply not_elem_of_nil in H.
  - intros H. destruct (str_eqb k0 k) eqn:E; [eauto|].
    apply elem_of_cons in H as [->|H]; [|now apply IH].
    now rewrite str_eqb_refl in E.
Qed.

Lemma obj_keys_set o k v :
  obj_keys (obj_set o k v) = if decide (k ∈ obj_keys o) then obj_keys o else obj_keys o ++ [k].
Proof.
  unfold obj_keys. induction o as [|[k0 v0] r IH].
  - destruct (decide (k ∈ map fst (@nil (string * string)))) as [H|H]; [|reflexivity].
    now apply not_elem_of_nil in H.
  - cbn [obj_set]. destruct (str_eqb k0 k) eqn:E; cbn [map fst].
    + apply str_eqb_eq in E. subst k0.
      destruct (decide (k ∈ k :: map fst r)) as [H|H]; [reflexivity|].
      exfalso. apply H, list_elem_of_here.
    + apply str_eqb_neq in E. rewrite IH.
      destruct (decide (k ∈ map fst r)) as [Hin|Hin];
        destruct (decide (k ∈ k0 :: map fst r)) as [H|H]; try reflexivity.
      * exfalso. now apply H, list_elem_of_further.
      * exfalso. apply elem_of_cons in H as [->|H]; [now apply E|now apply Hin].
Qed.

Lemma obj_keys_set_NoDup o k v : NoDup (obj_keys o) → NoDup (obj_keys (obj_set o k v)).
Proof.
  intros H. rewrite obj_keys_set. destruct (decide (k ∈ obj_keys o)); [exact H|].
  apply NoDup_app. split; [exact H|]. split.
  - intros x Hx Hk. apply list_elem_of_singleton in Hk. now subst x.
  - apply NoDup_singleton.
Qed.

Lemma obj_keys_delete_NoDup o k : NoDup (obj_keys o) → NoDup (obj_keys (obj_delete o k)).
Proof.
  unfold obj_keys, obj_delete. induction o as [|[k0 v0] r IH]; simpl; [trivial|].
  intros H. apply NoDup_cons in H as [Hk0 Hr].
  destruct (str_eqb k0 k); simpl; [now apply IH|].
  apply NoDup_cons. split; [|now apply IH].
  intros Hin. apply Hk0. clear -Hin.
  induction r as [|[k1 v1] r IH]; simpl in *; [exact Hin|].
  destruct (str_eqb k1 k); simpl in *.
  - apply list_elem_of_further. now apply IH.
  - apply elem_of_cons in Hin as [->|Hin]; [apply list_elem_of_here|].
    apply list_elem_of_further. now apply IH.
Qed.

Lemma obj_keys_set_elem o k v x :
  x ∈ obj_keys (obj_set o k v) → x = k ∨ x ∈ obj_keys o.
Proof.
  rewrite obj_keys_set. destruct (decide (k ∈ obj_keys o)); [now right|].
  intros H. apply elem_of_app in H as [H|H]; [now right|].
  apply list_elem_of_singleton in H. now left.
Qed.

Lemma obj_keys_delete_elem o k x :
  x ∈ obj_keys (obj_delete o k) → x ∈ obj_keys o.
Proof.
  unfold obj_keys, obj_delete. induction o as [|[k0 v0] r IH]; simpl; [trivial|].
  destruct (str_eqb k0 k); simpl; intros H.
  - apply list_elem_of_further. now apply IH.
  - apply elem_of_cons in H as [->|H]; [apply list_elem_of_here|].
    apply list_elem_of_further. now apply IH.
Qed.

End JsObject.

(** ** JavaScript numbers *)

Module JsNumber.

Local Open Scope Z_scope.

(** The binary64 format. *)
Definition prec : Z := 53.
Definition emax : Z := 1024.

(** The number whose value is the integer [z], rounded to nearest even
    when [z] is not representable (never below [2^53]). *)
Definition of_Z (z : Z) : spec_float := binary_normalize prec emax z 0 false.

Definition add : spec_float → spec_float → spec_float := SFadd prec emax.
Definition mul : spec_float → spec_float → spec_float := SFmul prec emax.
Definition div : spec_float → spec_float → spec_float := SFdiv prec emax.

(** [x < y], [x <= y], [x >= y] on numbers; a comparison with [NaN] is
    false. *)
Definition lt (x y : spec_float) : bool := SFltb x y.
Definition le (x y : spec_float) : bool := SFleb x y.
Definition ge (x y : spec_float) : bool := SFleb y x.

Definition is_nan (x : spec_float) : bool :=
  match x with S754_nan => true | _ => false end.

(** The comparison [SameValueZero] of [Set] and [Map] keys: numeric
    equality, where moreover [NaN] equals itself. *)
Definition same_value_zero (x y : spec_float) : bool :=
  SFeqb x y || (is_nan x && is_nan y).

(** [Math.round(x)] as an integer, for finite [x]: the integer nearest to
    [x], the larger one on a tie, which is the floor of [x + 1/2].  With
    [x = ± m * 2^e], the floor of [2 * x] is [± m] shifted by [e + 1].  The
    rounding of a [NaN] or an infinity is not an integer; it is given as 0. *)
Definition Math_round (x : spec_float) : Z :=
  match x with
  | S754_finite s m e =>
      let twice := Z.shiftl (if s then Z.neg m else Z.pos m) (e + 1) in
      Z.shiftr (twice + 1) 1
  | _ => 0
  end.

Definition sub : spec_float → spec_float → spec_float := SFsub prec emax.

(** [x === y] on numbers *)
Definition eq (x y : spec_float) : bool := SFeqb x y.

(** [Number.isFinite(x)] *)
Definition isFinite (x : spec_float) : bool :=
  match x with S754_zero _ | S754_finite _ _ _ => true | _ => false end.

(** [Math.max(x, y)]: [NaN] if an argument is; [+0] is larger than [-0]. *)
Definition Math_max (x y : spec_float) : spec_float :=
  if is_nan x || is_nan y then S754_nan
  else match x, y with
       | S754_zero sx, S754_zero sy => S754_zero (sx && sy)
       | _, _ => if SFltb x y then y else x
       end.

(** [ToInt32]: the integer modulo [2^32], as a signed 32-bit value. *)
Definition to_int32 (z : Z) : Z := (z + 2 ^ 31) mod 2 ^ 32 - 2 ^ 31.

(** [x << n] on integers. *)
Definition shl32 (x n : Z) : Z := to_int32 (to_int32 x * 2 ^ n).

(** [x & x] on integers: [ToInt32] of the operand. *)
Definition and_self (x : Z) : Z := Z.land (to_int32 x) (to_int32 x).

(** *** Facts *)

Lemma to_int32_repr z : ∃ k, to_int32 z = z + k * 2 ^ 32.
Proof.
  exists (- ((z + 2 ^ 31) / 2 ^ 32)). unfold to_int32.
  rewrite Z.mod_eq by lia. lia.
Qed.

Lemma to_int32_add_mul z k : to_int32 (z + k * 2 ^ 32) = to_int32 z.
Proof.
  unfold to_int32.
  replace (z + k * 2 ^ 32 + 2 ^ 31) with (z + 2 ^ 31 + k * 2 ^ 32) by lia.
  now rewrite Z_mod_plus_full.
Qed.

Lemma to_int32_range z : - 2 ^ 31 ≤ to_int32 z < 2 ^ 31.
Proof.
  unfold to_int32. pose proof (Z.mod_pos_bound (z + 2 ^ 31) (2 ^ 32)). lia.
Qed.

Lemma to_int32_idem z : to_int32 (to_int32 z) = to_int32 z.
Proof.
  destruct (to_int32_repr z) as [k Hk]. rewrite Hk at 1. apply to_int32_add_mul.
Qed.

Lemma and_self_int32 x : and_self x = to_int32 x.
Proof. unfold and_self. apply Z.land_diag. Qed.

Lemma same_value_zero_refl x : same_value_zero x x = true.
Proof.
  unfold same_value_zero, SFeqb.
  destruct x as [s|s| |s m e]; simpl; try reflexivity.
  - now destruct s.
  - destruct s; rewrite Z.compare_refl, Pos.compare_cont_refl; reflexivity.
Qed.

(** The representative of a number among the numbers [SameValueZero]
    identifies with it: the two zeros share one. *)
Definition key (x : spec_float) : spec_float :=
  match x with S754_zero _ => S754_zero false | _ => x end.

Lemma SFeqb_finite s m e s' m' e' :
  SFeqb (S754_finite s m e) (S754_finite s' m' e') = true ↔
  s = s' ∧ m = m' ∧ e = e'.
Proof.
  unfold SFeqb, SFcompare.
  destruct s, s'; try (split; [discriminate|intros (H & _); discriminate]).
  - destruct (Z.compare_spec e e') as [->|Hlt|Hgt];
      try (split; [discriminate|intros (_ & _ & ->); lia]).
    rewrite Pos.compare_cont_spec. simpl.
    destruct (Pos.compare_spec m m') as [->|Hlt|Hgt]; simpl;
      try (split; [discriminate|intros (_ & -> & _); lia]).
    now split.
  - destruct (Z.compare_spec e e') as [->|Hlt|Hgt];
      try (split; [discriminate|intros (_ & _ & ->); lia]).
    rewrite Pos.compare_cont_spec. simpl.
    destruct (Pos.compare_spec m m') as [->|Hlt|Hgt]; simpl;
      try (split; [discriminate|intros (_ & -> & _); lia]).
    now split.
Qed.

Lemma same_value_zero_key x y : same_value_zero x y = true ↔ key x = key y.
Proof.
  unfold same_value_zero.
  destruct x as [s|s| |s m e], y as [s'|s'| |s' m' e'];
    try (rewrite orb_false_r, SFeqb_finite; simpl; split;
         [now intros (-> & -> & ->) | now intros [= -> -> ->]]);
    repeat match goal with b : bool |- _ => destruct b end;
    simpl; split; intros H; try discriminate; try reflexivity.
Qed.

Lemma same_value_zero_key_proper x x' y :
  key x = key x' → same_value_zero y x = same_value_zero y x'.
Proof.
  intros H. apply eq_true_iff_eq. rewrite !same_value_zero_key. now rewrite H.
Qed.

Lemma key_eq_cases x y :
  key x = key y → x = y ∨ ∃ s s', x = S754_zero s ∧ y = S754_zero s'.
Proof.
  destruct x as [s|s| |s m e], y as [s'|s'| |s' m' e']; simpl; intros H;
    try discriminate; try (left; congruence).
  right. eauto.
Qed.

Lemma ge_zero_sign s s' t : ge t (S754_zero s) = ge t (S754_zero s').
Proof. now destruct t as [?|[]| |[] ? ?]. Qed.

Lemma add_zero_one s : add (S754_zero s) (of_Z 1) = of_Z 1.
Proof. reflexivity. Qed.

End JsNumber.

(** ** Blank micro-syntax and blank interaction state (hooks/useBlanks.tsx) *)

Module Blanks.
Import JsString.

(** [interface BlankData] *)
Record BlankData := mkBlank {
  answer : string;
  localOptions : list string;
  hint : option string
}.

(** *** The parser: [text.split(/(\[.*?\])/g)], [filter], [map] *)

(** The tail [.*?\]] of the pattern, tried at the head of [s]: the lazy
    star takes code units one at a time, none of them a line terminator,
    and stops at the first closing bracket.  The result is the matched
    text and the rest of the input. *)
Fixpoint lazy_dots_close (s : string) : option (string * string) :=
  match s with
  | EmptyString => None
  | String c r =>
      if chr_eqb c "]" then Some (String c EmptyString, r)
      else if is_line_terminator c then None
      else match lazy_dots_close r with
           | Some (m, rest) => Some (String c m, rest)
           | None => None
           end
  end.

(** The pattern [\[.*?\]] tried at the head of [s]. *)
Definition match_blank (s : string) : option (string * string) :=
  match s with
  | String c r =>
      if chr_eqb c "[" then
        match lazy_dots_close r with
        | Some (m, rest) => Some (String c m, rest)
        | None => None
        end
      else None
  | EmptyString => None
  end.

Lemma lazy_dots_close_length s m rest :
  lazy_dots_close s = Some (m, rest) → String.length rest < String.length s.
Proof.
  revert m rest. induction s as [|c r IH]; intros m rest; simpl; [discriminate|].
  destruct (chr_eqb c "]").
  - intros [= <- <-]. lia.
  - destruct (is_line_terminator c); [discriminate|].
    destruct (lazy_dots_close r) as [[m' rest']|] eqn:E; [|discriminate].
    intros [= <- <-]. specialize (IH _ _ eq_refl). lia.
Qed.

Lemma match_blank_length s m rest :
  match_blank s = Some (m, rest) → String.length rest < String.length s.
Proof.
  destruct s as [|c r]; simpl; [discriminate|].
  destruct (chr_eqb c "["); [|discriminate].
  destruct (lazy_dots_close r) as [[m' rest']|] eqn:E; [|discriminate].
  intros [= <- <-]. apply lazy_dots_close_length in E. lia.
Qed.

Definition inspect {A : Type} (x : A) : { y : A | x = y } := exist _ x eq_refl.

(** [split] with a capturing pattern: the text before a match, the match,
    and so on, ending with the text after the last match.  [seg] is the
    text gathered since the last match. *)
Equations? split_blank_pattern (s seg : string) : list string
  by wf (String.length s) lt :=
split_blank_pattern EmptyString seg := [seg];
split_blank_pattern (String c r) seg with inspect (match_blank (String c r)) := {
  | exist _ (Some (m, rest)) _ => seg :: m :: split_blank_pattern rest EmptyString
  | exist _ None _ => split_blank_pattern r (seg ++ String c EmptyString)
}.
Proof.
  pose proof (match_blank_length (String c r) m rest e) as Hlt.
  simpl in Hlt. lia.
Qed.

(** The loop over [items[1..]]: a segment starting with [hint:] sets the
    hint, any other segment is pushed onto [localOptions]. *)
Fixpoint scan_items (items : list string) (h : option string) (opts : list string)
  : option string * list string :=
  match items with
  | [] => (h, opts)
  | it :: rest =>
      if startsWith it "hint:" then scan_items rest (Some (substring_from 5 it)) opts
      else scan_items rest h (opts ++ [it])
  end.

(** The [map] callback: one bracket token [p] to its [BlankData]. *)
Definition parse_token (p : string) : BlankData :=
  let content := slice_1_m1 p in
  let items := split_on "|" content in
  let '(h, opts) := scan_items (tl items) None [] in
  {| answer := hd EmptyString items; localOptions := opts; hint := h |}.

(** [blanksData] of [useBlanks], from the text of the children. *)
Definition blanksData (text : string) : list BlankData :=
  let parts := split_blank_pattern text EmptyString in
  map parse_token
    (List.filter (fun p => startsWith p "[" && endsWith p "]") parts).

(** [answers = blanksData.map(b => b.answer)] *)
Definition answers_of (blanks : list BlankData) : list string := map answer blanks.

(** *** The token grammar in the words of the specification

    A token is an opening bracket, then the content up to the next
    closing bracket.  The content splits on the bar; the first segment is
    the answer, a later segment starting with [hint:] sets the hint, the
    other later segments are the local options. *)

(** The text up to the first closing bracket, and the text after it. *)
Fixpoint until_close (s : string) : option (string * string) :=
  match s with
  | EmptyString => None
  | String c r =>
      if chr_eqb c "]" then Some (EmptyString, r)
      else match until_close r with
           | Some (content, rest) => Some (String c content, rest)
           | None => None
           end
  end.

Lemma until_close_length s content rest :
  until_close s = Some (content, rest) → String.length rest < String.length s.
Proof.
  revert content rest. induction s as [|c r IH]; intros content rest; simpl; [discriminate|].
  destruct (chr_eqb c "]").
  - intros [= <- <-]. lia.
  - destruct (until_close r) as [[m' rest']|] eqn:E; [|discriminate].
    intros [= <- <-]. specialize (IH _ _ eq_refl). lia.
Qed.

(** The contents of the bracket tokens of a text, left to right. *)
Equations? bracket_contents (s : string) : list string
  by wf (String.length s) lt :=
bracket_contents EmptyString := [];
bracket_contents (String c r)
  with inspect (if chr_eqb c "[" then until_close r else None) := {
  | exist _ (Some (content, rest)) _ => content :: bracket_contents rest
  | exist _ None _ => bracket_contents r
}.
Proof.
  destruct (chr_eqb c "["); [|discriminate].
  pose proof (until_close_length r content rest e) as Hlt. lia.
Qed.

(** The text after [hint:] of the last segment that starts with it. *)
Fixpoint last_hint (later : list string) : option string :=
  match later with
  | [] => None
  | it :: rest =>
      match last_hint rest with
      | Some h => Some h
      | None => if startsWith it "hint:" then Some (substring_from 5 it) else None
      end
  end.

Definition blank_of_content (content : string) : BlankData :=
  let items := split_on "|" content in
  {| answer := hd EmptyString items;
     localOptions := List.filter (fun it => negb (startsWith it "hint:")) (tl items);
     hint := last_hint (tl items) |}.

Fixpoint has_line_terminator (s : string) : bool :=
  match s with
  | EmptyString => false
  | String c r => is_line_terminator c || has_line_terminator r
  end.

(** No token of the text runs over a line break. *)
Definition tokens_on_one_line (text : string) : bool :=
  forallb (fun content => negb (has_line_terminator content)) (bracket_contents text).

(** *** The interaction state: the [useState] cells of [useBlanks] *)

Import JsArray.

Record state := mkState {
  inputs : list (slot string);
  touched : list (slot bool);
  blurred : list (slot bool);
  submitted : bool;
  showAnswers : bool
}.

(** The initial values of the cells, for [answers.length] blanks. *)
Definition mount (answers : list string) : state :=
  {| inputs := filled (length answers) EmptyString;
     touched := filled (length answers) false;
     blurred := filled (length answers) false;
     submitted := false;
     showAnswers := false |}.

Definition handleInputChange (index : nat) (value : string) (s : state) : state :=
  {| inputs := assign (spread (inputs s)) index (Value value);
     touched := assign (spread (touched s)) index (Value true);
     blurred := assign (spread (blurred s)) index (Value false);
     submitted := submitted s;
     showAnswers := showAnswers s |}.

Definition handleBlur (index : nat) (s : state) : state :=
  {| inputs := inputs s;
     touched := touched s;
     blurred := assign (spread (blurred s)) index (Value true);
     submitted := submitted s;
     showAnswers := showAnswers s |}.

Definition checkAnswers (s : state) : state :=
  {| inputs := inputs s;
     touched := touched s;
     blurred := blurred s;
     submitted := true;
     showAnswers := false |}.

Definition reset (answers : list string) (s : state) : state :=
  {| inputs := filled (length answers) EmptyString;
     touched := filled (length answers) false;
     blurred := blurred s;
     submitted := false;
     showAnswers := false |}.

Definition revealAnswer (answers : list string) (index : nat) (s : state) : state :=
  {| inputs := assign (spread (inputs s)) index (of_option (answers !! index));
     touched := assign (spread (touched s)) index (Value true);
     blurred := blurred s;
     submitted := submitted s;
     showAnswers := showAnswers s |}.

Definition showAllAnswers (answers : list string) (s : state) : state :=
  {| inputs := dense answers;
     touched := touched s;
     blurred := blurred s;
     submitted := true;
     showAnswers := true |}.

(** The interactions the hook hands to the exercise. *)
Inductive event : Type :=
| SetValue (index : nat) (value : string)
| Blur (index : nat)
| CheckAll
| RevealOne (index : nat)
| RevealAll
| Reset.

Definition step (answers : list string) (s : state) (e : event) : state :=
  match e with
  | SetValue index value => handleInputChange index value s
  | Blur index => handleBlur index s
  | CheckAll => checkAnswers s
  | RevealOne index => revealAnswer answers index s
  | RevealAll => showAllAnswers answers s
  | Reset => reset answers s
  end.

Definition run (answers : list string) (evs : list event) (s : state) : state :=
  fold_left (step answers) evs s.

(** [inputs.every((val, idx) => val.trim().toLowerCase() ===
    answers[idx].toLowerCase())].  [every] skips holes and stops at the
    first [false]; calling a method on [undefined] throws a [TypeError],
    rendered as [None]. *)
Fixpoint every_correct (idx : nat) (ins : list (slot string)) (answers : list string)
  : option bool :=
  match ins with
  | [] => Some true
  | Hole :: rest => every_correct (S idx) rest answers
  | Undefined :: _ => None
  | Value val :: rest =>
      match answers !! idx with
      | None => None
      | Some ans =>
          if str_eqb (toLowerCase (trim val)) (toLowerCase ans)
          then every_correct (S idx) rest answers
          else Some false
      end
  end.

Definition allCorrect (ins : list (slot string)) (answers : list string) : option bool :=
  every_correct 0 ins answers.

(** [inputs[index] || ''] *)
Definition value_at (ins : list (slot string)) (index : nat) : string :=
  match ins !! index with
  | Some (Value v) => v
  | _ => EmptyString
  end.

(** The truthiness of [flags[index]]. *)
Definition flag_at (flags : list (slot bool)) (index : nat) : bool :=
  match flags !! index with
  | Some (Value b) => b
  | _ => false
  end.

(** [status.isWrong] of the blank [index], as a [renderContent] created in
    a render in which the cells have the values [s] computes it.  The
    callback is memoised on [children, blanksData, inputs, submitted,
    touched]: it is created in every render in which one of these has
    changed (after [handleInputChange], [revealAnswer], [showAllAnswers],
    [reset], and after [checkAnswers] when it changes [submitted]), and reads
    the cells of that render.  After a change of [blurred] alone the
    callback of the render before stays in use ([BlankStatus.hook]). *)
Definition isWrong (s : state) (index : nat) (answer : string) : bool :=
  let value := value_at (inputs s) index in
  let isCorrect := str_eqb (toLowerCase (trim value)) (toLowerCase answer) in
  let showValidation :=
    submitted s || (flag_at (touched s) index && negb (str_eqb (trim value) EmptyString)) in
  let isPartialMatch :=
    (0 <? String.length (trim value))
    && startsWith (toLowerCase answer) (toLowerCase (trim value)) in
  showValidation && negb isCorrect
  && (submitted s || (negb isPartialMatch || flag_at (blurred s) index)).

(** *** Facts on the parser *)

Lemma split_blank_pattern_cons c r seg :
  split_blank_pattern (String c r) seg =
  match match_blank (String c r) with
  | Some (m, rest) => seg :: m :: split_blank_pattern rest EmptyString
  | None => split_blank_pattern r (seg +:+ String c EmptyString)
  end.
Proof.
  simp split_blank_pattern.
  destruct (inspect (match_blank (String c r))) as [[[m rest]|] e];
    cbn [split_blank_pattern_unfold_clause_2]; rewrite e; reflexivity.
Qed.

Lemma bracket_contents_cons c r :
  bracket_contents (String c r) =
  match (if chr_eqb c "[" then until_close r else None) with
  | Some (content, rest) => content :: bracket_contents rest
  | None => bracket_contents r
  end.
Proof.
  simp bracket_contents.
  destruct (inspect (if chr_eqb c "[" then until_close r else None)) as [[[m rest]|] e];
    cbn [bracket_contents_unfold_clause_2]; rewrite e; reflexivity.
Qed.

Lemma until_close_None s : until_close s = None ↔ includes_chr "]" s = false.
Proof.
  induction s as [|c r IH]; simpl; [tauto|].
  destruct (chr_eqb c "]"); simpl; [split; discriminate|].
  destruct (until_close r) as [[? ?]|]; split; intros H; try discriminate.
  - apply IH in H. discriminate.
  - now apply IH.
  - reflexivity.
Qed.

(** On a content without line terminator the lazy star stops where the
    grammar of the specification does. *)
Lemma lazy_dots_close_until s content rest :
  until_close s = Some (content, rest) →
  has_line_terminator content = false →
  lazy_dots_close s = Some (content +:+ "]", rest).
Proof.
  revert content rest. induction s as [|c r IH]; intros content rest; simpl; [discriminate|].
  destruct (chr_eqb c "]") eqn:Ec.
  - intros [= <- <-] _. apply chr_eqb_eq in Ec. now subst c.
  - destruct (until_close r) as [[m' rest']|] eqn:E; [|discriminate].
    intros [= <- <-]. simpl. intros H. apply orb_false_iff in H as [-> H].
    now rewrite (IH _ _ eq_refl H).
Qed.

Lemma lazy_dots_close_None s : until_close s = None → lazy_dots_close s = None.
Proof.
  induction s as [|c r IH]; simpl; [reflexivity|].
  destruct (chr_eqb c "]"); [discriminate|].
  destruct (until_close r) as [[? ?]|]; [discriminate|]. intros _.
  rewrite IH by reflexivity. now destruct (is_line_terminator c).
Qed.

Lemma bracket_contents_no_close s :
  includes_chr "]" s = false → bracket_contents s = [].
Proof.
  induction s as [|c r IH]; intros H; [reflexivity|].
  rewrite bracket_contents_cons. simpl in H. apply orb_false_iff in H as [_ H].
  rewrite (proj2 (until_close_None r) H). destruct (chr_eqb c "["); now apply IH.
Qed.

Lemma split_blank_pattern_no_close s seg :
  includes_chr "]" s = false → split_blank_pattern s seg = [seg +:+ s].
Proof.
  revert seg. induction s as [|c r IH]; intros seg H.
  - simp split_blank_pattern. now rewrite str_app_nil_r.
  - rewrite split_blank_pattern_cons. simpl in H. apply orb_false_iff in H as [_ H].
    unfold match_blank.
    rewrite (lazy_dots_close_None r (proj2 (until_close_None r) H)).
    destruct (chr_eqb c "["); rewrite (IH _ H), str_app_assoc; reflexivity.
Qed.

(** The [filter] predicate of [blanksData]. *)
Definition is_token (p : string) : bool := startsWith p "[" && endsWith p "]".

Lemma is_token_no_open seg : includes_chr "[" seg = false → is_token seg = false.
Proof.
  unfold is_token. rewrite startsWith_chr. destruct seg as [|a seg]; [reflexivity|].
  simpl. intros H. apply orb_false_iff in H as [H _].
  rewrite chr_eqb_sym, H. reflexivity.
Qed.

Lemma is_token_dangling seg r :
  includes_chr "]" r = false → is_token (seg +:+ String "[" r) = false.
Proof.
  intros H. unfold is_token. rewrite endsWith_chr, last_chr_app_cons.
  destruct (last_chr (String "[" r)) as [a|] eqn:E; [|apply andb_false_r].
  destruct (chr_eqb "]" a) eqn:Ea; [|apply andb_false_r].
  apply chr_eqb_eq in Ea. subst a. apply last_chr_includes in E.
  simpl in E. rewrite H in E. discriminate.
Qed.

Lemma is_token_bracketed content : is_token (String "[" (content +:+ "]")) = true.
Proof.
  unfold is_token. rewrite startsWith_chr, endsWith_chr, chr_eqb_refl.
  change (String "[" (content +:+ "]")) with ("[" +:+ content +:+ "]").
  rewrite <- str_app_assoc, last_chr_snoc. reflexivity.
Qed.

Lemma scan_items_spec items h opts :
  scan_items items h opts =
  (match last_hint items with Some x => Some x | None => h end,
   opts ++ List.filter (fun it => negb (startsWith it "hint:")) items).
Proof.
  revert h opts.
  induction items as [|it rest IH]; intros h opts;
    cbn [scan_items last_hint List.filter].
  - now rewrite app_nil_r.
  - destruct (startsWith it "hint:") eqn:E; rewrite IH; cbn [negb].
    + now destruct (last_hint rest).
    + rewrite <- app_assoc. now destruct (last_hint rest).
Qed.

Lemma parse_token_bracketed content :
  parse_token (String "[" (content +:+ "]")) = blank_of_content content.
Proof.
  unfold parse_token, blank_of_content, slice_1_m1.
  change (substring_from 1 (String "[" (content +:+ "]"))) with (content +:+ "]").
  rewrite drop_last_snoc, scan_items_spec. cbn [app].
  now destruct (last_hint (tl (split_on "|" content))).
Qed.

Lemma blanks_of_parts n : ∀ s seg,
  String.length s = n →
  includes_chr "[" seg = false →
  forallb (fun content => negb (has_line_terminator content)) (bracket_contents s) = true →
  map parse_token (List.filter is_token (split_blank_pattern s seg))
  = map blank_of_content (bracket_contents s).
Proof.
  induction n as [n IH] using lt_wf_ind. intros s seg Hn Hseg Hone.
  subst n. destruct s as [|c r].
  - simp split_blank_pattern bracket_contents. simpl.
    now rewrite (is_token_no_open seg Hseg).
  - rewrite split_blank_pattern_cons. rewrite bracket_contents_cons in Hone |- *.
    unfold match_blank. destruct (chr_eqb c "[") eqn:Ec.
    + apply chr_eqb_eq in Ec. subst c.
      destruct (until_close r) as [[content rest]|] eqn:Eu.
      * simpl in Hone. apply andb_true_iff in Hone as [Hc Hrest].
        apply negb_true_iff in Hc.
        rewrite (lazy_dots_close_until r content rest Eu Hc). simpl.
        rewrite (is_token_no_open seg Hseg), is_token_bracketed. simpl.
        rewrite parse_token_bracketed. f_equal.
        apply (IH (String.length rest)); try reflexivity; try assumption.
        apply until_close_length in Eu. simpl. lia.
      * rewrite (lazy_dots_close_None r Eu).
        apply until_close_None in Eu.
        rewrite (split_blank_pattern_no_close r _ Eu), str_app_assoc.
        change (String "[" EmptyString +:+ r) with (String "[" r). simpl.
        rewrite (is_token_dangling seg r Eu).
        now rewrite (bracket_contents_no_close r Eu).
    + apply (IH (String.length r)); try reflexivity; try assumption; [simpl; lia|].
      rewrite includes_chr_app, Hseg. simpl. now rewrite Ec.
Qed.

Lemma blanksData_spec text :
  tokens_on_one_line text = true →
  blanksData text = map blank_of_content (bracket_contents text).
Proof.
  intros H. unfold blanksData.
  now apply (blanks_of_parts (String.length text) text EmptyString).
Qed.

Lemma blanksData_no_close text :
  includes_chr "]" text = false → blanksData text = [].
Proof.
  intros H. rewrite blanksData_spec.
  - now rewrite (bracket_contents_no_close text H).
  - unfold tokens_on_one_line. now rewrite (bracket_contents_no_close text H).
Qed.

(** C3, amended.  For every text none of whose bracket tokens runs over a
    line terminator, the parser yields one [BlankData] per bracket token, in
    document order, each built from the content between the brackets: the
    content is split on the bar, the first segment is the answer, the last
    later segment starting with [hint:] gives the hint (the text after the
    prefix), the other later segments are the local options, in order and
    with duplicates.  A text without closing bracket yields no blank, and
    the token [[]] yields a blank whose answer is the empty string. *)
Theorem blanksData_one_line_tokens :
  (∀ text : string,
      tokens_on_one_line text = true →
      blanksData text = map blank_of_content (bracket_contents text)
      ∧ length (blanksData text) = length (bracket_contents text))
  ∧ (∀ text : string, includes_chr "]" text = false → blanksData text = [])
  ∧ blanksData "[]" = [ {| answer := ""; localOptions := []; hint := None |} ].
Proof.
  split; [|split].
  - intros text H. rewrite (blanksData_spec text H). split; [reflexivity|].
    apply length_map.
  - apply blanksData_no_close.
  - reflexivity.
Qed.

Lemma blanksData_one_line_tokens_witness :
  tokens_on_one_line "Der [Mann|hint:male adult] geht." = true
  ∧ blanksData "Der [Mann|hint:male adult] geht."
    = [ {| answer := "Mann"; localOptions := []; hint := Some "male adult" |} ].
Proof.
  split; [reflexivity|].
  destruct (proj1 blanksData_one_line_tokens
              "Der [Mann|hint:male adult] geht." eq_refl) as [-> _].
  reflexivity.
Defined.

(** A token whose content holds a line feed: the grammar of the
    specification counts one token, the parser yields no blank.  And where
    the text left after the last match starts and ends with a bracket, the
    [filter] lets it pass: one match of the pattern, two blanks. *)
Lemma blanksData_token_over_lines :
  let text := "x[a" +:+ String "010" "b]" in
  let text' := "[x][" +:+ String "010" "]" in
  bracket_contents text = [ "a" +:+ String "010" "b" ]
  ∧ blanksData text = []
  ∧ length (blanksData text) ≠ length (bracket_contents text)
  ∧ split_blank_pattern text' "" = [ ""; "[x]"; "[" +:+ String "010" "]" ]
  ∧ blanksData text'
    = [ {| answer := "x"; localOptions := []; hint := None |};
        {| answer := String "010" ""; localOptions := []; hint := None |} ].
Proof. repeat split. discriminate. Qed.

Example blanksData_options :
  blanksData "[a][b|c|c|hint:x|hint:y|d] ["
  = [ {| answer := "a"; localOptions := []; hint := None |};
      {| answer := "b"; localOptions := ["c"; "c"; "d"]; hint := Some "y" |} ].
Proof. reflexivity. Qed.

(** *** Facts on the correctness predicate *)

Lemma every_correct_dense vals : ∀ answers idx,
  idx + length vals ≤ length answers →
  (every_correct idx (dense vals) answers = Some true ∨
   every_correct idx (dense vals) answers = Some false)
  ∧ (every_correct idx (dense vals) answers = Some true ↔
     ∀ i v a, vals !! i = Some v → answers !! (idx + i) = Some a →
              toLowerCase (trim v) = toLowerCase a).
Proof.
  induction vals as [|val vals IH]; intros answers idx Hlen.
  - simpl. split; [now left|]. split; [|reflexivity].
    intros _ i v a H. now rewrite lookup_nil in H.
  - cbn [dense map every_correct]. simpl in Hlen.
    destruct (answers !! idx) as [ans|] eqn:Ea.
    2:{ apply lookup_ge_None in Ea. lia. }
    destruct (str_eqb (toLowerCase (trim val)) (toLowerCase ans)) eqn:Ec.
    + apply str_eqb_eq in Ec.
      destruct (IH answers (S idx)) as [Hd Hiff]; [lia|].
      split; [exact Hd|]. fold (dense vals). rewrite Hiff. split.
      * intros H [|i] v a Hv Ha.
        -- injection Hv as <-. rewrite Nat.add_0_r, Ea in Ha. now injection Ha as <-.
        -- apply (H i v a Hv). now rewrite Nat.add_succ_comm.
      * intros H i v a Hv Ha. apply (H (S i) v a Hv).
        now rewrite <- Nat.add_succ_comm.
    + split; [now right|]. split; [discriminate|].
      intros H. apply str_eqb_neq in Ec. exfalso. apply Ec.
      apply (H 0 val ans); [reflexivity|]. now rewrite Nat.add_0_r.
Qed.

(** C4, amended.  With one input value per blank, [allCorrect] is true if
    and only if, at every index, the trimmed lower-case input equals the
    lower-case answer; the answer is lower-cased but not trimmed.  The
    predicate reads the blanks through their answers only, so the option
    lists (and hints) have no effect, and it never throws. *)
Theorem allCorrect_iff_lowercase_answer
  (blanks : list BlankData) (vals : list string)
  (Hlen : length vals = length blanks) :
  (allCorrect (dense vals) (answers_of blanks) = Some true ↔
   ∀ i v b, vals !! i = Some v → blanks !! i = Some b →
            toLowerCase (trim v) = toLowerCase (answer b))
  ∧ (∀ blanks' : list BlankData,
       answers_of blanks' = answers_of blanks →
       allCorrect (dense vals) (answers_of blanks')
       = allCorrect (dense vals) (answers_of blanks))
  ∧ allCorrect (dense vals) (answers_of blanks) ≠ None.
Proof.
  unfold allCorrect, answers_of.
  destruct (every_correct_dense vals (map answer blanks) 0) as [Hd Hiff].
  { rewrite length_map. simpl. lia. }
  split; [|split].
  - rewrite Hiff. split.
    + intros H i v b Hv Hb. apply (H i v (answer b) Hv).
      simpl. now rewrite list_lookup_fmap, Hb.
    + intros H i v a Hv Ha. simpl in Ha. rewrite list_lookup_fmap in Ha.
      destruct (blanks !! i) as [b|] eqn:Hb; [|discriminate].
      injection Ha as <-. now apply (H i v b).
  - now intros blanks' ->.
  - destruct Hd as [-> | ->]; discriminate.
Qed.

Lemma allCorrect_iff_lowercase_answer_witness :
  allCorrect (dense ["mann"; " Frau "])
             (answers_of (blanksData "Der [Mann|Frau] und die [frau|hint:f]"))
  = Some true.
Proof.
  apply (proj1 (allCorrect_iff_lowercase_answer
                  (blanksData "Der [Mann|Frau] und die [frau|hint:f]")
                  ["mann"; " Frau "] eq_refl)).
  intros [|[|i]] v b Hv Hb; try discriminate;
    injection Hv as <-; injection Hb as <-; reflexivity.
Defined.

(** An answer written with a leading blank: the trimmed lower-case input
    and the trimmed lower-case answer agree, and [allCorrect] is false. *)
Lemma allCorrect_untrimmed_answer :
  let blanks := blanksData "[ a]" in
  let vals := ["a"] in
  (∀ i v b, vals !! i = Some v → blanks !! i = Some b →
            toLowerCase (trim v) = toLowerCase (trim (answer b)))
  ∧ allCorrect (dense vals) (answers_of blanks) = Some false.
Proof.
  split; [|reflexivity].
  intros [|i] v b Hv Hb; try discriminate.
  injection Hv as <-. injection Hb as <-. reflexivity.
Qed.

(** *** Facts on the interaction state *)

Lemma showAllAnswers_idempotent answers s :
  showAllAnswers answers (showAllAnswers answers s) = showAllAnswers answers s.
Proof. reflexivity. Qed.

(** [showAllAnswers] applied twice gives the state it gives applied once.
    After any sequence of interactions, [reset] returns the input values,
    the touched flags, [submitted] and [showAnswers] to their values at
    mount: all values empty, all touched flags cleared, both booleans
    false.  The blurred flags keep the values they had before the reset. *)
Theorem reset_restores_mount_values (answers : list string) (evs : list event) :
  let s := run answers evs (mount answers) in
  showAllAnswers answers (showAllAnswers answers s) = showAllAnswers answers s
  ∧ inputs (reset answers s) = inputs (mount answers)
  ∧ touched (reset answers s) = touched (mount answers)
  ∧ submitted (reset answers s) = false
  ∧ showAnswers (reset answers s) = false
  ∧ blurred (reset answers s) = blurred s.
Proof. repeat split. Qed.

(** C9.  [showAllAnswers] is idempotent, and [reset] restores the values,
    the touched flags and both booleans ([reset_restores_mount_values]); it
    sets four of the five cells and never calls [setBlurred].  After a blur
    of blank 0, a check and a reset, the blurred flag of blank 0 is still
    set, and the state is not the state of a fresh mount.  With the answer
    written with a trailing blank the difference shows: revealing the
    answer marks the blank wrong after the reset, and not after a fresh
    mount. *)
Theorem reset_keeps_blurred :
  let answers := answers_of (blanksData "[a ]") in
  let s := run answers [Blur 0; CheckAll; Reset] (mount answers) in
  blurred s = [Value true]
  ∧ blurred (mount answers) = [Value false]
  ∧ s ≠ mount answers
  ∧ isWrong (revealAnswer answers 0 s) 0 "a " = true
  ∧ isWrong (revealAnswer answers 0 (mount answers)) 0 "a " = false.
Proof. repeat split. discriminate. Qed.

End Blanks.

(** ** Drag and click placement (FillBlanks.tsx) *)

Module Placement.
Import JsString JsObject.

(** The id [`drop-${index}`] of the drop zone of the blank [index]; the
    drop zones are the only droppable elements of the exercise. *)
Definition dropId (index : nat) : string := "drop-" +:+ pretty index.

(** An entry of [allItems]. *)
Record item := mkItem { id : string; text : string }.

(** The placement cells: [dragItems] holds the ids of the bank in order,
    [droppedItems] maps a drop-zone id to the id of the item it holds. *)
Record state := mkState {
  dragItems : list string;
  droppedItems : obj;
  selectedId : option string;
  activeDropMenu : option string
}.

(** The initial cells: every item id in the bank (in the shuffled order
    [bank]), nothing dropped, nothing selected. *)
Definition initial (bank : list string) : state :=
  {| dragItems := bank; droppedItems := []; selectedId := None; activeDropMenu := None |}.

(** [Object.keys(droppedItems).find(key => droppedItems[key] === itemId)] *)
Definition sourceDropZone (dropped : obj) (itemId : string) : option string :=
  List.find (fun key => opt_str_eqb (obj_get dropped key) itemId) (obj_keys dropped).

(** [dragItems.includes(itemId)] *)
Definition isFromBank (bank : list string) (itemId : string) : bool :=
  existsb (fun x => str_eqb x itemId) bank.

(** The updater of [droppedItems] when [itemId] goes to [target]: the same
    in [handleDragEnd] and in [handleDropZoneClick]. *)
Definition dropped_after_place (prev : obj) (source : option string)
  (target itemId : string) : obj :=
  let next := obj_set prev target itemId in
  match source with
  | Some src => if truthy src then obj_delete next src else next
  | None => next
  end.

(** The updater of [dragItems] when [itemId] goes to a zone that holds
    [occupant]: the same in both handlers. *)
Definition bank_after_place (prev : list string) (fromBank : bool)
  (occupant : option string) (itemId : string) : list string :=
  let next :=
    if fromBank then List.filter (fun x => negb (str_eqb x itemId)) prev else prev in
  match occupant with
  | Some x => if truthy x then next ++ [x] else next
  | None => next
  end.

(** [handleDragEnd]: [over] is the id of the drop zone under the pointer,
    if any. *)
Definition handleDragEnd (activeId : string) (over : option string) (s : state) : state :=
  let sourceDropZoneId := sourceDropZone (droppedItems s) activeId in
  let fromBank := isFromBank (dragItems s) activeId in
  match over with
  | Some targetDropZoneId =>
      if opt_str_eqb sourceDropZoneId targetDropZoneId then s
      else
        let itemInTargetZone := obj_get (droppedItems s) targetDropZoneId in
        {| droppedItems :=
             dropped_after_place (droppedItems s) sourceDropZoneId targetDropZoneId activeId;
           dragItems :=
             bank_after_place (dragItems s) fromBank itemInTargetZone activeId;
           selectedId := None;
           activeDropMenu := activeDropMenu s |}
  | None =>
      let unchanged :=
        {| droppedItems := droppedItems s;
           dragItems := dragItems s;
           selectedId := None;
           activeDropMenu := activeDropMenu s |} in
      match sourceDropZoneId with
      | Some src =>
          if truthy src then
            {| droppedItems := obj_delete (droppedItems s) src;
               dragItems := dragItems s ++ [activeId];
               selectedId := None;
               activeDropMenu := activeDropMenu s |}
          else unchanged
      | None => unchanged
      end
  end.

(** The string behind a truthy [x]: [if (x) ...] enters the branch with
    it, and skips the branch on [null], [undefined] and the empty string. *)
Definition when_truthy (x : option string) : option string :=
  match x with
  | Some a => if truthy a then Some a else None
  | None => None
  end.

(** [handleWordClick]; [submitted] is the cell of the blank hook. *)
Definition handleWordClick (submitted : bool) (itemId : string) (s : state) : state :=
  if submitted then s
  else
    {| droppedItems := droppedItems s;
       dragItems := dragItems s;
       selectedId := if opt_str_eqb (selectedId s) itemId then None else Some itemId;
       activeDropMenu := None |}.

(** [handleDropZoneClick] *)
Definition handleDropZoneClick (submitted : bool) (dropId : string) (s : state) : state :=
  if submitted then s
  else
    let currentItemId := obj_get (droppedItems s) dropId in
    match when_truthy (selectedId s) with
    | Some sel =>
        (* Case 1: a word is selected, it fills the blank *)
        if opt_str_eqb currentItemId sel then
          {| droppedItems := droppedItems s;
             dragItems := dragItems s;
             selectedId := None;
             activeDropMenu := activeDropMenu s |}
        else
          let sourceDropZoneId := sourceDropZone (droppedItems s) sel in
          let fromBank := isFromBank (dragItems s) sel in
          {| droppedItems :=
               dropped_after_place (droppedItems s) sourceDropZoneId dropId sel;
             dragItems := bank_after_place (dragItems s) fromBank currentItemId sel;
             selectedId := None;
             activeDropMenu := activeDropMenu s |}
    | None =>
        match when_truthy currentItemId with
        | Some cur =>
            (* Case 2: the blank is filled, its item returns to the bank *)
            {| droppedItems := obj_delete (droppedItems s) dropId;
               dragItems := dragItems s ++ [cur];
               selectedId := selectedId s;
               activeDropMenu := activeDropMenu s |}
        | None =>
            (* Case 3: the blank is empty, its menu toggles *)
            {| droppedItems := droppedItems s;
               dragItems := dragItems s;
               selectedId := selectedId s;
               activeDropMenu :=
                 if opt_str_eqb (activeDropMenu s) dropId then None else Some dropId |}
        end
    end.

(** [handleMenuOptionClick]: the click on the entry [itemId] of the menu
    of the drop zone [dropId]. *)
Definition handleMenuOptionClick (dropId itemId : string) (s : state) : state :=
  {| droppedItems := obj_set (droppedItems s) dropId itemId;
     dragItems := List.filter (fun x => negb (str_eqb x itemId)) (dragItems s);
     selectedId := selectedId s;
     activeDropMenu := None |}.

(** The menu of the drop zone [dropId] is rendered under
    [activeDropMenu === dropId && !submitted], with one button for each id
    of [dragItems]. *)
Definition menuOffers (submitted : bool) (s : state) (dropId itemId : string) : bool :=
  opt_str_eqb (activeDropMenu s) dropId && negb submitted
  && isFromBank (dragItems s) itemId.

(** The gestures on the placement cells.  A drag ends over the drop zone
    of some blank or over none; a click hits a word, a drop zone or an
    entry of the menu of a drop zone. *)
Inductive event : Type :=
| DragEnd (activeId : string) (over : option nat)
| WordClick (itemId : string)
| DropZoneClick (index : nat)
| MenuOptionClick (index : nat) (itemId : string).

(** One gesture, handled in a render where the hook reports [submitted].
    A menu entry can be clicked only in a render that shows it. *)
Definition step (s : state) (g : bool * event) : state :=
  match g with
  | (_, DragEnd activeId over) => handleDragEnd activeId (option_map dropId over) s
  | (submitted, WordClick itemId) => handleWordClick submitted itemId s
  | (submitted, DropZoneClick index) => handleDropZoneClick submitted (dropId index) s
  | (submitted, MenuOptionClick index itemId) =>
      if menuOffers submitted s (dropId index) itemId
      then handleMenuOptionClick (dropId index) itemId s
      else s
  end.

Definition run (gs : list (bool * event)) (s : state) : state := fold_left step gs s.

(** *** The drag-mode verdict *)

(** [getItemText]: [allItems.find(i => i.id === id)?.text || ''] *)
Definition getItemText (allItems : list item) (itemId : string) : string :=
  match List.find (fun i => str_eqb (id i) itemId) allItems with
  | Some i => if truthy (text i) then text i else EmptyString
  | None => EmptyString
  end.

(** [answers.every((ans, idx) => { const droppedId =
    droppedItems[`drop-${idx}`]; return droppedId &&
    getItemText(droppedId) === ans; })], from index [idx] on. *)
Fixpoint every_dropped (allItems : list item) (dropped : obj)
  (idx : nat) (answers : list string) : bool :=
  match answers with
  | [] => true
  | ans :: rest =>
      let droppedId := obj_get dropped (dropId idx) in
      (opt_truthy droppedId
       && match droppedId with
          | Some d => str_eqb (getItemText allItems d) ans
          | None => false
          end)
      && every_dropped allItems dropped (S idx) rest
  end.

Inductive mode : Type := Input | Drag | Picker.

(** [allCorrect] of the exercise: the verdict of the blank hook in input
    and picker mode, the verdict on the drop zones otherwise. *)
Definition allCorrect (m : mode) (inputsAllCorrect : bool)
  (allItems : list item) (dropped : obj) (answers : list string) : bool :=
  match m with
  | Input | Picker => inputsAllCorrect
  | Drag => every_dropped allItems dropped 0 answers
  end.

(** *** The placement invariant *)

Record inv (s : state) : Prop := mkInv {
  inv_keys : NoDup (obj_keys (droppedItems s));
  inv_inj : ∀ k1 k2 t,
      obj_get (droppedItems s) k1 = Some t →
      obj_get (droppedItems s) k2 = Some t → k1 = k2;
  inv_disj : ∀ k t, obj_get (droppedItems s) k = Some t → t ∉ dragItems s;
  inv_truthy : ∀ k, k ∈ obj_keys (droppedItems s) → truthy k = true
}.

Lemma truthy_dropId index : truthy (dropId index) = true.
Proof. reflexivity. Qed.

Lemma inv_initial bank : inv (initial bank).
Proof.
  split; simpl.
  - apply NoDup_nil_2.
  - discriminate.
  - discriminate.
  - intros k H. now apply not_elem_of_nil in H.
Qed.

Lemma opt_str_eqb_true x y : opt_str_eqb x y = true ↔ x = Some y.
Proof.
  destruct x as [a|]; simpl; [|split; discriminate].
  rewrite str_eqb_eq. split; congruence.
Qed.

Lemma sourceDropZone_Some dropped t src :
  sourceDropZone dropped t = Some src →
  obj_get dropped src = Some t ∧ src ∈ obj_keys dropped.
Proof.
  unfold sourceDropZone. intros H. apply find_some in H as [Hin H].
  apply opt_str_eqb_true in H. split; [exact H|]. now apply list_elem_of_In.
Qed.

Lemma sourceDropZone_None dropped t k :
  sourceDropZone dropped t = None → obj_get dropped k ≠ Some t.
Proof.
  unfold sourceDropZone. intros H Hk.
  pose proof (find_none _ _ H k) as Hn. cbv beta in Hn.
  rewrite Hk in Hn. simpl in Hn. rewrite str_eqb_refl in Hn.
  assert (In k (obj_keys dropped)) as Hin.
  { apply list_elem_of_In. eapply obj_get_Some_key. exact Hk. }
  specialize (Hn Hin). discriminate.
Qed.

Lemma isFromBank_true bank t : isFromBank bank t = true ↔ t ∈ bank.
Proof.
  unfold isFromBank. rewrite existsb_exists. split.
  - intros (x & Hin & Hx). apply str_eqb_eq in Hx. subst x. now apply list_elem_of_In.
  - intros H. exists t. split; [now apply list_elem_of_In|apply str_eqb_refl].
Qed.

Lemma elem_of_bank_after_place bank fromBank occupant itemId x :
  x ∈ bank_after_place bank fromBank occupant itemId →
  (x ∈ bank ∧ (fromBank = true → x ≠ itemId))
  ∨ (occupant = Some x ∧ truthy x = true).
Proof.
  unfold bank_after_place.
  assert (∀ y, y ∈ (if fromBank
                    then List.filter (fun z => negb (str_eqb z itemId)) bank
                    else bank) →
               y ∈ bank ∧ (fromBank = true → y ≠ itemId)) as Hbase.
  { intros y Hy. destruct fromBank.
    - apply list_elem_of_In, filter_In in Hy as [Hy Hne].
      split; [now apply list_elem_of_In|]. intros _.
      now apply negb_true_iff, str_eqb_neq in Hne.
    - split; [exact Hy|discriminate]. }
  destruct occupant as [o|]; [|intros H; left; now apply Hbase].
  destruct (truthy o) eqn:Ho; [|intros H; left; now apply Hbase].
  intros H. apply elem_of_app in H as [H|H]; [left; now apply Hbase|].
  apply list_elem_of_singleton in H. subst x. now right.
Qed.

Lemma obj_get_dropped_after_place dropped source target itemId k :
  (∀ src, source = Some src → truthy src = true) →
  obj_get (dropped_after_place dropped source target itemId) k =
  if opt_str_eqb source k then None
  else if str_eqb target k then Some itemId
  else obj_get dropped k.
Proof.
  intros Hsrc. unfold dropped_after_place. destruct source as [src|]; simpl.
  - rewrite (Hsrc src eq_refl), obj_get_delete, obj_get_set. reflexivity.
  - apply obj_get_set.
Qed.

(** Moving [itemId] to the zone [target] keeps the invariant. *)
Lemma inv_place s itemId target sel menu :
  inv s → truthy target = true →
  opt_str_eqb (sourceDropZone (droppedItems s) itemId) target = false →
  inv {| droppedItems :=
           dropped_after_place (droppedItems s)
             (sourceDropZone (droppedItems s) itemId) target itemId;
         dragItems :=
           bank_after_place (dragItems s) (isFromBank (dragItems s) itemId)
             (obj_get (droppedItems s) target) itemId;
         selectedId := sel;
         activeDropMenu := menu |}.
Proof.
  intros [Hkeys Hinj Hdisj Htr] Htarget Hne.
  assert (∀ src, sourceDropZone (droppedItems s) itemId = Some src → truthy src = true)
    as Hsrc.
  { intros src H. apply sourceDropZone_Some in H as [_ H]. now apply Htr. }
  assert (∀ k, obj_get (dropped_after_place (droppedItems s)
                 (sourceDropZone (droppedItems s) itemId) target itemId) k = Some itemId →
               k = target) as Hact.
  { intros k. rewrite obj_get_dropped_after_place by exact Hsrc.
    destruct (opt_str_eqb _ k) eqn:E1; [discriminate|].
    destruct (str_eqb target k) eqn:E2; [intros _; symmetry; now apply str_eqb_eq|].
    intros Hk. exfalso.
    destruct (sourceDropZone (droppedItems s) itemId) as [src|] eqn:Es.
    - apply sourceDropZone_Some in Es as [Es _].
      rewrite (Hinj _ _ _ Es Hk) in E1. simpl in E1. now rewrite str_eqb_refl in E1.
    - now apply (sourceDropZone_None _ _ k) in Es. }
  assert (∀ k t, t ≠ itemId →
                 obj_get (dropped_after_place (droppedItems s)
                   (sourceDropZone (droppedItems s) itemId) target itemId) k = Some t →
                 obj_get (droppedItems s) k = Some t ∧ k ≠ target) as Hold.
  { intros k t Ht. rewrite obj_get_dropped_after_place by exact Hsrc.
    destruct (opt_str_eqb _ k); [discriminate|].
    destruct (str_eqb target k) eqn:E2; [congruence|].
    apply str_eqb_neq in E2. intros H. split; [exact H|congruence]. }
  split; cbn [droppedItems dragItems].
  - unfold dropped_after_place.
    destruct (sourceDropZone (droppedItems s) itemId) as [src|] eqn:Es.
    + rewrite (Hsrc src eq_refl).
      now apply obj_keys_delete_NoDup, obj_keys_set_NoDup.
    + now apply obj_keys_set_NoDup.
  - intros k1 k2 t H1 H2. destruct (decide (t = itemId)) as [->|Ht].
    + rewrite (Hact _ H1), (Hact _ H2). reflexivity.
    + apply (Hold _ _ Ht) in H1 as [H1 _]. apply (Hold _ _ Ht) in H2 as [H2 _].
      now apply (Hinj _ _ _ H1 H2).
  - intros k t Hk Hin. apply elem_of_bank_after_place in Hin as [[Hin Hfb]|[Hocc _]].
    + destruct (decide (t = itemId)) as [->|Ht].
      * apply Hfb; [|reflexivity]. now apply isFromBank_true.
      * apply (Hold _ _ Ht) in Hk as [Hk _]. now apply (Hdisj _ _ Hk).
    + destruct (decide (t = itemId)) as [->|Ht].
      * destruct (sourceDropZone (droppedItems s) itemId) as [src|] eqn:Es.
        -- apply sourceDropZone_Some in Es as [Es _].
           rewrite (Hinj _ _ _ Es Hocc) in Hne. simpl in Hne.
           now rewrite str_eqb_refl in Hne.
        -- now apply (sourceDropZone_None _ _ target) in Es.
      * apply (Hold _ _ Ht) in Hk as [Hk Hkt]. apply Hkt.
        now apply (Hinj _ _ _ Hk Hocc).
  - intros k Hk. unfold dropped_after_place in Hk.
    assert (k ∈ obj_keys (obj_set (droppedItems s) target itemId)) as Hk'.
    { destruct (sourceDropZone (droppedItems s) itemId) as [src|]; [|exact Hk].
      destruct (truthy src); [|exact Hk]. now apply obj_keys_delete_elem in Hk. }
    apply obj_keys_set_elem in Hk' as [->|Hk']; [exact Htarget|now apply Htr].
Qed.

(** Returning the item of the zone [k] to the bank keeps the invariant. *)
Lemma inv_unplace s k t sel menu :
  inv s → obj_get (droppedItems s) k = Some t →
  inv {| droppedItems := obj_delete (droppedItems s) k;
         dragItems := dragItems s ++ [t];
         selectedId := sel;
         activeDropMenu := menu |}.
Proof.
  intros [Hkeys Hinj Hdisj Htr] Hk.
  split; cbn [droppedItems dragItems].
  - now apply obj_keys_delete_NoDup.
  - intros k1 k2 x. rewrite !obj_get_delete.
    destruct (str_eqb k k1); [discriminate|].
    destruct (str_eqb k k2); [discriminate|]. apply Hinj.
  - intros k1 x. rewrite obj_get_delete.
    destruct (str_eqb k k1) eqn:E; [discriminate|]. apply str_eqb_neq in E.
    intros H1 Hin. apply elem_of_app in Hin as [Hin|Hin].
    + now apply (Hdisj _ _ H1).
    + apply list_elem_of_singleton in Hin. subst x.
      apply E. now apply (Hinj _ _ _ Hk H1).
  - intros k1 H1. apply Htr. now apply obj_keys_delete_elem in H1.
Qed.

Lemma inv_cells s sel menu :
  inv s →
  inv {| droppedItems := droppedItems s; dragItems := dragItems s;
         selectedId := sel; activeDropMenu := menu |}.
Proof. intros [? ? ? ?]. now split. Qed.

Lemma selected_truthy_Some x a : when_truthy x = Some a → x = Some a ∧ truthy a = true.
Proof.
  destruct x as [b|]; simpl; [|discriminate].
  destruct (truthy b) eqn:E; [|discriminate]. intros [= ->]. now split.
Qed.

Lemma inv_handleDragEnd s activeId over :
  inv s → (∀ target, over = Some target → truthy target = true) →
  inv (handleDragEnd activeId over s).
Proof.
  intros Hs Hover. unfold handleDragEnd. destruct over as [target|].
  - destruct (opt_str_eqb _ target) eqn:E; [exact Hs|].
    apply inv_place; [exact Hs|now apply Hover|exact E].
  - destruct (sourceDropZone (droppedItems s) activeId) as [src|] eqn:Es;
      [|now apply inv_cells].
    apply sourceDropZone_Some in Es as [Es _].
    destruct (truthy src); [|now apply inv_cells].
    now apply inv_unplace.
Qed.

Lemma inv_handleDropZoneClick s submitted zone :
  inv s → truthy zone = true → inv (handleDropZoneClick submitted zone s).
Proof.
  intros Hs Hzone. unfold handleDropZoneClick. destruct submitted; [exact Hs|].
  destruct (when_truthy (selectedId s)) as [sel|].
  - destruct (opt_str_eqb (obj_get (droppedItems s) zone) sel) eqn:E;
      [now apply inv_cells|].
    apply inv_place; [exact Hs|exact Hzone|].
    destruct (sourceDropZone (droppedItems s) sel) as [src|] eqn:Es; [|reflexivity].
    apply sourceDropZone_Some in Es as [Es _]. simpl.
    destruct (str_eqb src zone) eqn:Ez; [|reflexivity].
    apply str_eqb_eq in Ez. subst src. rewrite Es in E. simpl in E.
    now rewrite str_eqb_refl in E.
  - destruct (when_truthy (obj_get (droppedItems s) zone)) as [cur|] eqn:Ec.
    + apply selected_truthy_Some in Ec as [Ec _]. now apply inv_unplace.
    + now apply inv_cells.
Qed.

(** Picking an item of the bank from the menu of a zone keeps the
    invariant. *)
Lemma inv_handleMenuOptionClick s zone itemId :
  inv s → truthy zone = true → itemId ∈ dragItems s →
  inv (handleMenuOptionClick zone itemId s).
Proof.
  intros [Hkeys Hinj Hdisj Htr] Hzone Hbank.
  assert (∀ k, obj_get (droppedItems s) k ≠ Some itemId) as Hfree.
  { intros k Hk. now apply (Hdisj _ _ Hk). }
  unfold handleMenuOptionClick. split; cbn [droppedItems dragItems].
  - now apply obj_keys_set_NoDup.
  - intros k1 k2 t. rewrite !obj_get_set.
    destruct (str_eqb zone k1) eqn:E1, (str_eqb zone k2) eqn:E2.
    + intros _ _. apply str_eqb_eq in E1, E2. congruence.
    + intros [= <-] H2. now apply Hfree in H2.
    + intros H1 [= <-]. now apply Hfree in H1.
    + apply Hinj.
  - intros k t. rewrite obj_get_set. intros Hk Hin.
    apply list_elem_of_In, filter_In in Hin as [Hin Hne].
    apply negb_true_iff, str_eqb_neq in Hne.
    destruct (str_eqb zone k); [congruence|].
    apply (Hdisj _ _ Hk). now apply list_elem_of_In.
  - intros k Hk. apply obj_keys_set_elem in Hk as [->|Hk]; [exact Hzone|now apply Htr].
Qed.

Lemma inv_step s g : inv s → inv (step s g).
Proof.
  intros Hs. destruct g as [submitted [activeId over|itemId|index|index itemId]]; simpl.
  - apply inv_handleDragEnd; [exact Hs|].
    intros target H. destruct over as [i|]; [|discriminate].
    injection H as <-. apply truthy_dropId.
  - unfold handleWordClick. destruct submitted; [exact Hs|now apply inv_cells].
  - apply inv_handleDropZoneClick; [exact Hs|apply truthy_dropId].
  - destruct (menuOffers submitted s (dropId index) itemId) eqn:E; [|exact Hs].
    unfold menuOffers in E. apply andb_true_iff in E as [_ E].
    apply inv_handleMenuOptionClick; [exact Hs|apply truthy_dropId|].
    now apply isFromBank_true.
Qed.

Lemma inv_run gs : ∀ s, inv s → inv (run gs s).
Proof.
  induction gs as [|g gs IH]; intros s Hs; [exact Hs|].
  apply IH. now apply inv_step.
Qed.

(** What a placement onto an occupied zone leaves behind: the zone holds
    the new item, the former occupant is in the bank and in no zone. *)
Definition evicted (s' : state) (zone itemId occupant : string) : Prop :=
  obj_get (droppedItems s') zone = Some itemId
  ∧ occupant ∈ dragItems s'
  ∧ ∀ k, obj_get (droppedItems s') k ≠ Some occupant.

Lemma evicted_place s itemId target occupant sel menu :
  inv s →
  obj_get (droppedItems s) target = Some occupant →
  occupant ≠ itemId → truthy occupant = true →
  evicted {| droppedItems :=
               dropped_after_place (droppedItems s)
                 (sourceDropZone (droppedItems s) itemId) target itemId;
             dragItems :=
               bank_after_place (dragItems s) (isFromBank (dragItems s) itemId)
                 (obj_get (droppedItems s) target) itemId;
             selectedId := sel;
             activeDropMenu := menu |}
          target itemId occupant.
Proof.
  intros Hs Hocc Hne Htr.
  assert (∀ src, sourceDropZone (droppedItems s) itemId = Some src →
                 truthy src = true ∧ src ≠ target) as Hsrc.
  { intros src H. apply sourceDropZone_Some in H as [Hg Hk].
    split; [now apply (inv_truthy s Hs)|]. intros ->. congruence. }
  unfold evicted. cbn [droppedItems dragItems]. split; [|split].
  - rewrite obj_get_dropped_after_place by (intros src H; now apply Hsrc).
    destruct (sourceDropZone (droppedItems s) itemId) as [src|] eqn:Es; simpl.
    + destruct (Hsrc src eq_refl) as [_ Hst].
      apply str_eqb_neq in Hst. now rewrite Hst, str_eqb_refl.
    + now rewrite str_eqb_refl.
  - unfold bank_after_place. rewrite Hocc, Htr.
    apply elem_of_app. right. apply list_elem_of_here.
  - intros k. rewrite obj_get_dropped_after_place by (intros src H; now apply Hsrc).
    destruct (opt_str_eqb _ k); [discriminate|].
    destruct (str_eqb target k) eqn:E; [congruence|].
    apply str_eqb_neq in E. intros Hk. apply E.
    now apply (inv_inj s Hs _ _ _ Hocc Hk).
Qed.

Lemma handleDragEnd_evicts s activeId target occupant :
  inv s →
  obj_get (droppedItems s) target = Some occupant →
  occupant ≠ activeId → truthy occupant = true →
  evicted (handleDragEnd activeId (Some target) s) target activeId occupant.
Proof.
  intros Hs Hocc Hne Htr. unfold handleDragEnd.
  destruct (opt_str_eqb _ target) eqn:E; [|now apply evicted_place].
  apply opt_str_eqb_true, sourceDropZone_Some in E as [E _]. congruence.
Qed.

Lemma handleDropZoneClick_evicts s selected zone occupant :
  inv s →
  selectedId s = Some selected → truthy selected = true →
  obj_get (droppedItems s) zone = Some occupant →
  occupant ≠ selected → truthy occupant = true →
  evicted (handleDropZoneClick false zone s) zone selected occupant.
Proof.
  intros Hs Hsel Htsel Hocc Hne Htr. unfold handleDropZoneClick.
  rewrite Hsel. simpl. rewrite Htsel.
  destruct (opt_str_eqb (obj_get (droppedItems s) zone) selected) eqn:E;
    [|now apply evicted_place].
  apply opt_str_eqb_true in E. congruence.
Qed.

(** After any sequence of drag ends (over a drop zone or over none) and
    clicks (on a word, on a drop zone, on a menu entry), starting with every
    item in the bank and no zone filled: no item id is at once in the bank
    and in a zone; no item id is in two zones; a zone has at most one entry.
    From such a state, dropping an item onto a zone that holds another item,
    or clicking that zone with an item selected, gives in that one
    transition a state where the zone holds the new item and the former
    occupant is in the bank and in no zone. *)
Theorem placement_invariant (bank : list string) (gs : list (bool * event)) :
  let s := run gs (initial bank) in
  (∀ zone t, obj_get (droppedItems s) zone = Some t → t ∉ dragItems s)
  ∧ (∀ zone1 zone2 t,
        obj_get (droppedItems s) zone1 = Some t →
        obj_get (droppedItems s) zone2 = Some t → zone1 = zone2)
  ∧ NoDup (obj_keys (droppedItems s))
  ∧ (∀ index activeId occupant,
        obj_get (droppedItems s) (dropId index) = Some occupant →
        occupant ≠ activeId → truthy occupant = true →
        evicted (step s (false, DragEnd activeId (Some index)))
                (dropId index) activeId occupant)
  ∧ (∀ index selected occupant,
        selectedId s = Some selected → truthy selected = true →
        obj_get (droppedItems s) (dropId index) = Some occupant →
        occupant ≠ selected → truthy occupant = true →
        evicted (step s (false, DropZoneClick index))
                (dropId index) selected occupant).
Proof.
  intros s. assert (inv s) as Hs by apply inv_run, inv_initial.
  split; [|split; [|split; [|split]]].
  - apply (inv_disj s Hs).
  - intros zone1 zone2 t. apply (inv_inj s Hs).
  - apply (inv_keys s Hs).
  - intros index activeId occupant. now apply handleDragEnd_evicts.
  - intros index selected occupant. now apply handleDropZoneClick_evicts.
Qed.

(** Two items; the first is dragged to zone 0, then the second is placed
    on zone 0 by drag, and alternatively by click. *)
Lemma placement_invariant_witness :
  let bank := ["item-0-a"; "item-1-b"] in
  let s := run [(false, DragEnd "item-0-a" (Some 0))] (initial bank) in
  let s1 := run [(false, WordClick "item-1-b")] s in
  evicted (step s (false, DragEnd "item-1-b" (Some 0))) (dropId 0) "item-1-b" "item-0-a"
  ∧ evicted (step s1 (false, DropZoneClick 0)) (dropId 0) "item-1-b" "item-0-a"
  ∧ dragItems (step s1 (false, DropZoneClick 0)) = ["item-0-a"]
  ∧ droppedItems (step s1 (false, DropZoneClick 0)) = [("drop-0", "item-1-b")].
Proof.
  intros bank s s1.
  pose proof (placement_invariant bank [(false, DragEnd "item-0-a" (Some 0))])
    as (_ & _ & _ & Hdrag & _).
  pose proof (placement_invariant bank
                [(false, DragEnd "item-0-a" (Some 0)); (false, WordClick "item-1-b")])
    as (_ & _ & _ & _ & Hclick).
  split; [|split; [|split]].
  - apply (Hdrag 0 "item-1-b" "item-0-a"); [reflexivity|discriminate|reflexivity].
  - apply (Hclick 0 "item-1-b" "item-0-a");
      [reflexivity|reflexivity|reflexivity|discriminate|reflexivity].
  - reflexivity.
  - reflexivity.
Defined.

(** C1.  The three parts of the invariant hold after every sequence of
    gestures ([placement_invariant]), and the placements by drag and by
    click on a zone with a word selected return the former occupant to the
    bank.  The placement by the menu of a zone does not: the menu of zone 0,
    opened while the zone is empty, stays open when item-0-a is dragged
    onto the zone; the click on its entry item-1-b then puts item-1-b in
    the zone, and item-0-a is neither in the bank nor in any zone. *)
Theorem menu_pick_loses_occupant :
  let bank := ["item-0-a"; "item-1-b"] in
  let s := run [(false, DropZoneClick 0); (false, DragEnd "item-0-a" (Some 0))]
               (initial bank) in
  let s' := step s (false, MenuOptionClick 0 "item-1-b") in
  (obj_get (droppedItems s) (dropId 0) = Some "item-0-a"
   ∧ dragItems s = ["item-1-b"]
   ∧ menuOffers false s (dropId 0) "item-1-b" = true)
  ∧ (droppedItems s' = [("drop-0", "item-1-b")]
     ∧ dragItems s' = []
     ∧ ¬ evicted s' (dropId 0) "item-1-b" "item-0-a").
Proof.
  cbv zeta. split; [now vm_compute|].
  split; [now vm_compute|]. split; [now vm_compute|].
  intros (_ & Hbank & _). vm_compute in Hbank. now apply not_elem_of_nil in Hbank.
Qed.

(** *** Facts on the drag-mode verdict *)

Lemma getItemText_find allItems itemId :
  getItemText allItems itemId =
  match List.find (fun i => str_eqb (id i) itemId) allItems with
  | Some i => text i
  | None => EmptyString
  end.
Proof.
  unfold getItemText. destruct (List.find _ allItems) as [i|]; [|reflexivity].
  unfold truthy. destruct (str_eqb (text i) "") eqn:E; [|reflexivity].
  apply str_eqb_eq in E. now rewrite E.
Qed.

(** With pairwise distinct ids, [getItemText] gives the text of the item
    that carries the id. *)
Lemma getItemText_elem allItems i :
  NoDup (map id allItems) → i ∈ allItems → getItemText allItems (id i) = text i.
Proof.
  rewrite getItemText_find. induction allItems as [|j r IH]; intros Hnd Hin.
  - now apply not_elem_of_nil in Hin.
  - simpl in Hnd. apply NoDup_cons in Hnd as [Hj Hr]. simpl.
    destruct (str_eqb (id j) (id i)) eqn:E.
    + apply str_eqb_eq in E. apply elem_of_cons in Hin as [->|Hin]; [reflexivity|].
      exfalso. apply Hj. rewrite E. apply list_elem_of_fmap. now exists i.
    + apply elem_of_cons in Hin as [->|Hin]; [now rewrite str_eqb_refl in E|].
      now apply IH.
Qed.

Lemma every_dropped_iff allItems dropped answers : ∀ idx,
  every_dropped allItems dropped idx answers = true ↔
  ∀ i ans, answers !! i = Some ans →
    ∃ d, obj_get dropped (dropId (idx + i)) = Some d
         ∧ truthy d = true ∧ getItemText allItems d = ans.
Proof.
  induction answers as [|a rest IH]; intros idx.
  - simpl. split; [|reflexivity]. intros _ i ans H. now rewrite lookup_nil in H.
  - cbn [every_dropped]. rewrite andb_true_iff, IH. split.
    + intros [Hhead Hrest] [|i] ans Hi.
      * injection Hi as <-. rewrite Nat.add_0_r.
        apply andb_true_iff in Hhead as [Ht Heq].
        destruct (obj_get dropped (dropId idx)) as [d|]; [|discriminate].
        exists d. apply str_eqb_eq in Heq. now repeat split.
      * rewrite <- Nat.add_succ_comm. now apply Hrest.
    + intros H. split.
      * destruct (H 0 a eq_refl) as (d & Hd & Ht & Heq).
        rewrite Nat.add_0_r in Hd. rewrite Hd. simpl. rewrite Ht. simpl.
        now apply str_eqb_eq.
      * intros i ans Hi. rewrite Nat.add_succ_comm. now apply (H (S i)).
Qed.

(** C10.  In drag mode, with the item ids pairwise distinct and not empty
    and every dropped id the id of an item, [allCorrect] holds if and only
    if the drop zone of every blank is filled and the text of the item in
    it is, as a string, the answer of the blank: no trimming and no case
    folding take part.  A blank whose drop zone is empty makes it false.  In
    input and picker mode [allCorrect] is the verdict of the blank hook. *)
Theorem allCorrect_drag_iff
  (allItems : list item) (dropped : obj) (answers : list string) (inputsAllCorrect : bool)
  (Hdistinct : NoDup (map id allItems))
  (Hnonempty : ∀ i, i ∈ allItems → truthy (id i) = true)
  (Hplaced : ∀ zone d, obj_get dropped zone = Some d → ∃ i, i ∈ allItems ∧ id i = d) :
  (allCorrect Drag inputsAllCorrect allItems dropped answers = true ↔
   ∀ idx ans, answers !! idx = Some ans →
     ∃ i, i ∈ allItems
          ∧ obj_get dropped (dropId idx) = Some (id i)
          ∧ text i = ans)
  ∧ (∀ idx ans, answers !! idx = Some ans →
       obj_get dropped (dropId idx) = None →
       allCorrect Drag inputsAllCorrect allItems dropped answers = false)
  ∧ allCorrect Input inputsAllCorrect allItems dropped answers = inputsAllCorrect
  ∧ allCorrect Picker inputsAllCorrect allItems dropped answers = inputsAllCorrect.
Proof.
  cbn [allCorrect]. rewrite every_dropped_iff. split; [|split; [|now split]].
  - split.
    + intros H idx ans Hi. destruct (H idx ans Hi) as (d & Hd & _ & Heq).
      destruct (Hplaced _ _ Hd) as (i & Hin & <-).
      exists i. split; [exact Hin|]. split; [exact Hd|].
      now rewrite (getItemText_elem allItems i Hdistinct Hin) in Heq.
    + intros H idx ans Hi. destruct (H idx ans Hi) as (i & Hin & Hd & Heq).
      exists (id i). split; [exact Hd|]. split; [now apply Hnonempty|].
      now rewrite (getItemText_elem allItems i Hdistinct Hin).
  - intros idx ans Hi Hnone. apply not_true_is_false. intros H.
    destruct (proj1 (every_dropped_iff allItems dropped answers 0) H idx ans Hi)
      as (d & Hd & _).
    simpl in Hd. congruence.
Qed.

(** The items "Mann" and "mann": the first answers the blank, the second,
    equal up to case, does not; a blank with an empty drop zone fails. *)
Lemma allCorrect_drag_iff_witness :
  let allItems := [mkItem "item-0-a" "Mann"; mkItem "item-1-b" "mann"] in
  allCorrect Drag false allItems [("drop-0", "item-0-a")] ["Mann"] = true
  ∧ allCorrect Drag true allItems [("drop-0", "item-1-b")] ["Mann"] = false
  ∧ allCorrect Drag true allItems [("drop-0", "item-0-a")] ["Mann"; "mann"] = false.
Proof.
  intros allItems.
  assert (NoDup (map id allItems)) as Hd.
  { apply NoDup_cons. split; [|apply NoDup_singleton].
    intros H. apply list_elem_of_singleton in H. discriminate. }
  assert (∀ i, i ∈ allItems → truthy (id i) = true) as Hn.
  { intros i H. apply elem_of_cons in H as [->|H]; [reflexivity|].
    apply list_elem_of_singleton in H. now subst i. }
  split; [|split].
  - apply (allCorrect_drag_iff allItems [("drop-0", "item-0-a")] ["Mann"] false Hd Hn).
    + intros zone d H. simpl in H.
      destruct (str_eqb "drop-0" zone); [|discriminate]. injection H as <-.
      exists (mkItem "item-0-a" "Mann"). split; [apply list_elem_of_here|reflexivity].
    + intros [|idx] ans H; [|discriminate]. injection H as <-.
      exists (mkItem "item-0-a" "Mann").
      split; [apply list_elem_of_here|]. split; reflexivity.
  - reflexivity.
  - apply (allCorrect_drag_iff allItems [("drop-0", "item-0-a")] ["Mann"; "mann"] true Hd Hn)
      with (idx := 1) (ans := "mann"); [|reflexivity|reflexivity].
    intros zone d H. simpl in H.
    destruct (str_eqb "drop-0" zone); [|discriminate]. injection H as <-.
    exists (mkItem "item-0-a" "Mann"). split; [apply list_elem_of_here|reflexivity].
Defined.

End Placement.

(** ** Exercise identity and lesson progress
    (utils/pathUtils, utils/exerciseId, utils/progressStorage) *)

Module Progress.
Import JsString JsNumber.

Local Open Scope Z_scope.

(** *** Identity *)

Section Identity.

(** [import.meta.env.BASE_URL], fixed when the application is built. *)
Variable BASE_URL : string.

(** [normalizePath] *)
Definition normalizePath (path : string) : string :=
  if truthy BASE_URL && startsWith BASE_URL "/" && negb (str_eqb BASE_URL "/")
     && startsWith path BASE_URL
  then
    let relative := substring_from (String.length BASE_URL) path in
    if startsWith relative "/" then relative else "/" +:+ relative
  else path.

(** [str.charCodeAt(i)] *)
Definition charCode (c : ascii) : Z := Z.of_nat (nat_of_ascii c).

(** The body of the loop of [simpleHash]: [hash = ((hash << 5) - hash) +
    char; hash = hash & hash]. *)
Definition hash_step (hash : Z) (c : ascii) : Z :=
  and_self (shl32 hash 5 - hash + charCode c).

Fixpoint hash_loop (hash : Z) (str : string) : Z :=
  match str with
  | EmptyString => hash
  | String c rest => hash_loop (hash_step hash c) rest
  end.

(** [simpleHash]: [Math.abs(hash).toString()] after the loop. *)
Definition simpleHash (str : string) : string := pretty (Z.abs (hash_loop 0 str)).

(** [generateStableExerciseId] *)
Definition generateStableExerciseId (lessonPath exerciseType content : string) : string :=
  let cleanPath := normalizePath lessonPath in
  let hash := simpleHash content in
  cleanPath +:+ ":" +:+ exerciseType +:+ ":" +:+ hash.

(** What a mount of the fill-in-the-blank exercise computes: its exercise
    id, from the path of the lesson and the text of its children, and the
    ids of its item bank, in the order [order] the random comparator of
    [sort] happens to give them. *)
Definition mountFillBlanks (pathname childrenText : string)
  (itemIds : list string) (order : list string → list string) : string * list string :=
  (generateStableExerciseId pathname "FillBlanks" childrenText, order itemIds).

(** The polynomial in 31 over the code units of a string, started at
    [acc]. *)
Fixpoint poly31 (acc : Z) (str : string) : Z :=
  match str with
  | EmptyString => acc
  | String c rest => poly31 (31 * acc + charCode c) rest
  end.

End Identity.

(** *** The ledger *)

(** [interface ExerciseProgress] *)
Record ExerciseProgress := mkExerciseProgress {
  exerciseId : string;
  lessonPath : string;
  completed : bool;
  lastAttempt : option Z
}.

(** [interface LessonProgress]; the three numbers are integers. *)
Record LessonProgress := mkLessonProgress {
  path : string;
  totalExercises : Z;
  completedExercises : Z;
  percentage : Z
}.

(** The map [getAllProgress()] reads from storage: its entries, in
    insertion order. *)
Definition ledger : Type := list (string * ExerciseProgress).

(** [Array.from(progress.values()).filter(p => p.lessonPath === lessonPath
    && p.completed)] *)
Definition lessonExercises (progress : ledger) (queried : string) : list ExerciseProgress :=
  List.filter (fun p => str_eqb (lessonPath p) queried && completed p) (map snd progress).

(** [getLessonProgress], on the ledger read from storage.  [total] is the
    integer the caller passes as [totalExercises]; the length of an array
    and the smaller of two integers are integers.  The quotient and the
    product are binary64 operations, as in the source. *)
Definition getLessonProgress (progress : ledger) (queried : string) (total : Z)
  : LessonProgress :=
  let done := Z.min (Z.of_nat (length (lessonExercises progress queried))) total in
  let percent :=
    if 0 <? total
    then Math_round (mul (div (of_Z done) (of_Z total)) (of_Z 100))
    else 0 in
  {| path := queried;
     totalExercises := total;
     completedExercises := done;
     percentage := percent |}.

(** The number of completed entries of the ledger whose [lessonPath] field
    is the queried path. *)
Fixpoint completed_entries (progress : ledger) (queried : string) : nat :=
  match progress with
  | [] => 0%nat
  | (_, p) :: rest =>
      if completed p then
        if String.eqb (lessonPath p) queried
        then S (completed_entries rest queried)
        else completed_entries rest queried
      else completed_entries rest queried
  end.

(** *** Facts *)

Lemma length_lessonExercises progress queried :
  length (lessonExercises progress queried) = completed_entries progress queried.
Proof.
  unfold lessonExercises. induction progress as [|[k p] rest IH]; [reflexivity|].
  cbn [map snd List.filter completed_entries]. unfold str_eqb in *.
  destruct (completed p), (String.eqb (lessonPath p) queried);
    cbn [andb length]; rewrite ?IH; reflexivity.
Qed.

Lemma hash_step_poly x c :
  hash_step (to_int32 x) c = to_int32 (31 * x + charCode c).
Proof.
  unfold hash_step, shl32. rewrite and_self_int32, to_int32_idem.
  destruct (to_int32_repr x) as [k Hk].
  destruct (to_int32_repr (to_int32 x * 2 ^ 5)) as [k' Hk'].
  rewrite Hk', Hk.
  replace ((x + k * 2 ^ 32) * 2 ^ 5 + k' * 2 ^ 32 - (x + k * 2 ^ 32) + charCode c)
    with (31 * x + charCode c + (31 * k + k') * 2 ^ 32) by lia.
  apply to_int32_add_mul.
Qed.

Lemma hash_loop_poly str : ∀ x, hash_loop (to_int32 x) str = to_int32 (poly31 x str).
Proof.
  induction str as [|c rest IH]; intros x; [reflexivity|].
  cbn [hash_loop poly31]. now rewrite hash_step_poly, IH.
Qed.

Lemma simpleHash_poly str : simpleHash str = pretty (Z.abs (to_int32 (poly31 0 str))).
Proof. unfold simpleHash. now rewrite <- hash_loop_poly. Qed.

Lemma startsWith_app (p r : string) : startsWith (p +:+ r) p = true.
Proof.
  induction p as [|c p IH]; [reflexivity|].
  rewrite str_app_cons. simpl. now rewrite chr_eqb_refl, IH.
Qed.

Lemma substring_from_app (p r : string) : substring_from (String.length p) (p +:+ r) = r.
Proof. induction p as [|c p IH]; [reflexivity|]. now rewrite str_app_cons. Qed.

(** Under a deployment base [/name/], a path below the base is normalized
    to the path it has under the root. *)
Lemma normalizePath_strips_base (name rest : string) :
  startsWith rest "/" = false →
  normalizePath ("/" +:+ name +:+ "/") (("/" +:+ name +:+ "/") +:+ rest) = "/" +:+ rest
  ∧ normalizePath "/" ("/" +:+ rest) = "/" +:+ rest.
Proof.
  intros Hrest. split; [|reflexivity].
  unfold normalizePath. rewrite !startsWith_app, substring_from_app, Hrest.
  assert (str_eqb ("/" +:+ name +:+ "/") "/" = false) as ->.
  { apply str_eqb_neq. destruct name; discriminate. }
  assert (truthy ("/" +:+ name +:+ "/") = true) as -> by reflexivity.
  reflexivity.
Qed.

(** An exercise id holds two colons: it is never the empty string. *)
Lemma generateStableExerciseId_truthy base lessonPath exerciseType content :
  truthy (generateStableExerciseId base lessonPath exerciseType content) = true.
Proof.
  unfold generateStableExerciseId. cbv zeta.
  destruct (normalizePath base lessonPath) as [|c r]; reflexivity.
Qed.

(** [normalizePath] on a path that starts with an absolute base other
    than the root: the base is cut off, and the rest starts with a slash. *)
Lemma normalizePath_below_base (base rel : string) :
  startsWith base "/" = true → base ≠ "/" →
  normalizePath base (base +:+ rel) = if startsWith rel "/" then rel else "/" +:+ rel.
Proof.
  intros Habs Hroot. unfold normalizePath.
  rewrite Habs, startsWith_app, substring_from_app.
  apply str_eqb_neq in Hroot. rewrite Hroot.
  assert (truthy base = true) as ->; [|reflexivity].
  destruct base; [discriminate|reflexivity].
Qed.

(** [normalizePath] where there is nothing to cut off: no base, the root,
    a relative base, or a path that does not start with the base. *)
Lemma normalizePath_unchanged (base path : string) :
  base = EmptyString ∨ base = "/" ∨ startsWith base "/" = false
  ∨ startsWith path base = false →
  normalizePath base path = path.
Proof.
  unfold normalizePath. intros [-> | [-> | [-> | ->]]]; try reflexivity.
  - now rewrite andb_false_r.
  - now rewrite andb_false_r.
Qed.



Example exerciseId_quiz :
  generateStableExerciseId "/telc/" "/telc/A1/Lesson1" "Quiz" "1,3"
  = "/A1/Lesson1:Quiz:48504".
Proof. reflexivity. Qed.

(** *** The percentage, in exact arithmetic

    The specification writes the percentage [round(completed / n * 100)].
    In exact arithmetic, rounding to the nearest integer with a half going
    up (as [Math.round] does), that is the floor of
    [(200 * completed + n) / (2 * n)]. *)
Definition round_half_up (num den : Z) : Z := (2 * num + den) / (2 * den).

Definition exact_percentage (done total : Z) : Z := round_half_up (100 * done) total.

(** [100 * done / total] lies halfway between two integers. *)
Definition is_half (done total : Z) : bool := (200 * done) mod (2 * total) =? total.

(** The percentage as the code computes it, on binary64 numbers. *)
Definition binary64_percentage (done total : Z) : Z :=
  Math_round (mul (div (of_Z done) (of_Z total)) (of_Z 100)).

(** The computed percentage is the exact one, or, at a half, the exact one
    or the integer below it. *)
Definition percentage_agrees (done total : Z) : bool :=
  if is_half done total
  then (binary64_percentage done total =? exact_percentage done total)
       || (binary64_percentage done total =? exact_percentage done total - 1)
  else binary64_percentage done total =? exact_percentage done total.

Definition percentage_agrees_upto (bound : nat) : bool :=
  forallb (fun total =>
             forallb (fun done => percentage_agrees (Z.of_nat done) (Z.of_nat total))
                     (seq 0 (S total)))
          (seq 1 bound).

Lemma percentage_agrees_upto_spec bound :
  percentage_agrees_upto bound = true →
  ∀ done total, 1 ≤ total ≤ Z.of_nat bound → 0 ≤ done ≤ total →
    percentage_agrees done total = true.
Proof.
  unfold percentage_agrees_upto. rewrite forallb_forall.
  intros H done total Ht Hd.
  assert (In (Z.to_nat total) (seq 1 bound)) as Hin by (apply in_seq; lia).
  specialize (H _ Hin). rewrite forallb_forall in H.
  assert (In (Z.to_nat done) (seq 0 (S (Z.to_nat total)))) as Hin' by (apply in_seq; lia).
  specialize (H _ Hin'). now rewrite !Z2Nat.id in H by lia.
Qed.

Lemma percentage_agrees_256 : percentage_agrees_upto 256 = true.
Proof. vm_compute. reflexivity. Qed.

(** Up to 256 exercises the computed percentage is the exact one, but for
    the halves. *)
Lemma binary64_percentage_exact done total :
  1 ≤ total ≤ 256 → 0 ≤ done ≤ total →
  (is_half done total = false →
   binary64_percentage done total = exact_percentage done total)
  ∧ (is_half done total = true →
     binary64_percentage done total = exact_percentage done total
     ∨ binary64_percentage done total = exact_percentage done total - 1).
Proof.
  intros Ht Hd.
  assert (1 ≤ total ≤ Z.of_nat 256) as Ht' by lia.
  pose proof (percentage_agrees_upto_spec 256 percentage_agrees_256 done total Ht' Hd) as H.
  unfold percentage_agrees in H. destruct (is_half done total).
  - split; [discriminate|]. intros _. apply orb_true_iff in H as [H|H];
      apply Z.eqb_eq in H; [now left|now right].
  - split; [|discriminate]. intros _. now apply Z.eqb_eq.
Qed.

Lemma exact_percentage_range done total :
  0 < total → 0 ≤ done ≤ total → 0 ≤ exact_percentage done total ≤ 100.
Proof.
  intros Ht Hd. unfold exact_percentage, round_half_up. split.
  - apply Z.div_pos; lia.
  - assert ((2 * (100 * done) + total) / (2 * total) < 101)
      by (apply Z.div_lt_upper_bound; lia).
    lia.
Qed.

Lemma exact_percentage_half_pos done total :
  0 < total → 0 ≤ done → is_half done total = true → 1 ≤ exact_percentage done total.
Proof.
  unfold is_half, exact_percentage, round_half_up. intros Ht Hd H.
  apply Z.eqb_eq in H. apply Z.div_le_lower_bound; [lia|].
  assert (2 * total ≠ 0) as Hne by lia.
  pose proof (Z.div_mod (200 * done) (2 * total) Hne) as Hdm.
  assert (0 ≤ 200 * done / (2 * total)) by (apply Z.div_pos; lia). nia.
Qed.

Lemma exact_percentage_all total : 0 < total → exact_percentage total total = 100.
Proof.
  intros Ht. unfold exact_percentage, round_half_up.
  replace (2 * (100 * total) + total) with (total + 100 * (2 * total)) by lia.
  rewrite Z.div_add by lia. rewrite Z.div_small by lia. reflexivity.
Qed.

Lemma is_half_all total : 0 < total → is_half total total = false.
Proof.
  intros Ht. unfold is_half. apply Z.eqb_neq.
  replace (200 * total) with (100 * (2 * total)) by lia.
  rewrite Z.mod_mul by lia. lia.
Qed.

(** C2, amended.  For a total [n] of exercises that is a non-negative
    integer, [getLessonProgress] reports as completed the smaller of [n] and
    the number of completed ledger entries whose [lessonPath] is the queried
    path.  The percentage is 0 when [n] is 0.  For [n] from 1 to 256 it is
    [completed / n * 100] rounded to the nearest integer, unless that number
    lies halfway between two integers: then it is the integer above or the
    integer below.  It lies between 0 and 100, and is 100 when every exercise
    is completed.  For every [n > 0] it is [Math.round] of the binary64
    number [completed / n * 100].  With 10 completed entries and [n = 6] the
    function reports 6 completed and 100 percent. *)
Theorem getLessonProgress_capped
  (progress : ledger) (queried : string) (n : Z) (Hn : 0 ≤ n) :
  let r := getLessonProgress progress queried n in
  let done := Z.min n (Z.of_nat (completed_entries progress queried)) in
  completedExercises r = done
  ∧ totalExercises r = n
  ∧ percentage r
    = (if 0 <? n then Math_round (mul (div (of_Z done) (of_Z n)) (of_Z 100)) else 0)
  ∧ 0 ≤ completedExercises r ≤ n
  ∧ (completed_entries progress queried = 10%nat → n = 6 →
     completedExercises r = 6 ∧ percentage r = 100)
  ∧ (n = 0 → percentage r = 0)
  ∧ (1 ≤ n ≤ 256 → is_half done n = false → percentage r = exact_percentage done n)
  ∧ (1 ≤ n ≤ 256 → is_half done n = true →
     percentage r = exact_percentage done n ∨ percentage r = exact_percentage done n - 1)
  ∧ (1 ≤ n ≤ 256 →
     0 ≤ percentage r ≤ 100 ∧ (done = n → percentage r = 100)).
Proof.
  cbv zeta. unfold getLessonProgress. cbn [completedExercises totalExercises percentage].
  rewrite length_lessonExercises, (Z.min_comm _ n).
  set (done := Z.min n (Z.of_nat (completed_entries progress queried))).
  assert (0 ≤ done ≤ n) as Hdone by (unfold done; lia).
  assert (1 ≤ n ≤ 256 →
          (if 0 <? n then Math_round (mul (div (of_Z done) (of_Z n)) (of_Z 100)) else 0)
          = binary64_percentage done n) as Hpercent.
  { intros Hb. destruct (Z.ltb_spec 0 n); [reflexivity|lia]. }
  split; [reflexivity|]. split; [reflexivity|]. split; [reflexivity|].
  split; [lia|]. split; [|split; [|split; [|split]]].
  - intros Hten ->. unfold done. rewrite Hten. split; reflexivity.
  - now intros ->.
  - intros Hb Hhalf. rewrite (Hpercent Hb).
    now apply (binary64_percentage_exact done n Hb Hdone).
  - intros Hb Hhalf. rewrite (Hpercent Hb).
    now apply (binary64_percentage_exact done n Hb Hdone).
  - intros Hb. rewrite (Hpercent Hb).
    destruct (binary64_percentage_exact done n Hb Hdone) as [Hexact Hhalf].
    assert (0 < n) as Hpos by lia.
    pose proof (exact_percentage_range done n Hpos Hdone) as Hrange.
    split.
    + destruct (is_half done n) eqn:E.
      * pose proof (exact_percentage_half_pos done n Hpos (proj1 Hdone) E).
        destruct (Hhalf eq_refl) as [-> | ->]; lia.
      * rewrite (Hexact eq_refl). lia.
    + intros Hall. rewrite Hall in *.
      rewrite (Hexact (is_half_all n Hpos)). now apply exact_percentage_all.
Qed.

(** Ten completed entries of the lesson, one of another lesson and one
    entry not completed, against a total of six. *)
Definition stale_ledger : ledger :=
  map (fun k => (k, mkExerciseProgress k "/A1/Lesson1" true None))
      ["a"; "b"; "c"; "d"; "e"; "f"; "g"; "h"; "i"; "j"]
  ++ [("k", mkExerciseProgress "k" "/A1/Lesson2" true None);
      ("l", mkExerciseProgress "l" "/A1/Lesson1" false None)].

Lemma getLessonProgress_capped_witness :
  completedExercises (getLessonProgress stale_ledger "/A1/Lesson1" 6) = 6
  ∧ percentage (getLessonProgress stale_ledger "/A1/Lesson1" 6) = 100
  ∧ percentage (getLessonProgress stale_ledger "/A1/Lesson1" 12) = 83.
Proof.
  assert (0 ≤ 6) as H6 by lia. assert (0 ≤ 12) as H12 by lia.
  assert (1 ≤ 12 ≤ 256) as Hb by lia.
  destruct (getLessonProgress_capped stale_ledger "/A1/Lesson1" 6 H6)
    as (_ & _ & _ & _ & Hcap & _).
  destruct (getLessonProgress_capped stale_ledger "/A1/Lesson1" 12 H12)
    as (_ & _ & _ & _ & _ & _ & Hnear & _).
  destruct (Hcap eq_refl eq_refl) as [Hdone Hpercent].
  split; [exact Hdone|]. split; [exact Hpercent|].
  exact (Hnear Hb eq_refl).
Defined.

(** The claim as the specification words it, at 23 completed entries of 40:
    [23 / 40 * 100] is 57.5 and rounds to 58; the binary64 quotient is below
    0.575, the product is 57.49999999999999, and the function reports 57. *)
Definition ledger_of (completed : nat) : ledger :=
  map (fun i => (pretty i, mkExerciseProgress (pretty i) "/A1/Lesson1" true None))
      (seq 0 completed).

Lemma getLessonProgress_half_rounds_down :
  let r := getLessonProgress (ledger_of 23) "/A1/Lesson1" 40 in
  completedExercises r = 23
  ∧ exact_percentage (completedExercises r) 40 = 58
  ∧ percentage r = 57
  ∧ percentage r ≠ exact_percentage (completedExercises r) 40.
Proof. cbv zeta. split; [|split; [|split]]; try reflexivity. vm_compute. discriminate. Qed.

(** The quotient and the product round to binary64: 29 of 200 gives the
    number 14.499999999999998, and 14 percent. *)
Example getLessonProgress_binary64 :
  mul (div (of_Z 29) (of_Z 200)) (of_Z 100) = S754_finite false 8162774324609023 (-49)
  ∧ Math_round (mul (div (of_Z 29) (of_Z 200)) (of_Z 100)) = 14.
Proof. split; reflexivity. Qed.

End Progress.

(** ** The multiple-choice validator (Quiz.tsx) *)

Module Quiz.
Import JsString.

(** [answer.split(',').map(s => s.trim())] *)
Definition correctAnswers (answer : string) : list string :=
  map trim (split_on "," answer).

(** [l.includes(x)] on an array of strings *)
Definition includes (l : list string) (x : string) : bool :=
  existsb (fun y => str_eqb y x) l.

(** The check of [handleSubmit]: [selected.length === correctAnswers.length
    && selected.every(s => correctAnswers.includes(s))]. *)
Definition isCorrect (selected : list string) (answer : string) : bool :=
  (length selected =? length (correctAnswers answer))
  && forallb (fun s => includes (correctAnswers answer) s) selected.

(** [isMultiple = multiple || answer.includes(',')] *)
Definition isMultiple (multiple : bool) (answer : string) : bool :=
  multiple || includes_chr "," answer.

(** The cells of the component, and whether it has called
    [markExerciseComplete]. *)
Record state := mkState {
  selected : list string;
  submitted : bool;
  markedComplete : bool
}.

Definition initial : state :=
  {| selected := []; submitted := false; markedComplete := false |}.

Section Handlers.

Variable multiple : bool.
Variable answer : string.
(** [exerciseIdRef.current] *)
Variable exerciseId : string.

(** [handleSelect]: [index] is the position of the option, from 0. *)
Definition handleSelect (index : nat) (s : state) : state :=
  if submitted s then s
  else
    let val := pretty (index + 1) in
    {| selected :=
         if isMultiple multiple answer then
           if includes (selected s) val
           then List.filter (fun v => negb (str_eqb v val)) (selected s)
           else selected s ++ [val]
         else [val];
       submitted := submitted s;
       markedComplete := markedComplete s |}.

Definition handleSubmit (s : state) : state :=
  {| selected := selected s;
     submitted := true;
     markedComplete :=
       if isCorrect (selected s) answer && truthy exerciseId then true
       else markedComplete s |}.

Definition handleReset (s : state) : state :=
  {| selected := []; submitted := false; markedComplete := markedComplete s |}.

Definition handleShowAnswers (s : state) : state :=
  {| selected := correctAnswers answer;
     submitted := true;
     markedComplete := markedComplete s |}.

Inductive event : Type :=
| Select (index : nat)
| Submit
| Reset
| ShowAnswers.

Definition step (s : state) (e : event) : state :=
  match e with
  | Select index => handleSelect index s
  | Submit => handleSubmit s
  | Reset => handleReset s
  | ShowAnswers => handleShowAnswers s
  end.

Definition run (evs : list event) : state := fold_left step evs initial.

End Handlers.

(** *** Facts *)

Lemma includes_true l x : includes l x = true ↔ x ∈ l.
Proof.
  unfold includes. rewrite existsb_exists. split.
  - intros (y & Hin & Hy). apply str_eqb_eq in Hy. subst y. now apply list_elem_of_In.
  - intros H. exists x. split; [now apply list_elem_of_In|apply str_eqb_refl].
Qed.

Lemma isCorrect_true selected answer :
  isCorrect selected answer = true ↔
  length selected = length (correctAnswers answer)
  ∧ ∀ x, x ∈ selected → x ∈ correctAnswers answer.
Proof.
  unfold isCorrect. rewrite andb_true_iff, Nat.eqb_eq, forallb_forall.
  split; intros [Hlen H]; (split; [exact Hlen|]); intros x Hx.
  - apply includes_true, H. now apply list_elem_of_In.
  - apply includes_true, H. now apply list_elem_of_In.
Qed.

(** On a selection without repetition and a key without repetition, the
    check is equality of the two sets. *)
Lemma isCorrect_NoDup selected answer :
  NoDup selected → NoDup (correctAnswers answer) →
  isCorrect selected answer = true ↔
  ∀ x, x ∈ selected ↔ x ∈ correctAnswers answer.
Proof.
  intros Hsel Hkey. rewrite isCorrect_true. split.
  - intros [Hlen Hsub] x.
    assert (selected ≡ₚ correctAnswers answer) as Hperm.
    { apply submseteq_length_Permutation; [now apply NoDup_submseteq|lia]. }
    now rewrite Hperm.
  - intros Heq. split; [|intros x; apply Heq].
    apply Permutation_length. now apply NoDup_Permutation.
Qed.

Lemma isCorrect_key answer : isCorrect (correctAnswers answer) answer = true.
Proof. apply isCorrect_true. now split. Qed.

Lemma NoDup_filter_ne (l : list string) v :
  NoDup l → NoDup (List.filter (fun x => negb (str_eqb x v)) l).
Proof.
  induction l as [|a l IH]; intros H; [exact H|].
  apply NoDup_cons in H as [Ha Hl]. simpl.
  destruct (negb (str_eqb a v)); [|now apply IH].
  apply NoDup_cons. split; [|now apply IH].
  intros Hin. apply Ha. apply list_elem_of_In, filter_In in Hin as [Hin _].
  now apply list_elem_of_In.
Qed.

(** A selection the handlers can produce has no repetition, or is the key
    itself, shown by [handleShowAnswers] on a submitted quiz. *)
Definition reachable_selection (answer : string) (s : state) : Prop :=
  NoDup (selected s) ∨ (submitted s = true ∧ selected s = correctAnswers answer).

Lemma reachable_step multiple answer exerciseId s e :
  reachable_selection answer s →
  reachable_selection answer (step multiple answer exerciseId s e).
Proof.
  intros Hs. destruct e as [index| | |]; simpl.
  - unfold handleSelect. destruct (submitted s) eqn:Esub; [exact Hs|].
    destruct Hs as [Hs|[Hs _]]; [|congruence]. left. cbn [selected].
    destruct (isMultiple multiple answer); [|apply NoDup_singleton].
    destruct (includes (selected s) (pretty (index + 1))) eqn:E.
    + now apply NoDup_filter_ne.
    + apply NoDup_app. split; [exact Hs|]. split; [|apply NoDup_singleton].
      intros x Hx Hv. apply list_elem_of_singleton in Hv. subst x.
      apply includes_true in Hx. congruence.
  - destruct Hs as [Hs|[_ Hs]]; [now left|now right].
  - left. apply NoDup_nil_2.
  - now right.
Qed.

Lemma reachable_run multiple answer exerciseId evs :
  reachable_selection answer (run multiple answer exerciseId evs).
Proof.
  unfold run.
  assert (reachable_selection answer initial) as H0 by (left; apply NoDup_nil_2).
  revert H0. generalize initial.
  induction evs as [|e evs IH]; intros s Hs; [exact Hs|].
  apply IH. now apply reachable_step.
Qed.

(** C7, amended.  For an answer key whose trimmed entries are pairwise
    distinct, and every selection the quiz can reach, the check of
    [handleSubmit] accepts if and only if the selected option numbers and the
    entries of the key are the same set; multi-select is on exactly when the
    [multiple] flag is set or the key holds a comma: a click then toggles
    the option in the selection, where otherwise it replaces the selection. *)
Theorem isCorrect_iff_same_set
  (multiple : bool) (answer exerciseId : string) (evs : list event)
  (Hkey : NoDup (correctAnswers answer)) :
  let s := run multiple answer exerciseId evs in
  (isCorrect (selected s) answer = true ↔
   ∀ x, x ∈ selected s ↔ x ∈ correctAnswers answer)
  ∧ (isMultiple multiple answer = true ↔
     multiple = true ∨ includes_chr "," answer = true)
  ∧ (∀ index, submitted s = false →
       let val := pretty (index + 1) in
       selected (handleSelect multiple answer index s) =
       if isMultiple multiple answer then
         if includes (selected s) val
         then List.filter (fun v => negb (str_eqb v val)) (selected s)
         else selected s ++ [val]
       else [val]).
Proof.
  cbv zeta. split; [|split].
  - destruct (reachable_run multiple answer exerciseId evs) as [Hs|[_ Hs]].
    + now apply isCorrect_NoDup.
    + rewrite Hs. split; [reflexivity|]. intros _. apply isCorrect_key.
  - unfold isMultiple. apply orb_true_iff.
  - intros index Hsub. unfold handleSelect. now rewrite Hsub.
Qed.

(** The key "1,3": options 1 and 3 in either order are accepted, option 1
    alone and options 1, 2, 3 are not. *)
Lemma isCorrect_iff_same_set_witness :
  let quiz := run false "1,3" "/A1/Lesson1:Quiz:48504" in
  selected (quiz [Select 2; Select 0]) = ["3"; "1"]
  ∧ isCorrect (selected (quiz [Select 2; Select 0])) "1,3" = true
  ∧ isCorrect (selected (quiz [Select 0; Select 2])) "1,3" = true
  ∧ isCorrect (selected (quiz [Select 0])) "1,3" = false
  ∧ isCorrect (selected (quiz [Select 0; Select 1; Select 2])) "1,3" = false
  ∧ markedComplete (quiz [Select 2; Select 0; Submit]) = true
  ∧ markedComplete (quiz [Select 0; Submit]) = false.
Proof.
  intros quiz.
  assert (NoDup (correctAnswers "1,3")) as Hkey.
  { apply NoDup_cons. split; [|apply NoDup_singleton].
    intros H. apply list_elem_of_singleton in H. discriminate. }
  split; [reflexivity|]. split.
  - apply (proj1 (isCorrect_iff_same_set false "1,3" "/A1/Lesson1:Quiz:48504"
                    [Select 2; Select 0] Hkey)).
    intros x. change (x ∈ ["3"; "1"] ↔ x ∈ ["1"; "3"]).
    rewrite !elem_of_cons. tauto.
  - repeat split.
Defined.

(** The key "1,1" and the selection of option 1: the two sets are equal,
    the check rejects. *)
Lemma isCorrect_repeated_key :
  let s := run false "1,1" "/A1/Lesson1:Quiz:48504" [Select 0] in
  (∀ x, x ∈ selected s ↔ x ∈ correctAnswers "1,1")
  ∧ isCorrect (selected s) "1,1" = false.
Proof.
  split; [|reflexivity].
  intros x. change (x ∈ ["1"] ↔ x ∈ ["1"; "1"]).
  rewrite !elem_of_cons. tauto.
Qed.

End Quiz.

(** ** The transcript matcher (SpeakingChallenge.tsx) *)

Module Speaking.
Import JsString JsNumber.

(** The class [[.,\/#!$%\^&\*;:{}=\-_`~()]] of [normalize]. *)
Definition is_stripped (c : ascii) : bool :=
  includes_chr c ".,/#!$%^&*;:{}=-_`~()".

(** [s.replace(/[...]/g, "")] for that class *)
Fixpoint strip (s : string) : string :=
  match s with
  | EmptyString => EmptyString
  | String c r => if is_stripped c then strip r else String c (strip r)
  end.

(** [normalize] of [verifySpeech] *)
Definition normalize (s : string) : string := trim (strip (toLowerCase s)).

(** [words = text.split(/\s+/)], then [targetWords = words.map(w =>
    normalize(w))] *)
Definition targetWords (text : string) : list string :=
  map normalize (split_white text).

(** [spokenText.split(/\s+/).map(w => normalize(w)).filter(Boolean)] *)
Definition spokenWords (spokenText : string) : list string :=
  List.filter truthy (map normalize (split_white spokenText)).

(** *** [levenshteinDistance]

    The matrix has a row for every prefix of [b] and a column for every
    prefix of [a]; it is filled row after row, each row from the row above
    it.  [fill_row] gives the entries of columns [j >= 1] of a row: [left] is
    the entry to the left, the head of [above] the entry above it (the
    diagonal entry of the one being filled). *)
Fixpoint fill_row (bc : ascii) (a : list ascii) (above : list nat) (left : nat)
  : list nat :=
  match a, above with
  | ac :: a', diag :: ((up :: _) as above') =>
      let entry :=
        if chr_eqb bc ac then diag
        else Nat.min (diag + 1) (Nat.min (left + 1) (up + 1)) in
      entry :: fill_row bc a' above' entry
  | _, _ => []
  end.

(** Row [i], for the unit [bc = b.charAt(i - 1)]: [matrix[i] = [i]], then
    the inner loop. *)
Definition next_row (i : nat) (bc : ascii) (a : list ascii) (above : list nat)
  : list nat :=
  i :: fill_row bc a above i.

(** The outer loop, from the row [above] of index [i]. *)
Fixpoint rows_from (i : nat) (b a : list ascii) (above : list nat) : list nat :=
  match b with
  | [] => above
  | bc :: b' => rows_from (S i) b' a (next_row (S i) bc a above)
  end.

Definition levenshtein_list (a b : list ascii) : nat :=
  match a, b with
  | [], _ => length b
  | _, [] => length a
  | _, _ => List.last (rows_from 0 b a (seq 0 (S (length a)))) 0%nat
  end.

Definition levenshteinDistance (a b : string) : nat :=
  levenshtein_list (list_ascii_of_string a) (list_ascii_of_string b).

(** *** [verifySpeech] *)

(** [target === spoken || (target.length > 3 && spoken.length > 3 &&
    levenshteinDistance(target, spoken) <= 1)] *)
Definition isMatch (target spoken : string) : bool :=
  str_eqb target spoken
  || ((3 <? String.length target) && (3 <? String.length spoken)
      && (levenshteinDistance target spoken <=? 1)).

(** The look-ahead loop over [offset = 1, 2]: the first offset whose spoken
    word exists and matches.  [spoken] starts at [sIndex]. *)
Definition lookAhead (target : string) (spoken : list string) : option nat :=
  List.find
    (fun offset =>
       match spoken !! offset with
       | Some nextSpoken => isMatch target nextSpoken
       | None => false
       end)
    [1; 2].

(** [set.add(i)] on a set of indices kept in insertion order *)
Definition set_add (set : list nat) (i : nat) : list nat :=
  if existsb (Nat.eqb i) set then set else set ++ [i].

(** The [while] loop.  [targets] are the target words from [tIndex] on,
    [spoken] the spoken words from [sIndex] on; every turn moves [tIndex] by
    one, so the loop ends with the target words. *)
Fixpoint matchLoop (tIndex : nat) (targets spoken : list string) (matched : list nat)
  : list nat :=
  match targets, spoken with
  | target :: targets', sp :: spoken' =>
      if isMatch target sp then
        matchLoop (S tIndex) targets' spoken' (set_add matched tIndex)
      else
        match lookAhead target spoken with
        | Some offset =>
            matchLoop (S tIndex) targets' (drop (offset + 1) spoken)
                      (set_add matched tIndex)
        | None => matchLoop (S tIndex) targets' spoken matched
        end
  | _, _ => matched
  end.

(** [newMatchedIndices] *)
Definition matchedIndices (text spokenText : string) : list nat :=
  matchLoop 0 (targetWords text) (spokenWords spokenText) [].

(** The number written [0.85]: the binary64 number nearest to 85/100. *)
Definition number_0_85 : spec_float := S754_finite false 7656119366529843 (-53).

Inductive status : Type := Idle | Recording | Verifying | Correct | Incorrect.

(** [matchPercentage = newMatchedIndices.size / targetWords.length] *)
Definition matchPercentage (text spokenText : string) : spec_float :=
  div (of_Z (Z.of_nat (length (matchedIndices text spokenText))))
      (of_Z (Z.of_nat (length (targetWords text)))).

(** The status [verifySpeech] leaves: [correct] at 85 percent, else back to
    [recording]. *)
Definition verifySpeech (text spokenText : string) : status :=
  if ge (matchPercentage text spokenText) number_0_85 then Correct else Recording.

(** *** The edit distance, as a recurrence

    The distance of two strings given by their units in reverse order: to
    an empty string it is the length of the other one; two strings with the
    same last unit are as far apart as they are without it; otherwise the
    distance is one more than the least of the distances after a
    substitution (both last units dropped), an insertion (the last unit of
    [a] dropped) and a deletion (the last unit of [b] dropped). *)
Fixpoint distance_rev (rb : list ascii) : list ascii → nat :=
  fix inner (ra : list ascii) : nat :=
    match rb, ra with
    | [], _ => length ra
    | _, [] => length rb
    | y :: rb', x :: ra' =>
        if chr_eqb y x then distance_rev rb' ra'
        else Nat.min (distance_rev rb' ra' + 1)
                     (Nat.min (inner ra' + 1) (distance_rev rb' ra + 1))
    end.

(** The edit distance of [a] and [b]. *)
Definition edit_distance (a b : string) : nat :=
  distance_rev (rev (list_ascii_of_string b)) (rev (list_ascii_of_string a)).

(** The row of the matrix for the prefix of [b] whose reverse is [rb]: the
    distances to the prefixes of [a] that extend the one whose reverse is
    [ra] by the units of [suf], one after the other. *)
Fixpoint row_from (rb ra suf : list ascii) : list nat :=
  distance_rev rb ra ::
  match suf with
  | [] => []
  | ac :: suf' => row_from rb (ac :: ra) suf'
  end.

Lemma distance_rev_nil_l ra : distance_rev [] ra = length ra.
Proof. now destruct ra. Qed.

Lemma distance_rev_nil_r rb : distance_rev rb [] = length rb.
Proof. now destruct rb. Qed.

Lemma distance_rev_cons y rb x ra :
  distance_rev (y :: rb) (x :: ra) =
  if chr_eqb y x then distance_rev rb ra
  else Nat.min (distance_rev rb ra + 1)
               (Nat.min (distance_rev (y :: rb) ra + 1) (distance_rev rb (x :: ra) + 1)).
Proof. reflexivity. Qed.

Lemma row_from_unfold rb ra suf :
  row_from rb ra suf =
  distance_rev rb ra ::
  match suf with
  | [] => []
  | ac :: suf' => row_from rb (ac :: ra) suf'
  end.
Proof. now destruct suf. Qed.

Lemma fill_row_spec bc rb suf : ∀ ra,
  fill_row bc suf (row_from rb ra suf) (distance_rev (bc :: rb) ra)
  = tl (row_from (bc :: rb) ra suf).
Proof.
  induction suf as [|ac suf IH]; intros ra; [reflexivity|].
  rewrite (row_from_unfold rb ra), (row_from_unfold (bc :: rb) ra).
  rewrite (row_from_unfold rb (ac :: ra)), (row_from_unfold (bc :: rb) (ac :: ra)).
  cbn [fill_row tl]. rewrite <- (row_from_unfold rb (ac :: ra)).
  rewrite <- distance_rev_cons. f_equal.
  rewrite IH, (row_from_unfold (bc :: rb) (ac :: ra)). reflexivity.
Qed.

Lemma next_row_spec bc rb a :
  next_row (S (length rb)) bc a (row_from rb [] a) = row_from (bc :: rb) [] a.
Proof.
  unfold next_row.
  change (S (length rb)) with (length (bc :: rb)).
  rewrite <- (distance_rev_nil_r (bc :: rb)), fill_row_spec.
  now rewrite (row_from_unfold (bc :: rb) [] a).
Qed.

Lemma first_row_spec suf : ∀ ra,
  seq (length ra) (S (length suf)) = row_from [] ra suf.
Proof.
  induction suf as [|ac suf IH]; intros ra.
  - simpl. now rewrite distance_rev_nil_l.
  - rewrite row_from_unfold, distance_rev_nil_l, <- IH. reflexivity.
Qed.

Lemma rows_from_spec a b : ∀ rb,
  rows_from (length rb) b a (row_from rb [] a) = row_from (rev b ++ rb) [] a.
Proof.
  induction b as [|bc b IH]; intros rb; [reflexivity|].
  cbn [rows_from]. rewrite next_row_spec.
  change (S (length rb)) with (length (bc :: rb)).
  rewrite IH. simpl. now rewrite <- app_assoc.
Qed.

Lemma last_row_from rb suf : ∀ ra,
  List.last (row_from rb ra suf) 0 = distance_rev rb (rev suf ++ ra).
Proof.
  induction suf as [|ac suf IH]; intros ra; [reflexivity|].
  rewrite row_from_unfold. simpl rev. rewrite <- app_assoc. simpl app.
  rewrite <- IH. rewrite (row_from_unfold rb (ac :: ra)). reflexivity.
Qed.

(** The matrix of [levenshteinDistance] computes the recurrence. *)
Lemma levenshteinDistance_edit_distance a b :
  levenshteinDistance a b = edit_distance a b.
Proof.
  unfold levenshteinDistance, edit_distance, levenshtein_list.
  generalize (list_ascii_of_string a) (list_ascii_of_string b). clear a b.
  intros a b. destruct a as [|ac a].
  - now rewrite distance_rev_nil_r, length_rev.
  - destruct b as [|bc b].
    + now rewrite distance_rev_nil_l, length_rev.
    + pose proof (first_row_spec (ac :: a) []) as Hfirst.
      pose proof (rows_from_spec (ac :: a) (bc :: b) []) as Hrows.
      change (length (@nil ascii)) with 0 in Hfirst, Hrows.
      rewrite Hfirst, Hrows, last_row_from.
      now rewrite !app_nil_r.
Qed.

(** *** Facts on the matcher *)

Lemma isMatch_iff target spoken :
  isMatch target spoken = true ↔
  target = spoken
  ∨ (3 < String.length target ∧ 3 < String.length spoken
     ∧ edit_distance target spoken ≤ 1).
Proof.
  unfold isMatch.
  rewrite orb_true_iff, !andb_true_iff, str_eqb_eq, !Nat.ltb_lt, Nat.leb_le.
  rewrite levenshteinDistance_edit_distance. tauto.
Qed.

(** One turn of the loop, with the look-ahead written out: the target word
    is matched with the current spoken word, or else with the next one, or
    else with the one after it, the spoken words before the matched one being
    skipped; if none of the three matches, the target word is passed over and
    no spoken word is consumed. *)
Lemma matchLoop_turn tIndex target targets sp spoken matched :
  matchLoop tIndex (target :: targets) (sp :: spoken) matched =
  if isMatch target sp then
    matchLoop (S tIndex) targets spoken (set_add matched tIndex)
  else
    match spoken with
    | next1 :: after1 =>
        if isMatch target next1 then
          matchLoop (S tIndex) targets after1 (set_add matched tIndex)
        else
          match after1 with
          | next2 :: after2 =>
              if isMatch target next2 then
                matchLoop (S tIndex) targets after2 (set_add matched tIndex)
              else matchLoop (S tIndex) targets (sp :: spoken) matched
          | [] => matchLoop (S tIndex) targets (sp :: spoken) matched
          end
    | [] => matchLoop (S tIndex) targets (sp :: spoken) matched
    end.
Proof.
  cbn [matchLoop]. destruct (isMatch target sp); [reflexivity|].
  unfold lookAhead. cbn [List.find].
  destruct spoken as [|next1 after1]; [reflexivity|].
  change ((sp :: next1 :: after1) !! 1) with (Some next1).
  destruct (isMatch target next1); [reflexivity|].
  destruct after1 as [|next2 after2]; [reflexivity|].
  change ((sp :: next1 :: next2 :: after2) !! 2) with (Some next2).
  now destruct (isMatch target next2).
Qed.

Lemma matched_add_elem matched i x : x ∈ set_add matched i ↔ x ∈ matched ∨ x = i.
Proof.
  unfold set_add. destruct (existsb (Nat.eqb i) matched) eqn:E.
  - apply existsb_exists in E as (y & Hy & Heq). apply Nat.eqb_eq in Heq. subst y.
    apply list_elem_of_In in Hy. split; [now left|]. now intros [H| ->].
  - rewrite elem_of_app, list_elem_of_singleton. reflexivity.
Qed.

Lemma matched_add_length matched i : length (set_add matched i) ≤ S (length matched).
Proof.
  unfold set_add. destruct (existsb (Nat.eqb i) matched); [lia|].
  rewrite length_app. simpl. lia.
Qed.

Lemma matched_add_NoDup matched i : NoDup matched → NoDup (set_add matched i).
Proof.
  intros H. unfold set_add. destruct (existsb (Nat.eqb i) matched) eqn:E; [exact H|].
  apply NoDup_app. split; [exact H|]. split; [|apply NoDup_singleton].
  intros x Hx Hi. apply list_elem_of_singleton in Hi. subst x.
  assert (existsb (Nat.eqb i) matched = true) as Ht; [|congruence].
  apply existsb_exists. exists i. split; [now apply list_elem_of_In|apply Nat.eqb_refl].
Qed.

Lemma lookAhead_Some target spoken offset :
  lookAhead target spoken = Some offset →
  ∃ s, spoken !! offset = Some s ∧ isMatch target s = true ∧ 1 ≤ offset.
Proof.
  unfold lookAhead. intros H. apply find_some in H as [Hin H].
  destruct (spoken !! offset) as [s|]; [|discriminate].
  exists s. split; [reflexivity|]. split; [exact H|].
  simpl in Hin. lia.
Qed.

(** Every index the loop adds is the index of a target word that matches
    some spoken word. *)
Lemma matchLoop_sound targets : ∀ tIndex spoken matched i,
  i ∈ matchLoop tIndex targets spoken matched →
  i ∈ matched
  ∨ ∃ t s, tIndex ≤ i ∧ targets !! (i - tIndex) = Some t
           ∧ s ∈ spoken ∧ isMatch t s = true.
Proof.
  induction targets as [|target targets IH]; intros tIndex spoken matched i;
    [now left|].
  destruct spoken as [|sp spoken]; [now left|]. cbn [matchLoop].
  assert (∀ spoken' matched',
             (∀ s, s ∈ spoken' → s ∈ sp :: spoken) →
             (∀ x, x ∈ matched' → x ∈ matched
                   ∨ (x = tIndex ∧ ∃ s, s ∈ sp :: spoken ∧ isMatch target s = true)) →
             i ∈ matchLoop (S tIndex) targets spoken' matched' →
             i ∈ matched
             ∨ ∃ t s, tIndex ≤ i ∧ (target :: targets) !! (i - tIndex) = Some t
                      ∧ s ∈ sp :: spoken ∧ isMatch t s = true) as Hnext.
  { intros spoken' matched' Hsp Hm Hi.
    apply IH in Hi as [Hi|(t & s & Hle & Ht & Hs & Hmatch)].
    - apply Hm in Hi as [Hi|(-> & s & Hs & Hmatch)]; [now left|].
      right. exists target, s. rewrite Nat.sub_diag. now repeat split.
    - right. exists t, s. split; [lia|].
      replace (i - tIndex) with (S (i - S tIndex)) by lia.
      split; [exact Ht|]. split; [now apply Hsp|exact Hmatch]. }
  destruct (isMatch target sp) eqn:E.
  - apply Hnext.
    + intros s Hs. now apply list_elem_of_further.
    + intros x Hx. apply matched_add_elem in Hx as [Hx| ->]; [now left|].
      right. split; [reflexivity|]. exists sp. split; [apply list_elem_of_here|exact E].
  - destruct (lookAhead target (sp :: spoken)) as [offset|] eqn:El.
    + apply lookAhead_Some in El as (s & Hs & Hmatch & _). apply Hnext.
      * intros s' Hs'. apply list_elem_of_lookup_1 in Hs' as [k Hk].
        rewrite lookup_drop in Hk. eapply list_elem_of_lookup_2. exact Hk.
      * intros x Hx. apply matched_add_elem in Hx as [Hx| ->]; [now left|].
        right. split; [reflexivity|]. exists s. split; [|exact Hmatch].
        eapply list_elem_of_lookup_2. exact Hs.
    + apply Hnext; [trivial|]. intros x Hx. now left.
Qed.

(** The loop adds at most one index per target word and per spoken word. *)
Lemma matchLoop_length targets : ∀ tIndex spoken matched,
  length (matchLoop tIndex targets spoken matched)
  ≤ length matched + Nat.min (length targets) (length spoken).
Proof.
  induction targets as [|target targets IH]; intros tIndex spoken matched;
    [simpl; lia|].
  destruct spoken as [|sp spoken]; [simpl; lia|]. cbn [matchLoop].
  destruct (isMatch target sp).
  - specialize (IH (S tIndex) spoken (set_add matched tIndex)).
    pose proof (matched_add_length matched tIndex). simpl. lia.
  - destruct (lookAhead target (sp :: spoken)) as [offset|] eqn:El.
    + apply lookAhead_Some in El as (s & Hs & _ & Hoff).
      apply lookup_lt_Some in Hs.
      specialize (IH (S tIndex) (drop (offset + 1) (sp :: spoken))
                     (set_add matched tIndex)).
      pose proof (matched_add_length matched tIndex).
      rewrite length_drop in IH. simpl in *. lia.
    + specialize (IH (S tIndex) (sp :: spoken) matched). simpl in *. lia.
Qed.

Lemma matchLoop_NoDup targets : ∀ tIndex spoken matched,
  NoDup matched → NoDup (matchLoop tIndex targets spoken matched).
Proof.
  induction targets as [|target targets IH]; intros tIndex spoken matched H;
    [exact H|].
  destruct spoken as [|sp spoken]; [exact H|]. cbn [matchLoop].
  destruct (isMatch target sp); [now apply IH, matched_add_NoDup|].
  destruct (lookAhead target (sp :: spoken)); [now apply IH, matched_add_NoDup|].
  now apply IH.
Qed.

Lemma split_white_aux_length gap s : 1 ≤ length (split_white_aux gap s).
Proof.
  revert gap. induction s as [|c r IH]; intros gap; simpl; [lia|].
  destruct (is_white c).
  - destruct gap; [apply IH|simpl; lia].
  - specialize (IH false). destruct (split_white_aux false r); simpl in *; lia.
Qed.

(** [split] gives at least one piece: there is always a target word. *)
Lemma targetWords_length text : 1 ≤ length (targetWords text).
Proof. unfold targetWords. rewrite length_map. apply split_white_aux_length. Qed.

(** *** The threshold *)

(** The binary64 test [matched / total >= 0.85]. *)
Definition reaches_threshold (matched total : nat) : bool :=
  ge (div (of_Z (Z.of_nat matched)) (of_Z (Z.of_nat total))) number_0_85.

(** The test in exact arithmetic: [matched / total >= 85 / 100]. *)
Definition reaches_85_percent (matched total : nat) : bool :=
  17 * total <=? 20 * matched.

Definition threshold_agrees_upto (bound : nat) : bool :=
  forallb (fun total =>
             forallb (fun matched =>
                        Bool.eqb (reaches_threshold matched total)
                                 (reaches_85_percent matched total))
                     (seq 0 (S total)))
          (seq 1 bound).

Lemma threshold_agrees_upto_spec bound :
  threshold_agrees_upto bound = true →
  ∀ matched total, 1 ≤ total ≤ bound → matched ≤ total →
    reaches_threshold matched total = reaches_85_percent matched total.
Proof.
  unfold threshold_agrees_upto. rewrite forallb_forall.
  intros H matched total Ht Hm. specialize (H total).
  rewrite forallb_forall in H. apply eqb_prop, H; apply in_seq; lia.
Qed.

Lemma threshold_agrees_128 : threshold_agrees_upto 128 = true.
Proof. vm_compute. reflexivity. Qed.

(** Up to 128 target words the binary64 test is the exact one. *)
Lemma reaches_threshold_exact matched total :
  1 ≤ total ≤ 128 → matched ≤ total →
  reaches_threshold matched total = reaches_85_percent matched total.
Proof. exact (threshold_agrees_upto_spec 128 threshold_agrees_128 matched total). Qed.

(** *** The punctuation class, unit by unit *)

(** The units of the class of [normalize]. *)
Definition stripped_units : list ascii :=
  [ "."; ","; "/"; "#"; "!"; "$"; "%"; "^"; "&"; "*"; ";"; ":"; "{"; "}"; "=";
    "-"; "_"; "`"; "~"; "("; ")" ]%char.

Lemma is_stripped_iff c : is_stripped c = true ↔ c ∈ stripped_units.
Proof.
  assert (is_stripped c = existsb (fun u => chr_eqb u c) stripped_units) as ->
    by reflexivity.
  rewrite existsb_exists. split.
  - intros (u & Hin & Hu). apply chr_eqb_eq in Hu. subst u. now apply list_elem_of_In.
  - intros Hin. exists c. split; [now apply list_elem_of_In|apply chr_eqb_refl].
Qed.

(** [strip] keeps, in their order, the units that are not of the class. *)
Lemma strip_filter s :
  list_ascii_of_string (strip s)
  = List.filter (fun c => negb (is_stripped c)) (list_ascii_of_string s).
Proof.
  induction s as [|c s IH]; [reflexivity|]. simpl.
  destruct (is_stripped c); simpl; now rewrite IH.
Qed.

Lemma spokenWords_truthy spokenText w : w ∈ spokenWords spokenText → w ≠ EmptyString.
Proof.
  unfold spokenWords. intros H. apply list_elem_of_In, filter_In in H as [_ H].
  intros ->. discriminate.
Qed.

Lemma isMatch_empty_target word : isMatch EmptyString word = true → word = EmptyString.
Proof.
  unfold isMatch. simpl. rewrite orb_false_r. intros H.
  apply str_eqb_eq in H. now subst.
Qed.

(** *** The matcher in the words of the specification

    "Normalize both target and recognized text (lowercase, strip
    punctuation), tokenize on whitespace": every punctuation mark is
    removed from the lower-cased text, and the words are what is left
    between the white space.  The alignment is the one of the code, the
    threshold is 85 percent in exact arithmetic. *)
Definition is_punctuation (c : ascii) : bool :=
  let n := nat_of_ascii c in
  ((33 <=? n) && (n <=? 47)) || ((58 <=? n) && (n <=? 64))
  || ((91 <=? n) && (n <=? 96)) || ((123 <=? n) && (n <=? 126)).

Fixpoint strip_punctuation (s : string) : string :=
  match s with
  | EmptyString => EmptyString
  | String c r => if is_punctuation c then strip_punctuation r else String c (strip_punctuation r)
  end.

Definition words_as_specified (text : string) : list string :=
  List.filter truthy (split_white (strip_punctuation (toLowerCase text))).

Definition verifySpeech_as_specified (text spokenText : string) : status :=
  let targets := words_as_specified text in
  let matched := matchLoop 0 targets (words_as_specified spokenText) [] in
  if reaches_85_percent (length matched) (length targets) then Correct else Recording.




(** A piece that is punctuation only normalizes to the empty word: it
    counts as a target word, and no spoken word matches it. *)
Example verifySpeech_punctuation_piece :
  targetWords "Hallo - Welt" = ["hallo"; ""; "welt"]
  ∧ matchedIndices "Hallo - Welt" "hallo welt" = [0; 2]
  ∧ verifySpeech "Hallo - Welt" "hallo welt" = Recording.
Proof. repeat split. Qed.

Example levenshteinDistance_examples :
  levenshteinDistance "kitten" "sitting" = 3
  ∧ levenshteinDistance "hallo" "hello" = 1
  ∧ isMatch "hallo" "hello" = true
  ∧ isMatch "der" "dir" = false.
Proof. repeat split. Qed.

End Speaking.

(** ** The checkpointed media controller (InteractiveMedia) *)

Module Media.
Import JsString JsNumber.

Section Controller.

(** The content of a checkpoint, a React node. *)
Variable content : Type.

(** An element of [checkpoints]: [{ time, content }]. *)
Record checkpoint := mkCheckpoint {
  time : spec_float;
  body : content
}.

(** [checkpoints]: the [Checkpoint] children with their times parsed, after
    the [sort]; the same array at every render. *)
Variable checkpoints : list checkpoint.

(** [exerciseIdRef.current], set by the first effect of the mount. *)
Variable exerciseId : string.

(** [completedCheckpoints], a [Set] of numbers: its elements in insertion
    order. *)
Definition has (set : list spec_float) (x : spec_float) : bool :=
  existsb (fun y => same_value_zero y x) set.

(** [new Set(prev).add(x)] *)
Definition set_add (set : list spec_float) (x : spec_float) : list spec_float :=
  if has set x then set else set ++ [x].

(** The cells the controller reads and writes.  The active checkpoint is an
    element of [checkpoints]: it is kept with its index in the array.
    [seeking] is the ref of that name, [markedComplete] tells whether
    [markExerciseComplete] has been called. *)
Record state := mkState {
  isPlaying : bool;
  currentTime : spec_float;
  activeCheckpoint : option (nat * checkpoint);
  completedCheckpoints : list spec_float;
  hasEnded : bool;
  seeking : bool;
  markedComplete : bool
}.

Definition initial : state :=
  {| isPlaying := false;
     currentTime := of_Z 0;
     activeCheckpoint := None;
     completedCheckpoints := [];
     hasEnded := false;
     seeking := false;
     markedComplete := false |}.

(** The predicate of [checkCheckpoints]: [time >= cp.time && time <
    cp.time + 1 && !completedCheckpoints.has(cp.time)]. *)
Definition hits (completed : list spec_float) (t : spec_float) (cp : checkpoint) : bool :=
  ge t (time cp) && lt t (add (time cp) (of_Z 1)) && negb (has completed (time cp)).

(** [array.find(p)], with the index of the element found. *)
Fixpoint find_from {A} (p : A → bool) (i : nat) (l : list A) : option (nat * A) :=
  match l with
  | [] => None
  | x :: r => if p x then Some (i, x) else find_from p (S i) r
  end.

(** [checkCheckpoints], called by a handler that closes over the cells
    [closure] of its render: the completed set read is the one of [closure],
    the two updates go to the pending state [s]. *)
Definition checkCheckpoints (closure : state) (t : spec_float) (s : state) : state :=
  match find_from (hits (completedCheckpoints closure) t) 0 checkpoints with
  | Some hitCheckpoint =>
      {| isPlaying := false;
         currentTime := currentTime s;
         activeCheckpoint := Some hitCheckpoint;
         completedCheckpoints := completedCheckpoints s;
         hasEnded := hasEnded s;
         seeking := seeking s;
         markedComplete := markedComplete s |}
  | None => s
  end.

Definition setCurrentTime (t : spec_float) (s : state) : state :=
  {| isPlaying := isPlaying s;
     currentTime := t;
     activeCheckpoint := activeCheckpoint s;
     completedCheckpoints := completedCheckpoints s;
     hasEnded := hasEnded s;
     seeking := seeking s;
     markedComplete := markedComplete s |}.

Definition setIsPlaying (b : bool) (s : state) : state :=
  {| isPlaying := b;
     currentTime := currentTime s;
     activeCheckpoint := activeCheckpoint s;
     completedCheckpoints := completedCheckpoints s;
     hasEnded := hasEnded s;
     seeking := seeking s;
     markedComplete := markedComplete s |}.

Definition setSeeking (b : bool) (s : state) : state :=
  {| isPlaying := isPlaying s;
     currentTime := currentTime s;
     activeCheckpoint := activeCheckpoint s;
     completedCheckpoints := completedCheckpoints s;
     hasEnded := hasEnded s;
     seeking := b;
     markedComplete := markedComplete s |}.

(** [handleProgress], called in a handler that closes over [closure]. *)
Definition handleProgress (closure : state) (playedSeconds : spec_float) (s : state)
  : state :=
  if seeking closure then s
  else if negb (isFinite playedSeconds) then s
  else checkCheckpoints closure playedSeconds (setCurrentTime playedSeconds s).

(** [onTimeUpdate] of the video player *)
Definition videoTimeUpdate (t : spec_float) (s : state) : state :=
  if negb (seeking s) then checkCheckpoints s t (setCurrentTime t s) else s.

(** [onTimeUpdate] of the audio element: the time is stored and checked,
    then [handleProgress] runs on it, in the same render. *)
Definition audioTimeUpdate (t : spec_float) (s : state) : state :=
  handleProgress s t (checkCheckpoints s t (setCurrentTime t s)).

(** [onEnded] *)
Definition handleEnded (s : state) : state :=
  {| isPlaying := false;
     currentTime := currentTime s;
     activeCheckpoint := activeCheckpoint s;
     completedCheckpoints := completedCheckpoints s;
     hasEnded := true;
     seeking := seeking s;
     markedComplete := markedComplete s |}.

(** [handleContinue] *)
Definition handleContinue (s : state) : state :=
  match activeCheckpoint s with
  | Some (_, cp) =>
      {| isPlaying := true;
         currentTime := currentTime s;
         activeCheckpoint := None;
         completedCheckpoints := set_add (completedCheckpoints s) (time cp);
         hasEnded := hasEnded s;
         seeking := seeking s;
         markedComplete := markedComplete s |}
  | None => s
  end.

(** [checkpoints.findIndex(cp => cp.time === x)]; [None] is [-1]. *)
Definition findIndex_time (x : spec_float) : option nat :=
  option_map fst (find_from (fun cp => eq (time cp) x) 0 checkpoints).

(** The number written [1.1]. *)
Definition number_1_1 : spec_float := div (of_Z 11) (of_Z 10).

(** [handleReplay] *)
Definition handleReplay (s : state) : state :=
  match activeCheckpoint s with
  | None => s
  | Some (_, active) =>
      let targetTime :=
        match findIndex_time (time active) with
        | Some (S before) =>
            match checkpoints !! before with
            | Some previous => add (time previous) number_1_1
            | None => of_Z 0
            end
        | _ => of_Z 0
        end in
      let targetTime :=
        if ge targetTime (time active)
        then Math_max (of_Z 0) (sub (time active) (of_Z 5))
        else targetTime in
      {| isPlaying := true;
         currentTime := targetTime;
         activeCheckpoint := None;
         completedCheckpoints := completedCheckpoints s;
         hasEnded := hasEnded s;
         seeking := seeking s;
         markedComplete := markedComplete s |}
  end.

(** The completion effect: it runs after a render in which [hasEnded] or
    [completedCheckpoints] has changed, and marks the exercise complete when
    playback has ended and the set has as many elements as there are
    checkpoints. *)
Definition completionEffect (s : state) : state :=
  let allCheckpointsCompleted :=
    length (completedCheckpoints s) =? length checkpoints in
  if hasEnded s && allCheckpointsCompleted && truthy exerciseId then
    {| isPlaying := isPlaying s;
       currentTime := currentTime s;
       activeCheckpoint := activeCheckpoint s;
       completedCheckpoints := completedCheckpoints s;
       hasEnded := hasEnded s;
       seeking := seeking s;
       markedComplete := true |}
  else s.

(** What the player and the learner do. *)
Inductive event : Type :=
| Progress (playedSeconds : spec_float)
| VideoTimeUpdate (t : spec_float)
| AudioTimeUpdate (t : spec_float)
| Ended
| Continue
| Replay
| TogglePlay
| Play
| Pause
| SeekMouseDown
| SeekChange (t : spec_float)
| SeekMouseUp
| Restart.

Definition handle (e : event) (s : state) : state :=
  match e with
  | Progress playedSeconds => handleProgress s playedSeconds s
  | VideoTimeUpdate t => videoTimeUpdate t s
  | AudioTimeUpdate t => audioTimeUpdate t s
  | Ended => handleEnded s
  | Continue => handleContinue s
  | Replay => handleReplay s
  | TogglePlay => setIsPlaying (negb (isPlaying s)) s
  | Play => setIsPlaying true s
  | Pause => setIsPlaying false s
  | SeekMouseDown => setSeeking true s
  | SeekChange t => setCurrentTime t s
  | SeekMouseUp => setSeeking false s
  | Restart => setCurrentTime (of_Z 0) s
  end.

(** One event: the handler, the render, then the effect. *)
Definition step (s : state) (e : event) : state := completionEffect (handle e s).

Definition run (evs : list event) (s : state) : state := fold_left step evs s.

(** The checkpoints the learner has continued from: the indices of the
    checkpoints that were active when a [Continue] was handled, along the
    events [evs] from the state [s]. *)
Fixpoint continued (s : state) (evs : list event) : list nat :=
  match evs with
  | [] => []
  | e :: rest =>
      match e, activeCheckpoint s with
      | Continue, Some (i, _) => i :: continued (step s e) rest
      | _, _ => continued (step s e) rest
      end
  end.

(** *** Facts on the completed set *)

Lemma has_true set x : has set x = true ↔ ∃ y, y ∈ set ∧ key y = key x.
Proof.
  unfold has. rewrite existsb_exists. split.
  - intros (y & Hin & Hy). exists y. split; [now apply list_elem_of_In|].
    now apply same_value_zero_key.
  - intros (y & Hin & Hy). exists y. split; [now apply list_elem_of_In|].
    now apply same_value_zero_key.
Qed.

Lemma has_key set x : has set x = true ↔ key x ∈ map key set.
Proof.
  rewrite has_true, list_elem_of_fmap. split.
  - intros (y & Hin & Hy). eauto.
  - intros (y & Hy & Hin). eauto.
Qed.

Lemma has_key_proper set x x' : key x = key x' → has set x = has set x'.
Proof.
  intros H. apply eq_true_iff_eq. rewrite !has_key. now rewrite H.
Qed.

Lemma completed_add_elem set x y : y ∈ set_add set x → y ∈ set ∨ y = x.
Proof.
  unfold set_add. destruct (has set x); [now left|].
  intros H. apply elem_of_app in H as [H|H]; [now left|].
  apply list_elem_of_singleton in H. now right.
Qed.

Lemma completed_add_has set x : has (set_add set x) x = true.
Proof.
  unfold set_add. destruct (has set x) eqn:E; [exact E|].
  apply has_true. exists x. split; [|reflexivity].
  apply elem_of_app. right. apply list_elem_of_here.
Qed.

Lemma completed_add_has_mono set x y : has set y = true → has (set_add set x) y = true.
Proof.
  rewrite !has_true. intros (z & Hin & Hz). exists z. split; [|exact Hz].
  unfold set_add. destruct (has set x); [exact Hin|].
  apply elem_of_app. now left.
Qed.

Lemma completed_add_NoDup set x : NoDup (map key set) → NoDup (map key (set_add set x)).
Proof.
  intros H. unfold set_add. destruct (has set x) eqn:E; [exact H|].
  rewrite map_app. apply NoDup_app. split; [exact H|]. split.
  - intros k Hk Hx. simpl in Hx. apply list_elem_of_singleton in Hx. subst k.
    apply has_key in Hk. congruence.
  - apply NoDup_singleton.
Qed.

Lemma completed_add_length set x : length set ≤ length (set_add set x).
Proof.
  unfold set_add. destruct (has set x); [lia|]. rewrite length_app. lia.
Qed.

(** *** Facts on [find] *)

Lemma find_from_Some {A} (p : A → bool) (l : list A) : ∀ i0 i x,
  find_from p i0 l = Some (i, x) →
  i0 ≤ i ∧ l !! (i - i0) = Some x ∧ p x = true
  ∧ ∀ j y, j < i - i0 → l !! j = Some y → p y = false.
Proof.
  induction l as [|a l IH]; intros i0 i x; simpl; [discriminate|].
  destruct (p a) eqn:E.
  - intros [= <- <-]. rewrite Nat.sub_diag. repeat split; [lia|exact E|].
    intros j y Hj. lia.
  - intros H. apply IH in H as (Hle & Hx & Hp & Hbefore).
    split; [lia|]. replace (i - i0) with (S (i - S i0)) by lia.
    split; [exact Hx|]. split; [exact Hp|].
    intros [|j] y Hj Hy.
    + injection Hy as <-. exact E.
    + apply (Hbefore j y); [lia|exact Hy].
Qed.

(** Two checkpoints whose times [SameValueZero] identifies are hit by the
    same times. *)
Lemma hits_key_proper completed t cp cp' :
  key (time cp) = key (time cp') → hits completed t cp = hits completed t cp'.
Proof.
  intros H. unfold hits. rewrite (has_key_proper completed _ _ H).
  destruct (key_eq_cases _ _ H) as [-> | (s & s' & -> & ->)]; [reflexivity|].
  now rewrite (ge_zero_sign s s' t), !add_zero_one.
Qed.

(** *** The invariant of the controller *)

(** No earlier checkpoint has the time of checkpoint [i], up to
    [SameValueZero]. *)
Definition first_of_its_time (i : nat) : Prop :=
  ∀ j cpj cpi, j < i → checkpoints !! j = Some cpj → checkpoints !! i = Some cpi →
               key (time cpj) ≠ key (time cpi).

(** [done] lists the checkpoints continued from so far. *)
Record inv (s : state) (done : list nat) : Prop := mkInv {
  inv_set : NoDup (map key (completedCheckpoints s));
  inv_completed : ∀ t, t ∈ completedCheckpoints s →
      ∃ i cp, i ∈ done ∧ checkpoints !! i = Some cp ∧ key (time cp) = key t;
  inv_done : ∀ i, i ∈ done →
      ∃ cp, checkpoints !! i = Some cp
            ∧ has (completedCheckpoints s) (time cp) = true
            ∧ first_of_its_time i;
  inv_active : ∀ i cp, activeCheckpoint s = Some (i, cp) →
      checkpoints !! i = Some cp ∧ first_of_its_time i
}.

Lemma controller_inv_initial : inv initial [].
Proof.
  split; simpl.
  - apply NoDup_nil_2.
  - intros t H. now apply not_elem_of_nil in H.
  - intros i H. now apply not_elem_of_nil in H.
  - discriminate.
Qed.

(** The cells the invariant reads. *)
Lemma controller_inv_cells s s' done :
  completedCheckpoints s' = completedCheckpoints s →
  activeCheckpoint s' = activeCheckpoint s ∨ activeCheckpoint s' = None →
  inv s done → inv s' done.
Proof.
  intros Hc Ha [H1 H2 H3 H4]. split; rewrite ?Hc; try assumption.
  intros i cp Hi. destruct Ha as [Ha|Ha]; rewrite Ha in Hi; [now apply H4|discriminate].
Qed.

Lemma inv_checkCheckpoints closure t s done :
  inv s done → inv (checkCheckpoints closure t s) done.
Proof.
  intros Hs. unfold checkCheckpoints.
  destruct (find_from _ 0 checkpoints) as [[i cp]|] eqn:E; [|exact Hs].
  apply find_from_Some in E as (_ & Hcp & Hhit & Hbefore).
  rewrite Nat.sub_0_r in Hcp, Hbefore.
  destruct Hs as [H1 H2 H3 H4]. split; cbn [completedCheckpoints activeCheckpoint];
    try assumption.
  intros i' cp' [= <- <-]. split; [exact Hcp|].
  intros j cpj cpi Hj Hcpj Hcpi Hkey.
  rewrite Hcp in Hcpi. injection Hcpi as <-.
  rewrite <- (hits_key_proper _ t cpj cp Hkey) in Hhit.
  rewrite (Hbefore j cpj Hj Hcpj) in Hhit. discriminate.
Qed.

Lemma inv_handleProgress closure t s done :
  inv s done → inv (handleProgress closure t s) done.
Proof.
  intros Hs. unfold handleProgress.
  destruct (seeking closure); [exact Hs|].
  destruct (negb (isFinite t)); [exact Hs|].
  apply inv_checkCheckpoints. revert Hs. apply controller_inv_cells; [reflexivity|now left].
Qed.

Lemma inv_handleContinue s done :
  inv s done →
  inv (handleContinue s)
      (match activeCheckpoint s with Some (i, _) => i :: done | None => done end).
Proof.
  intros Hs. unfold handleContinue.
  destruct (activeCheckpoint s) as [[i cp]|] eqn:E; [|exact Hs].
  destruct Hs as [H1 H2 H3 H4]. destruct (H4 i cp E) as [Hcp Hfirst].
  split; cbn [completedCheckpoints activeCheckpoint].
  - now apply completed_add_NoDup.
  - intros t Ht. apply completed_add_elem in Ht as [Ht| ->].
    + destruct (H2 t Ht) as (j & cpj & Hj & Hcpj & Hkey).
      exists j, cpj. split; [now apply list_elem_of_further|now split].
    + exists i, cp. split; [apply list_elem_of_here|now split].
  - intros j Hj. apply elem_of_cons in Hj as [->|Hj].
    + exists cp. split; [exact Hcp|]. split; [apply completed_add_has|exact Hfirst].
    + destruct (H3 j Hj) as (cpj & Hcpj & Hhas & Hf).
      exists cpj. split; [exact Hcpj|]. split; [now apply completed_add_has_mono|exact Hf].
  - discriminate.
Qed.

Lemma inv_handle_other e s done :
  e ≠ Continue → inv s done → inv (handle e s) done.
Proof.
  intros He Hs.
  assert (∀ s', completedCheckpoints s' = completedCheckpoints s →
                activeCheckpoint s' = activeCheckpoint s ∨ activeCheckpoint s' = None →
                inv s' done) as Hcells.
  { intros s' Hc Ha. revert Hs. now apply controller_inv_cells. }
  destruct e; cbn [handle]; try (apply Hcells; [reflexivity|now left]).
  - now apply inv_handleProgress.
  - unfold videoTimeUpdate. destruct (negb (seeking s)); [|exact Hs].
    apply inv_checkCheckpoints, Hcells; [reflexivity|now left].
  - unfold audioTimeUpdate. apply inv_handleProgress, inv_checkCheckpoints, Hcells;
      [reflexivity|now left].
  - congruence.
  - unfold handleReplay. destruct (activeCheckpoint s) as [[i cp]|] eqn:E; [|exact Hs].
    apply Hcells; [reflexivity|now right].
Qed.

Lemma inv_handle e s done :
  inv s done →
  inv (handle e s)
      (match e, activeCheckpoint s with
       | Continue, Some (i, _) => i :: done
       | _, _ => done
       end).
Proof.
  intros Hs.
  destruct e; try (now apply inv_handle_other).
  now apply inv_handleContinue.
Qed.

Lemma inv_completionEffect s done : inv s done → inv (completionEffect s) done.
Proof.
  intros Hs. unfold completionEffect.
  destruct (hasEnded s && _ && truthy exerciseId); [|exact Hs].
  revert Hs. apply controller_inv_cells; [reflexivity|now left].
Qed.

(** The keys of the completed set are keys of checkpoint times: the set is
    never larger than the array. *)
Lemma inv_size s done :
  inv s done → length (completedCheckpoints s) ≤ length checkpoints.
Proof.
  intros [H1 H2 _ _].
  rewrite <- (length_map key (completedCheckpoints s)).
  rewrite <- (length_map (fun cp => key (time cp)) checkpoints).
  apply submseteq_length, NoDup_submseteq; [exact H1|].
  intros k Hk. apply list_elem_of_fmap in Hk as (t & -> & Ht).
  destruct (H2 t Ht) as (i & cp & _ & Hcp & Hkey).
  apply list_elem_of_fmap. exists cp. split; [now symmetry|].
  eapply list_elem_of_lookup_2. exact Hcp.
Qed.

(** The set has the size of the array exactly when every checkpoint has
    been continued from. *)
Lemma inv_all_completed s done :
  inv s done →
  length (completedCheckpoints s) = length checkpoints ↔
  ∀ i, i < length checkpoints → i ∈ done.
Proof.
  intros [H1 H2 H3 _].
  set (K := map key (completedCheckpoints s)).
  set (T := map (fun cp => key (time cp)) checkpoints).
  assert (∀ k, k ∈ K → k ∈ T) as HKT.
  { intros k Hk. apply list_elem_of_fmap in Hk as (t & -> & Ht).
    destruct (H2 t Ht) as (i & cp & _ & Hcp & Hkey).
    apply list_elem_of_fmap. exists cp. split; [now symmetry|].
    eapply list_elem_of_lookup_2. exact Hcp. }
  assert (length K = length (completedCheckpoints s)) as HlenK by apply length_map.
  assert (length T = length checkpoints) as HlenT by apply length_map.
  split.
  - intros Hlen i Hi.
    assert (K ≡ₚ T) as Hperm.
    { apply submseteq_length_Permutation; [now apply NoDup_submseteq|lia]. }
    assert (NoDup T) as HT by now rewrite <- Hperm.
    destruct (lookup_lt_is_Some_2 checkpoints i Hi) as [cp Hcp].
    assert (key (time cp) ∈ K) as Hin.
    { rewrite Hperm. apply list_elem_of_fmap. exists cp. split; [reflexivity|].
      eapply list_elem_of_lookup_2. exact Hcp. }
    apply list_elem_of_fmap in Hin as (t & Hkey & Ht).
    destruct (H2 t Ht) as (j & cpj & Hj & Hcpj & Hkeyj).
    assert (j = i) as <-; [|exact Hj].
    apply (proj1 (NoDup_alt T) HT j i (key (time cp))).
    + subst T. rewrite list_lookup_fmap, Hcpj. simpl. congruence.
    + subst T. now rewrite list_lookup_fmap, Hcp.
  - intros Hall.
    assert (NoDup T) as HT.
    { apply NoDup_alt. intros i j k Hi Hj.
      subst T. rewrite list_lookup_fmap in Hi, Hj.
      destruct (checkpoints !! i) as [cpi|] eqn:Ei; [|discriminate].
      destruct (checkpoints !! j) as [cpj|] eqn:Ej; [|discriminate].
      injection Hi as Hi. injection Hj as Hj.
      destruct (Nat.lt_trichotomy i j) as [Hlt|[Heq|Hgt]]; [|exact Heq|].
      - exfalso.
        destruct (H3 j (Hall j (lookup_lt_Some _ _ _ Ej))) as (_ & _ & _ & Hf).
        apply (Hf i cpi cpj Hlt Ei Ej). congruence.
      - exfalso.
        destruct (H3 i (Hall i (lookup_lt_Some _ _ _ Ei))) as (_ & _ & _ & Hf).
        apply (Hf j cpj cpi Hgt Ej Ei). congruence. }
    rewrite <- HlenK, <- HlenT. apply Permutation_length.
    apply NoDup_Permutation; [exact H1|exact HT|].
    intros k. split; [apply HKT|].
    intros Hk. apply list_elem_of_fmap in Hk as (cp & -> & Hcp).
    apply list_elem_of_lookup_1 in Hcp as [i Hcp].
    destruct (H3 i (Hall i (lookup_lt_Some _ _ _ Hcp))) as (cp' & Hcp' & Hhas & _).
    rewrite Hcp in Hcp'. injection Hcp' as <-. now apply has_key.
Qed.

Lemma inv_done_equiv s done done' :
  (∀ i, i ∈ done ↔ i ∈ done') → inv s done → inv s done'.
Proof.
  intros Heq [H1 H2 H3 H4]. split; try assumption.
  - intros t Ht. destruct (H2 t Ht) as (i & cp & Hi & Hcp).
    exists i, cp. split; [now apply Heq|exact Hcp].
  - intros i Hi. apply H3. now apply Heq.
Qed.

(** *** The completion effect along a run *)

(** The exercise id is set before the completion effect first runs, and an
    exercise id is not the empty string. *)
Hypothesis exerciseId_truthy : truthy exerciseId = true.

Definition completion_recorded (s : state) : Prop :=
  markedComplete s
  = hasEnded s && (length (completedCheckpoints s) =? length checkpoints).

Lemma checkCheckpoints_cells closure t s :
  markedComplete (checkCheckpoints closure t s) = markedComplete s
  ∧ hasEnded (checkCheckpoints closure t s) = hasEnded s
  ∧ completedCheckpoints (checkCheckpoints closure t s) = completedCheckpoints s.
Proof.
  unfold checkCheckpoints. now destruct (find_from _ 0 checkpoints).
Qed.

Lemma handleProgress_cells closure t s :
  markedComplete (handleProgress closure t s) = markedComplete s
  ∧ hasEnded (handleProgress closure t s) = hasEnded s
  ∧ completedCheckpoints (handleProgress closure t s) = completedCheckpoints s.
Proof.
  unfold handleProgress. destruct (seeking closure); [now repeat split|].
  destruct (negb (isFinite t)); [now repeat split|].
  destruct (checkCheckpoints_cells closure t (setCurrentTime t s)) as (-> & -> & ->).
  now repeat split.
Qed.

(** A handler leaves the completion mark alone, never clears [hasEnded] and
    never shrinks the completed set. *)
Lemma handle_cells e s :
  markedComplete (handle e s) = markedComplete s
  ∧ (hasEnded s = true → hasEnded (handle e s) = true)
  ∧ length (completedCheckpoints s) ≤ length (completedCheckpoints (handle e s)).
Proof.
  destruct e; cbn [handle]; try (now repeat split).
  - destruct (handleProgress_cells s playedSeconds s) as (-> & -> & ->). now repeat split.
  - unfold videoTimeUpdate. destruct (negb (seeking s)); [|now repeat split].
    destruct (checkCheckpoints_cells s t (setCurrentTime t s)) as (-> & -> & ->).
    now repeat split.
  - unfold audioTimeUpdate.
    destruct (handleProgress_cells s t (checkCheckpoints s t (setCurrentTime t s)))
      as (-> & -> & ->).
    destruct (checkCheckpoints_cells s t (setCurrentTime t s)) as (-> & -> & ->).
    now repeat split.
  - unfold handleContinue. destruct (activeCheckpoint s) as [[i cp]|]; [|now repeat split].
    cbn [markedComplete hasEnded completedCheckpoints].
    split; [reflexivity|]. split; [trivial|apply completed_add_length].
  - unfold handleReplay. now destruct (activeCheckpoint s) as [[i cp]|].
Qed.

Lemma completion_recorded_step e s done :
  inv s done → completion_recorded s → completion_recorded (step s e).
Proof.
  intros Hs Hrec. unfold step.
  pose proof (inv_size _ _ (inv_handle e s done Hs)) as Hsize.
  destruct (handle_cells e s) as (Hm & He & Hlen).
  unfold completion_recorded, completionEffect in *.
  rewrite exerciseId_truthy, andb_true_r.
  destruct (hasEnded (handle e s)
            && (length (completedCheckpoints (handle e s)) =? length checkpoints))
    eqn:Ecomplete.
  - cbn [markedComplete hasEnded completedCheckpoints]. now rewrite Ecomplete.
  - rewrite Ecomplete, Hm, Hrec.
    destruct (hasEnded s) eqn:Ee; [|reflexivity]. simpl.
    destruct (Nat.eqb_spec (length (completedCheckpoints s)) (length checkpoints))
      as [Heq|Hne]; [|reflexivity].
    exfalso. rewrite (He eq_refl) in Ecomplete. simpl in Ecomplete.
    apply Nat.eqb_neq in Ecomplete. lia.
Qed.

Lemma controller_inv_step e s done :
  inv s done →
  inv (step s e)
      (match e, activeCheckpoint s with
       | Continue, Some (i, _) => i :: done
       | _, _ => done
       end).
Proof. intros Hs. now apply inv_completionEffect, inv_handle. Qed.

Lemma controller_inv_run evs : ∀ s done,
  inv s done → completion_recorded s →
  inv (run evs s) (continued s evs ++ done) ∧ completion_recorded (run evs s).
Proof.
  induction evs as [|e evs IH]; intros s done Hs Hrec; [now split|].
  pose proof (controller_inv_step e s done Hs) as Hs'.
  pose proof (completion_recorded_step e s done Hs Hrec) as Hrec'.
  destruct (IH _ _ Hs' Hrec') as [Hinv Hfin]. split; [|exact Hfin].
  revert Hinv. apply inv_done_equiv. intros i. cbn [continued].
  destruct e; try reflexivity.
  destruct (activeCheckpoint s) as [[j cp]|]; [|reflexivity].
  rewrite !elem_of_app, !elem_of_cons. tauto.
Qed.

(** The completion of a run from the mount. *)
Lemma completion_of_run evs :
  let s := run evs initial in
  let done := continued initial evs in
  inv s done
  ∧ (markedComplete s = true ↔
     hasEnded s = true ∧ ∀ i, i < length checkpoints → i ∈ done).
Proof.
  cbv zeta. destruct (controller_inv_run evs initial [] controller_inv_initial eq_refl) as [Hinv Hrec].
  rewrite app_nil_r in Hinv. split; [exact Hinv|].
  rewrite <- (inv_all_completed _ _ Hinv), Hrec, andb_true_iff, Nat.eqb_eq.
  reflexivity.
Qed.

(** Two checkpoints at the same time: the later one is never the active
    one, so it is never continued from and the exercise never completes. *)
Lemma same_time_never_complete evs i j cpi cpj :
  i < j → checkpoints !! i = Some cpi → checkpoints !! j = Some cpj →
  key (time cpi) = key (time cpj) →
  (j ∉ continued initial evs) ∧ markedComplete (run evs initial) = false.
Proof.
  intros Hlt Hi Hj Hkey.
  destruct (completion_of_run evs) as [[_ _ H3 _] Hiff].
  assert (j ∉ continued initial evs) as Hnot.
  { intros Hin. destruct (H3 j Hin) as (_ & _ & _ & Hfirst).
    now apply (Hfirst i cpi cpj). }
  split; [exact Hnot|]. apply not_true_is_false. intros Hm.
  apply Hiff in Hm as [_ Hall]. apply Hnot, Hall.
  eapply lookup_lt_Some. exact Hj.
Qed.

End Controller.

Arguments mkCheckpoint {content} time body.
Arguments time {content} c.
Arguments body {content} c.

(** C5.  Along any sequence of player and learner events from the mount,
    the exercise is marked complete if and only if playback has ended and
    every authored checkpoint has been continued from, that is, a [Continue]
    was handled while that checkpoint was the active one.  A time is in the
    completed set only as the time of a checkpoint continued from.  So a run
    that ends with some checkpoint never continued from, whatever times the
    player reported, does not mark the exercise complete. *)
Theorem completion_iff_ended_and_continued
  (content : Type) (checkpoints : list (checkpoint content))
  (BASE_URL pathname src : string) (evs : list event) :
  let exerciseId :=
    Progress.generateStableExerciseId BASE_URL pathname "InteractiveMedia" src in
  let s := run content checkpoints exerciseId evs (initial content) in
  let done := continued content checkpoints exerciseId (initial content) evs in
  (markedComplete content s = true ↔
   hasEnded content s = true ∧ ∀ i, i < length checkpoints → i ∈ done)
  ∧ (∀ t, t ∈ completedCheckpoints content s →
       ∃ i cp, i ∈ done ∧ checkpoints !! i = Some cp ∧ key (time cp) = key t)
  ∧ (∀ i, i ∈ done →
       ∃ cp, checkpoints !! i = Some cp
             ∧ has (completedCheckpoints content s) (time cp) = true)
  ∧ (∀ i, i < length checkpoints → i ∉ done → markedComplete content s = false).
Proof.
  intros exerciseId s done.
  destruct (completion_of_run content checkpoints exerciseId
              (Progress.generateStableExerciseId_truthy _ _ _ _) evs)
    as [[_ H2 H3 _] Hiff].
  fold s in Hiff, H2, H3. fold done in Hiff, H2, H3.
  split; [exact Hiff|]. split; [exact H2|]. split.
  - intros i Hi. destruct (H3 i Hi) as (cp & Hcp & Hhas & _). eauto.
  - intros i Hi Hnot. apply not_true_is_false. intros Hm.
    apply Hiff in Hm as [_ Hall]. now apply Hnot, Hall.
Qed.

(** Checkpoints at 10 s and 30 s.  The learner continues from the first;
    the player then reports 35 s, past the window of the second, and ends:
    the exercise is not marked complete.  With both continued from, it is. *)
Definition two_checkpoints : list (checkpoint string) :=
  [mkCheckpoint (of_Z 10) "first"; mkCheckpoint (of_Z 30) "second"].

Lemma completion_iff_ended_and_continued_witness :
  let id := Progress.generateStableExerciseId "/telc/" "/telc/A1/Lesson1"
              "InteractiveMedia" "clip.mp4" in
  let skipped := [VideoTimeUpdate (of_Z 10); Continue; VideoTimeUpdate (of_Z 35); Ended] in
  let watched := [VideoTimeUpdate (of_Z 10); Continue; VideoTimeUpdate (of_Z 30);
                  Continue; Ended] in
  hasEnded string (run string two_checkpoints id skipped (initial string)) = true
  ∧ continued string two_checkpoints id (initial string) skipped = [0]
  ∧ markedComplete string (run string two_checkpoints id skipped (initial string)) = false
  ∧ markedComplete string (run string two_checkpoints id watched (initial string)) = true.
Proof.
  intros id skipped watched.
  split; [reflexivity|]. split; [reflexivity|]. split.
  - destruct (completion_iff_ended_and_continued string two_checkpoints
                "/telc/" "/telc/A1/Lesson1" "clip.mp4" skipped) as (_ & _ & _ & Hnot).
    apply (Hnot 1); [simpl; lia|].
    change (1 ∉ [0]). intros H. apply list_elem_of_singleton in H. discriminate.
  - reflexivity.
Defined.

End Media.

(** ** The item bank of the drag mode (FillBlanks.tsx) *)

Module ItemBank.
Import JsString JsObject Placement.

(** A [Map<string, number>]: its entries in insertion order. *)
Definition freq : Type := list (string * nat).

(** [map.get(k)] *)
Fixpoint freq_get (m : freq) (k : string) : option nat :=
  match m with
  | [] => None
  | (k', n) :: r => if str_eqb k' k then Some n else freq_get r k
  end.

(** [map.set(k, n)]: a key of the map keeps its place, a new key goes
    last. *)
Fixpoint freq_set (m : freq) (k : string) (n : nat) : freq :=
  match m with
  | [] => [(k, n)]
  | (k', n') :: r =>
      if str_eqb k' k then (k', n) :: r else (k', n') :: freq_set r k n
  end.

(** [map.get(k) || 0] *)
Definition get_or_0 (m : freq) (k : string) : nat :=
  match freq_get m k with Some n => n | None => 0 end.

(** [getFreq(arr)] *)
Definition getFreq (arr : list string) : freq :=
  fold_left (fun m t => freq_set m t (get_or_0 m t + 1)) arr [].

(** [set.add(x)] on a [Set] of strings, its elements in insertion order. *)
Definition set_add (set : list string) (x : string) : list string :=
  if existsb (fun y => str_eqb y x) set then set else set ++ [x].

(** [new Set(l)] *)
Definition set_of (l : list string) : list string := fold_left set_add l [].

(** [merged]: every key of the two frequency maps, as many times as the
    larger of its two frequencies. *)
Definition merged (answers options : list string) : list string :=
  let ansFreq := getFreq answers in
  let optFreq := getFreq options in
  let allKeys := set_of (map fst ansFreq ++ map fst optFreq) in
  flat_map (fun key => replicate (Nat.max (get_or_0 ansFreq key) (get_or_0 optFreq key)) key)
           allKeys.

(** [allItems]: [random i] is the text
    [Math.random().toString(36).substr(2, 9)] drawn for the item [i]. *)
Definition allItems (random : nat → string) (answers options : list string) : list item :=
  imap (fun i t => mkItem ("item-" +:+ pretty i +:+ "-" +:+ random i) t)
       (merged answers options).

(** [usedItemIds.has(id)] *)
Definition used_has (used : list string) (x : string) : bool :=
  existsb (fun y => str_eqb y x) used.

(** The loop of [handleShowAnswers] over [answers], from the index [idx]:
    the first item not yet used whose text is the answer fills the drop
    zone of the blank. *)
Fixpoint fill_answers (items : list item) (idx : nat) (answers : list string)
  (newDropped : obj) (used : list string) : obj * list string :=
  match answers with
  | [] => (newDropped, used)
  | ans :: rest =>
      match List.find (fun i => str_eqb (text i) ans && negb (used_has used (id i))) items with
      | Some it =>
          fill_answers items (S idx) rest
            (obj_set newDropped (dropId idx) (id it)) (set_add used (id it))
      | None => fill_answers items (S idx) rest newDropped used
      end
  end.

(** [handleShowAnswers] in drag mode, on the placement cells. *)
Definition handleShowAnswers (items : list item) (answers : list string) (s : state) : state :=
  let filled := fill_answers items 0 answers [] [] in
  {| droppedItems := fst filled;
     dragItems := map id (List.filter (fun i => negb (used_has (snd filled) (id i))) items);
     selectedId := selectedId s;
     activeDropMenu := activeDropMenu s |}.

(** [reset] of the exercise, on the placement cells: [order] is the
    arrangement the random comparator of [sort] gives. *)
Definition reset (order : list string → list string) (items : list item) (s : state) : state :=
  {| droppedItems := [];
     dragItems := order (map id items);
     selectedId := None;
     activeDropMenu := None |}.

(** The number of occurrences of [t] in [l]. *)
Definition occurrences (t : string) (l : list string) : nat :=
  length (List.filter (fun x => str_eqb x t) l).


(** *** Facts on the frequency maps *)

Lemma freq_get_set m k n k' :
  freq_get (freq_set m k n) k' = if str_eqb k k' then Some n else freq_get m k'.
Proof.
  induction m as [|[k0 n0] r IH]; simpl.
  - destruct (str_eqb k k'); reflexivity.
  - destruct (str_eqb k0 k) eqn:E0; simpl.
    + apply str_eqb_eq in E0. subst k0. destruct (str_eqb k k'); reflexivity.
    + rewrite IH. destruct (str_eqb k0 k') eqn:E1; [|reflexivity].
      apply str_eqb_eq in E1. subst k0.
      now rewrite (str_eqb_sym k k'), E0.
Qed.

Lemma freq_keys_set m k n :
  ∀ x, x ∈ map fst (freq_set m k n) ↔ x = k ∨ x ∈ map fst m.
Proof.
  induction m as [|[k0 n0] r IH]; intros x; simpl.
  - rewrite list_elem_of_singleton, elem_of_nil. tauto.
  - destruct (str_eqb k0 k) eqn:E0; simpl.
    + apply str_eqb_eq in E0. subst k0. rewrite !elem_of_cons. tauto.
    + rewrite !elem_of_cons, IH. tauto.
Qed.

Lemma occurrences_cons t a l :
  occurrences t (a :: l) = (if str_eqb a t then 1 else 0) + occurrences t l.
Proof. unfold occurrences. simpl. now destruct (str_eqb a t). Qed.

Lemma occurrences_app t l1 l2 :
  occurrences t (l1 ++ l2) = occurrences t l1 + occurrences t l2.
Proof.
  induction l1 as [|a l1 IH]; [reflexivity|].
  rewrite <- app_comm_cons, !occurrences_cons, IH. lia.
Qed.

Lemma occurrences_0 t l : t ∉ l → occurrences t l = 0.
Proof.
  induction l as [|a l IH]; intros H; [reflexivity|].
  rewrite occurrences_cons, IH.
  - destruct (str_eqb a t) eqn:E; [|reflexivity].
    apply str_eqb_eq in E. subst a. exfalso. apply H, list_elem_of_here.
  - intros Hin. apply H. now apply list_elem_of_further.
Qed.

Lemma occurrences_replicate t n k :
  occurrences t (replicate n k) = if str_eqb k t then n else 0.
Proof.
  induction n as [|n IH]; simpl.
  - now destruct (str_eqb k t).
  - rewrite occurrences_cons, IH. now destruct (str_eqb k t).
Qed.

Lemma get_or_0_set m k n k' :
  get_or_0 (freq_set m k n) k' = if str_eqb k k' then n else get_or_0 m k'.
Proof. unfold get_or_0. rewrite freq_get_set. now destruct (str_eqb k k'). Qed.

Lemma getFreq_from arr : ∀ m t,
  get_or_0 (fold_left (fun m t => freq_set m t (get_or_0 m t + 1)) arr m) t
  = get_or_0 m t + occurrences t arr.
Proof.
  induction arr as [|a arr IH]; intros m t; simpl.
  - unfold occurrences. simpl. lia.
  - rewrite IH, occurrences_cons, get_or_0_set.
    destruct (str_eqb a t) eqn:E; [|lia].
    apply str_eqb_eq in E. subst a. lia.
Qed.

Lemma get_or_0_getFreq arr t : get_or_0 (getFreq arr) t = occurrences t arr.
Proof. unfold getFreq. now rewrite getFreq_from. Qed.

Lemma set_add_elem set x y : y ∈ set_add set x ↔ y ∈ set ∨ y = x.
Proof.
  unfold set_add. destruct (existsb _ set) eqn:E.
  - split; [now left|]. intros [H| ->]; [exact H|].
    apply existsb_exists in E as (z & Hz & Hzx). apply str_eqb_eq in Hzx. subst z.
    now apply list_elem_of_In.
  - rewrite elem_of_app, list_elem_of_singleton. tauto.
Qed.

Lemma set_add_NoDup set x : NoDup set → NoDup (set_add set x).
Proof.
  intros H. unfold set_add. destruct (existsb _ set) eqn:E; [exact H|].
  apply NoDup_app. split; [exact H|]. split; [|apply NoDup_singleton].
  intros y Hy Hx. apply list_elem_of_singleton in Hx. subst y.
  assert (existsb (fun y => str_eqb y x) set = true) as Ht; [|congruence].
  apply existsb_exists. exists x. split; [now apply list_elem_of_In|apply str_eqb_refl].
Qed.

Lemma set_of_from l : ∀ set,
  NoDup set →
  NoDup (fold_left set_add l set)
  ∧ ∀ y, y ∈ fold_left set_add l set ↔ y ∈ set ∨ y ∈ l.
Proof.
  induction l as [|a l IH]; intros set Hset; simpl.
  - split; [exact Hset|]. intros y. rewrite elem_of_nil. tauto.
  - destruct (IH (set_add set a) (set_add_NoDup set a Hset)) as [Hnd Hel].
    split; [exact Hnd|]. intros y. rewrite Hel, set_add_elem, elem_of_cons. tauto.
Qed.

Lemma occurrences_flat_map t (f : string → nat) keys :
  NoDup keys →
  occurrences t (flat_map (fun k => replicate (f k) k) keys)
  = if decide (t ∈ keys) then f t else 0.
Proof.
  induction keys as [|k keys IH]; intros Hnd.
  - simpl. destruct (decide (t ∈ [])) as [H|H]; [|reflexivity].
    now apply not_elem_of_nil in H.
  - apply NoDup_cons in Hnd as [Hk Hnd]. simpl.
    rewrite occurrences_app, occurrences_replicate, (IH Hnd).
    destruct (str_eqb k t) eqn:E.
    + apply str_eqb_eq in E. subst k.
      destruct (decide (t ∈ keys)) as [H|_]; [contradiction|].
      destruct (decide (t ∈ t :: keys)) as [_|H]; [lia|].
      exfalso. apply H, list_elem_of_here.
    + apply str_eqb_neq in E.
      destruct (decide (t ∈ keys)) as [H|H];
        destruct (decide (t ∈ k :: keys)) as [H'|H']; try reflexivity.
      * exfalso. now apply H', list_elem_of_further.
      * exfalso. apply elem_of_cons in H' as [->|H']; [now apply E|now apply H].
Qed.

Lemma get_or_0_absent m t : t ∉ map fst m → get_or_0 m t = 0.
Proof.
  unfold get_or_0. induction m as [|[k n] r IH]; intros H; [reflexivity|].
  simpl in *. destruct (str_eqb k t) eqn:E.
  - apply str_eqb_eq in E. subst k. exfalso. apply H, list_elem_of_here.
  - apply IH. intros Hin. apply H. now apply list_elem_of_further.
Qed.

Lemma occurrences_merged answers options t :
  occurrences t (merged answers options)
  = Nat.max (occurrences t answers) (occurrences t options).
Proof.
  unfold merged. cbv zeta.
  destruct (set_of_from (map fst (getFreq answers) ++ map fst (getFreq options)) []
              (NoDup_nil_2)) as [Hnd Hel].
  fold (set_of (map fst (getFreq answers) ++ map fst (getFreq options))) in Hnd, Hel.
  rewrite (occurrences_flat_map t
             (fun key => Nat.max (get_or_0 (getFreq answers) key)
                                 (get_or_0 (getFreq options) key)) _ Hnd).
  destruct (decide (t ∈ set_of _)) as [H|H].
  - now rewrite !get_or_0_getFreq.
  - rewrite <- !get_or_0_getFreq.
    rewrite (get_or_0_absent (getFreq answers)), (get_or_0_absent (getFreq options));
      [reflexivity| |]; intros Hin; apply H, Hel; right; apply elem_of_app; tauto.
Qed.

Lemma map_text_allItems random answers options :
  map text (allItems random answers options) = merged answers options.
Proof.
  unfold allItems. generalize (merged answers options). intros l.
  rewrite fmap_imap. simpl.
  change ((fun (_ : nat) (x : string) => x)) with (fun (_ : nat) => @Datatypes.id string).
  induction l as [|a l IH] using rev_ind; [reflexivity|].
  rewrite imap_app. simpl. now rewrite IH.
Qed.


(** *** The ids of the items *)

Lemma pretty_N_go_no_dash x : ∀ s,
  includes_chr "-" (pretty_N_go x s) = includes_chr "-" s.
Proof.
  induction (N.lt_wf_0 x) as [x _ IH]; intros s.
  assert (x = 0 ∨ 0 < x)%N as [->|Hx] by lia; [reflexivity|].
  rewrite pretty_N_go_step by exact Hx.
  rewrite IH by now apply N.div_lt.
  simpl. unfold pretty_N_char.
  now repeat case_match.
Qed.

Lemma pretty_nat_no_dash (n : nat) : includes_chr "-" (pretty n) = false.
Proof.
  unfold pretty, pretty_nat, pretty, pretty_N.
  destruct (decide (N.of_nat n = 0%N)); [reflexivity|].
  now rewrite pretty_N_go_no_dash.
Qed.

Lemma str_app_inv_head (p a b : string) : p +:+ a = p +:+ b → a = b.
Proof.
  induction p as [|c p IH]; [trivial|].
  rewrite !str_app_cons. intros [= H]. now apply IH.
Qed.

Lemma includes_chr_cons c a (r : string) :
  includes_chr c (String a r) = chr_eqb a c || includes_chr c r.
Proof. reflexivity. Qed.

(** Two texts cut at their first dash. *)
Lemma dash_split_inj (a b x y : string) :
  includes_chr "-" a = false → includes_chr "-" b = false →
  a +:+ "-" +:+ x = b +:+ "-" +:+ y → a = b.
Proof.
  revert b. induction a as [|c a IH]; intros [|d b] Ha Hb H.
  - reflexivity.
  - rewrite str_app_nil_l, str_app_cons in H. injection H as Hd _. subst d.
    rewrite includes_chr_cons, chr_eqb_refl in Hb. discriminate.
  - rewrite str_app_nil_l, str_app_cons in H. injection H as Hc _. subst c.
    rewrite includes_chr_cons, chr_eqb_refl in Ha. discriminate.
  - rewrite !str_app_cons in H. injection H as -> H.
    rewrite includes_chr_cons in Ha, Hb.
    apply orb_false_iff in Ha as [_ Ha], Hb as [_ Hb].
    f_equal. now apply IH.
Qed.

Definition item_id (random : nat → string) (i : nat) : string :=
  "item-" +:+ pretty i +:+ "-" +:+ random i.

Lemma item_id_inj random i j : item_id random i = item_id random j → i = j.
Proof.
  unfold item_id. intros H. apply str_app_inv_head in H.
  apply dash_split_inj in H; [|apply pretty_nat_no_dash..].
  now apply (inj pretty) in H.
Qed.

Lemma map_id_allItems random answers options :
  map id (allItems random answers options)
  = map (item_id random) (seq 0 (length (merged answers options))).
Proof.
  unfold allItems. generalize (merged answers options). intros l.
  induction l as [|a l IH] using rev_ind; [reflexivity|].
  rewrite imap_app, map_app, IH, length_app, seq_app, map_app. simpl.
  now rewrite Nat.add_0_r.
Qed.

Lemma NoDup_ids_allItems random answers options :
  NoDup (map id (allItems random answers options)).
Proof.
  rewrite map_id_allItems. apply NoDup_fmap_2_strong; [|apply NoDup_seq].
  intros i j _ _. apply item_id_inj.
Qed.

Lemma truthy_ids_allItems random answers options i :
  i ∈ allItems random answers options → truthy (id i) = true.
Proof.
  intros H. assert (id i ∈ map id (allItems random answers options)) as Hid.
  { apply list_elem_of_fmap. now exists i. }
  rewrite map_id_allItems in Hid. apply list_elem_of_fmap in Hid as (n & -> & _).
  reflexivity.
Qed.


(** *** Show answers *)

(** The number of used items whose text is [t]. *)
Definition used_count (items : list item) (used : list string) (t : string) : nat :=
  length (List.filter (fun i => str_eqb (text i) t && used_has used (id i)) items).

Lemma used_has_add used x y :
  used_has (set_add used x) y = used_has used y || str_eqb x y.
Proof.
  unfold set_add, used_has. destruct (existsb (fun z => str_eqb z x) used) eqn:E.
  - destruct (str_eqb x y) eqn:Exy; [|now rewrite orb_false_r].
    apply str_eqb_eq in Exy. subst y. now rewrite E.
  - rewrite existsb_app. simpl. now rewrite orb_false_r.
Qed.

Lemma used_count_nil items t : used_count items [] t = 0.
Proof.
  unfold used_count. induction items as [|a r IH]; [reflexivity|].
  simpl. now rewrite andb_false_r.
Qed.

Lemma find_unused items used t :
  used_count items used t < occurrences t (map text items) →
  ∃ it, List.find (fun i => str_eqb (text i) t && negb (used_has used (id i))) items
        = Some it.
Proof.
  unfold used_count. induction items as [|a r IH]; simpl.
  - unfold occurrences. simpl. lia.
  - rewrite occurrences_cons.
    destruct (str_eqb (text a) t), (used_has used (id a)); simpl; eauto;
      intros H; apply IH; lia.
Qed.

Lemma used_count_cons a r used t :
  used_count (a :: r) used t
  = (if str_eqb (text a) t && used_has used (id a) then 1 else 0) + used_count r used t.
Proof.
  unfold used_count. cbn [List.filter].
  now destruct (str_eqb (text a) t && used_has used (id a)).
Qed.

Lemma used_count_other items used x t :
  x ∉ map id items →
  used_count items (set_add used x) t = used_count items used t.
Proof.
  induction items as [|a r IH]; intros Hx; [reflexivity|].
  simpl in Hx. apply not_elem_of_cons in Hx as [Hxa Hx].
  rewrite !used_count_cons, used_has_add, (IH Hx).
  assert (str_eqb x (id a) = false) as -> by now apply str_eqb_neq.
  now rewrite orb_false_r.
Qed.

Lemma used_count_add items used it t :
  NoDup (map id items) → it ∈ items → used_has used (id it) = false →
  used_count items (set_add used (id it)) t
  = used_count items used t + (if str_eqb (text it) t then 1 else 0).
Proof.
  induction items as [|a r IH]; intros Hnd Hin Hun.
  - now apply not_elem_of_nil in Hin.
  - simpl in Hnd. apply NoDup_cons in Hnd as [Ha Hnd].
    rewrite !used_count_cons, used_has_add.
    apply elem_of_cons in Hin as [->|Hin].
    + rewrite Hun, str_eqb_refl, (used_count_other r used (id a) t Ha).
      rewrite andb_false_r. cbn [orb]. rewrite andb_true_r.
      destruct (str_eqb (text a) t); lia.
    + assert (str_eqb (id it) (id a) = false) as Hne.
      { apply str_eqb_neq. intros E. apply Ha. rewrite <- E.
        apply list_elem_of_fmap. now exists it. }
      rewrite Hne, orb_false_r, (IH Hnd Hin Hun). lia.
Qed.

Lemma dropId_inj i j : dropId i = dropId j → i = j.
Proof.
  unfold dropId. intros H. apply str_app_inv_head in H.
  now apply (inj pretty) in H.
Qed.

(** What the loop of [handleShowAnswers] keeps: the items in the drop
    zones are the used ones, no item is in two zones, and the zones filled
    are those of the blanks before [idx]. *)
Record filled_inv (idx : nat) (D : obj) (U : list string) : Prop := mkFilled {
  fi_used : ∀ k v, obj_get D k = Some v → used_has U v = true;
  fi_zone : ∀ v, used_has U v = true → ∃ k, obj_get D k = Some v;
  fi_inj : ∀ k1 k2 v, obj_get D k1 = Some v → obj_get D k2 = Some v → k1 = k2;
  fi_keys : NoDup (obj_keys D);
  fi_drop : ∀ k, k ∈ obj_keys D → ∃ j, j < idx ∧ k = dropId j
}.

Lemma filled_inv_nil : filled_inv 0 [] [].
Proof.
  split; simpl; try discriminate.
  - apply NoDup_nil_2.
  - intros k H. now apply not_elem_of_nil in H.
Qed.

Lemma filled_inv_step idx D U x :
  filled_inv idx D U → used_has U x = false →
  filled_inv (S idx) (obj_set D (dropId idx) x) (set_add U x).
Proof.
  intros [Hused Hzone Hinj Hkeys Hdrop] Hx.
  assert (∀ k v, obj_get D k = Some v → str_eqb (dropId idx) k = false) as Hfresh.
  { intros k v Hk. apply str_eqb_neq. intros <-.
    apply obj_get_Some_key, Hdrop in Hk as (j & Hj & E).
    apply dropId_inj in E. lia. }
  split.
  - intros k v. rewrite obj_get_set, used_has_add.
    destruct (str_eqb (dropId idx) k).
    + intros [= <-]. rewrite str_eqb_refl. apply orb_true_r.
    + intros H. now rewrite (Hused _ _ H).
  - intros v. rewrite used_has_add. intros H. apply orb_true_iff in H as [H|H].
    + destruct (Hzone v H) as (k & Hk). exists k.
      now rewrite obj_get_set, (Hfresh k v Hk).
    + apply str_eqb_eq in H. subst v. exists (dropId idx).
      now rewrite obj_get_set, str_eqb_refl.
  - intros k1 k2 v. rewrite !obj_get_set.
    destruct (str_eqb (dropId idx) k1) eqn:E1, (str_eqb (dropId idx) k2) eqn:E2.
    + intros _ _. apply str_eqb_eq in E1, E2. congruence.
    + intros [= <-] H2. apply Hused in H2. congruence.
    + intros H1 [= <-]. apply Hused in H1. congruence.
    + apply Hinj.
  - now apply obj_keys_set_NoDup.
  - intros k Hk. apply obj_keys_set_elem in Hk as [->|Hk].
    + exists idx. split; [lia|reflexivity].
    + destruct (Hdrop k Hk) as (j & Hj & ->). exists j. split; [lia|reflexivity].
Qed.

Lemma fill_answers_spec items :
  NoDup (map id items) →
  ∀ answers idx D U,
    filled_inv idx D U →
    (∀ t, used_count items U t + occurrences t answers
          ≤ occurrences t (map text items)) →
    filled_inv (idx + length answers)
      (fst (fill_answers items idx answers D U))
      (snd (fill_answers items idx answers D U))
    ∧ (∀ j ans, answers !! j = Some ans →
         ∃ it, it ∈ items
               ∧ obj_get (fst (fill_answers items idx answers D U)) (dropId (idx + j))
                 = Some (id it)
               ∧ text it = ans)
    ∧ (∀ k v, obj_get D k = Some v →
         obj_get (fst (fill_answers items idx answers D U)) k = Some v).
Proof.
  intros Hnd. induction answers as [|ans rest IH]; intros idx D U Hinv Hcount.
  - simpl. rewrite Nat.add_0_r. split; [exact Hinv|]. split; [|auto].
    intros j a H. now rewrite lookup_nil in H.
  - cbn [fill_answers].
    destruct (find_unused items U ans) as (it & Hfind).
    { specialize (Hcount ans). rewrite occurrences_cons, str_eqb_refl in Hcount. lia. }
    rewrite Hfind. apply find_some in Hfind as [Hin Hit].
    apply list_elem_of_In in Hin.
    apply andb_true_iff in Hit as [Htext Hun].
    apply str_eqb_eq in Htext. apply negb_true_iff in Hun.
    destruct (IH (S idx) (obj_set D (dropId idx) (id it)) (set_add U (id it)))
      as (Hinv' & Hzones & Hkept).
    { now apply filled_inv_step. }
    { intros t. rewrite (used_count_add items U it t Hnd Hin Hun).
      specialize (Hcount t). rewrite occurrences_cons in Hcount.
      rewrite Htext. lia. }
    cbn [length]. rewrite <- Nat.add_succ_comm. split; [exact Hinv'|]. split.
    + intros [|j] a Ha.
      * injection Ha as <-. rewrite Nat.add_0_r. exists it.
        split; [exact Hin|]. split; [|exact Htext].
        apply Hkept. now rewrite obj_get_set, str_eqb_refl.
      * rewrite <- Nat.add_succ_comm. now apply Hzones.
    + intros k v Hk. apply Hkept. rewrite obj_get_set.
      destruct (str_eqb (dropId idx) k) eqn:E; [|exact Hk].
      apply str_eqb_eq in E. subst k.
      apply obj_get_Some_key, (fi_drop _ _ _ Hinv) in Hk as (j & Hj & E).
      apply dropId_inj in E. lia.
Qed.


(** *** Conservation of the items under drags and clicks *)

(** The item [t] is somewhere: in the bank or in a drop zone. *)
Definition held (s : state) (t : string) : Prop :=
  t ∈ dragItems s ∨ ∃ zone, obj_get (droppedItems s) zone = Some t.

(** The bank has no repetition, and the items held are those of [bank]. *)
Record conserved (bank : list string) (s : state) : Prop := mkConserved {
  co_inv : inv s;
  co_bank : NoDup (dragItems s);
  co_held : ∀ t, t ∈ bank ↔ held s t
}.

Lemma NoDup_filter_bool {A} (p : A → bool) (l : list A) :
  NoDup l → NoDup (List.filter p l).
Proof.
  induction l as [|a l IH]; intros H; [exact H|].
  apply NoDup_cons in H as [Ha Hl]. simpl.
  destruct (p a); [|now apply IH].
  apply NoDup_cons. split; [|now apply IH].
  intros Hin. apply Ha. apply list_elem_of_In, filter_In in Hin as [Hin _].
  now apply list_elem_of_In.
Qed.

Lemma elem_of_filter_ne (l : list string) x t :
  t ∈ List.filter (fun y => negb (str_eqb y x)) l ↔ t ∈ l ∧ t ≠ x.
Proof.
  rewrite list_elem_of_In, filter_In, <- list_elem_of_In, negb_true_iff, str_eqb_neq.
  reflexivity.
Qed.

Lemma conserved_place bank s itemId target sel menu :
  conserved bank s → (∀ t, t ∈ bank → truthy t = true) →
  itemId ∈ bank → truthy target = true →
  opt_str_eqb (sourceDropZone (droppedItems s) itemId) target = false →
  conserved bank
    {| droppedItems :=
         dropped_after_place (droppedItems s)
           (sourceDropZone (droppedItems s) itemId) target itemId;
       dragItems :=
         bank_after_place (dragItems s) (isFromBank (dragItems s) itemId)
           (obj_get (droppedItems s) target) itemId;
       selectedId := sel;
       activeDropMenu := menu |}.
Proof.
  intros [Hinv Hnd Hheld] Htruthy Hitem Htarget Hne.
  assert (∀ src, sourceDropZone (droppedItems s) itemId = Some src → truthy src = true)
    as Hsrc.
  { intros src H. apply sourceDropZone_Some in H as [_ H]. now apply (inv_truthy s Hinv). }
  pose proof (fun k => obj_get_dropped_after_place (droppedItems s)
                         (sourceDropZone (droppedItems s) itemId) target itemId k Hsrc)
    as Hget.
  assert (∀ k, opt_str_eqb (sourceDropZone (droppedItems s) itemId) k = true →
               obj_get (droppedItems s) k = Some itemId) as Hsource.
  { intros k H. apply opt_str_eqb_true, sourceDropZone_Some in H. tauto. }
  assert (∀ k, obj_get (droppedItems s) k = Some itemId →
               opt_str_eqb (sourceDropZone (droppedItems s) itemId) k = true) as Hsource'.
  { intros k Hk. apply opt_str_eqb_true.
    destruct (sourceDropZone (droppedItems s) itemId) as [src|] eqn:Es.
    - apply sourceDropZone_Some in Es as [Es _].
      now rewrite (inv_inj s Hinv _ _ _ Es Hk).
    - now apply (sourceDropZone_None _ _ k) in Es. }
  split.
  - now apply inv_place.
  - cbn [dragItems]. unfold bank_after_place.
    assert (NoDup (if isFromBank (dragItems s) itemId
                   then List.filter (fun x => negb (str_eqb x itemId)) (dragItems s)
                   else dragItems s)) as Hbase.
    { destruct (isFromBank (dragItems s) itemId); [now apply NoDup_filter_bool|exact Hnd]. }
    destruct (obj_get (droppedItems s) target) as [o|] eqn:Eo; [|exact Hbase].
    destruct (truthy o); [|exact Hbase].
    apply NoDup_app. split; [exact Hbase|]. split; [|apply NoDup_singleton].
    intros x Hx Ho. apply list_elem_of_singleton in Ho. subst x.
    apply (inv_disj s Hinv _ _ Eo).
    destruct (isFromBank (dragItems s) itemId); [|exact Hx].
    now apply elem_of_filter_ne in Hx as [Hx _].
  - intros t. rewrite Hheld. unfold held. cbn [dragItems droppedItems].
    split.
    + intros [Hb|(k & Hk)].
      * destruct (decide (t = itemId)) as [->|Ht].
        -- right. exists target. rewrite Hget, Hne, str_eqb_refl. reflexivity.
        -- left. unfold bank_after_place.
           assert (t ∈ (if isFromBank (dragItems s) itemId
                        then List.filter (fun x => negb (str_eqb x itemId)) (dragItems s)
                        else dragItems s)) as Hbase.
           { destruct (isFromBank (dragItems s) itemId); [|exact Hb].
             now apply elem_of_filter_ne. }
           destruct (obj_get (droppedItems s) target) as [o|]; [|exact Hbase].
           destruct (truthy o); [|exact Hbase].
           apply elem_of_app. now left.
      * destruct (decide (t = itemId)) as [->|Ht].
        -- right. exists target. rewrite Hget, Hne, str_eqb_refl. reflexivity.
        -- destruct (str_eqb target k) eqn:Etk.
           ++ apply str_eqb_eq in Etk. subst k. left.
              unfold bank_after_place. rewrite Hk.
              assert (truthy t = true) as ->.
              { apply Htruthy, Hheld. right. now exists target. }
              apply elem_of_app. right. apply list_elem_of_here.
           ++ right. exists k. rewrite Hget, Etk.
              destruct (opt_str_eqb (sourceDropZone (droppedItems s) itemId) k) eqn:Esk;
                [|exact Hk].
              apply Hsource in Esk. congruence.
    + intros [Hb|(k & Hk)].
      * apply elem_of_bank_after_place in Hb as [[Hb _]|[Ho _]]; [now left|].
        right. now exists target.
      * rewrite Hget in Hk.
        destruct (opt_str_eqb (sourceDropZone (droppedItems s) itemId) k);
          [discriminate|].
        destruct (str_eqb target k); [|right; now exists k].
        injection Hk as <-. now apply Hheld.
Qed.

Lemma conserved_unplace bank s k t sel menu :
  conserved bank s → obj_get (droppedItems s) k = Some t →
  conserved bank
    {| droppedItems := obj_delete (droppedItems s) k;
       dragItems := dragItems s ++ [t];
       selectedId := sel;
       activeDropMenu := menu |}.
Proof.
  intros [Hinv Hnd Hheld] Hk. split.
  - now apply inv_unplace.
  - cbn [dragItems]. apply NoDup_app. split; [exact Hnd|].
    split; [|apply NoDup_singleton].
    intros x Hx Ht. apply list_elem_of_singleton in Ht. subst x.
    now apply (inv_disj s Hinv _ _ Hk).
  - intros x. rewrite Hheld. unfold held. cbn [dragItems droppedItems].
    rewrite elem_of_app, list_elem_of_singleton. split.
    + intros [Hb|(k' & Hk')]; [tauto|].
      destruct (str_eqb k k') eqn:E.
      * apply str_eqb_eq in E. subst k'. left. right. congruence.
      * right. exists k'. now rewrite obj_get_delete, E.
    + intros [[Hb| ->]|(k' & Hk')].
      * now left.
      * right. now exists k.
      * rewrite obj_get_delete in Hk'. destruct (str_eqb k k'); [discriminate|].
        right. now exists k'.
Qed.

Lemma conserved_cells bank s sel menu :
  conserved bank s →
  conserved bank {| droppedItems := droppedItems s; dragItems := dragItems s;
                    selectedId := sel; activeDropMenu := menu |}.
Proof. intros [Hinv Hnd Hheld]. split; [now apply inv_cells|exact Hnd|exact Hheld]. Qed.


(** A drag or a click on the items of [bank]; the picks from the menu of a
    drop zone are set apart. *)
Definition plain_gesture (bank : list string) (g : bool * event) : Prop :=
  match snd g with
  | DragEnd activeId _ => activeId ∈ bank
  | WordClick itemId => itemId ∈ bank
  | DropZoneClick _ => True
  | MenuOptionClick _ _ => False
  end.

Definition tracked (bank : list string) (s : state) : Prop :=
  conserved bank s ∧ ∀ x, selectedId s = Some x → x ∈ bank.

Lemma tracked_step bank s g :
  (∀ t, t ∈ bank → truthy t = true) →
  plain_gesture bank g → tracked bank s → tracked bank (step s g).
Proof.
  intros Htruthy Hg [Hs Hsel].
  destruct g as [submitted [activeId over|itemId|index|index itemId]];
    cbn [plain_gesture snd] in Hg; cbn [step].
  - unfold handleDragEnd. destruct over as [i|]; cbn [option_map].
    + destruct (opt_str_eqb _ (dropId i)) eqn:E; [now split|].
      split; [|discriminate].
      apply conserved_place; [exact Hs|exact Htruthy|exact Hg|apply truthy_dropId|exact E].
    + destruct (sourceDropZone (droppedItems s) activeId) as [src|] eqn:Es.
      * apply sourceDropZone_Some in Es as [Es _].
        destruct (truthy src); (split; [|discriminate]).
        -- now apply conserved_unplace.
        -- now apply conserved_cells.
      * split; [now apply conserved_cells|discriminate].
  - unfold handleWordClick. destruct submitted; [now split|].
    split; [now apply conserved_cells|]. cbn [selectedId].
    intros x. destruct (opt_str_eqb (selectedId s) itemId); [discriminate|].
    now intros [= <-].
  - unfold handleDropZoneClick. destruct submitted; [now split|].
    destruct (when_truthy (selectedId s)) as [sel|] eqn:Ew.
    + apply selected_truthy_Some in Ew as [Ew _].
      destruct (opt_str_eqb (obj_get (droppedItems s) (dropId index)) sel) eqn:E;
        (split; [|discriminate]); [now apply conserved_cells|].
      apply conserved_place;
        [exact Hs|exact Htruthy|now apply Hsel|apply truthy_dropId|].
      destruct (sourceDropZone (droppedItems s) sel) as [src|] eqn:Es; [|reflexivity].
      apply sourceDropZone_Some in Es as [Es _]. simpl.
      destruct (str_eqb src (dropId index)) eqn:Ez; [|reflexivity].
      apply str_eqb_eq in Ez. subst src. rewrite Es in E. simpl in E.
      now rewrite str_eqb_refl in E.
    + destruct (when_truthy (obj_get (droppedItems s) (dropId index))) as [cur|] eqn:Ec.
      * apply selected_truthy_Some in Ec as [Ec _].
        split; [now apply conserved_unplace|exact Hsel].
      * split; [now apply conserved_cells|exact Hsel].
  - contradiction.
Qed.

Lemma tracked_run bank gs :
  (∀ t, t ∈ bank → truthy t = true) →
  Forall (plain_gesture bank) gs →
  ∀ s, tracked bank s → tracked bank (run gs s).
Proof.
  intros Htruthy. induction gs as [|g gs IH]; intros Hgs s Hs; [exact Hs|].
  apply Forall_cons in Hgs as [Hg Hgs]. apply (IH Hgs). now apply tracked_step.
Qed.

Lemma tracked_initial bank : NoDup bank → tracked bank (initial bank).
Proof.
  intros Hnd. split; [|discriminate]. split.
  - apply inv_initial.
  - exact Hnd.
  - intros t. unfold held. simpl. split; [now left|].
    intros [H|(zone & H)]; [exact H|discriminate].
Qed.


(** *** The properties *)

(** X1.  The bank of the drag mode holds every text as many times as the
    larger of its number of occurrences among the answers and its number of
    occurrences among the options: enough items for every blank, and no
    item more for an option that is also an answer. *)
Theorem allItems_frequency (random : nat → string) (answers options : list string)
  (t : string) :
  occurrences t (map text (allItems random answers options))
  = Nat.max (occurrences t answers) (occurrences t options).
Proof. rewrite map_text_allItems. apply occurrences_merged. Qed.

(** X2.  Whatever texts the random generator draws, the ids of the items
    are pairwise distinct and not empty, and [getItemText] on the id of an
    item gives the text of that item. *)
Theorem allItems_ids_distinct (random : nat → string) (answers options : list string) :
  let items := allItems random answers options in
  NoDup (map id items)
  ∧ (∀ i, i ∈ items → truthy (id i) = true)
  ∧ (∀ i, i ∈ items → getItemText items (id i) = text i).
Proof.
  cbv zeta. split; [apply NoDup_ids_allItems|]. split.
  - apply truthy_ids_allItems.
  - intros i Hi. apply getItemText_elem; [apply NoDup_ids_allItems|exact Hi].
Qed.

(** X3.  [handleShowAnswers] in drag mode, on the bank the exercise has
    built from its answers and options: every drop zone of a blank gets an
    item whose text is the answer of the blank, so that the verdict of the
    drag mode is true; the state keeps the placement invariant, and every
    item is in the bank or in a drop zone. *)
Theorem handleShowAnswers_all_correct
  (random : nat → string) (answers options : list string)
  (inputsAllCorrect : bool) (s : state) :
  let items := allItems random answers options in
  let s' := handleShowAnswers items answers s in
  allCorrect Drag inputsAllCorrect items (droppedItems s') answers = true
  ∧ inv s'
  ∧ (∀ i, i ∈ items → held s' (id i)).
Proof.
  cbv zeta.
  pose proof (NoDup_ids_allItems random answers options) as Hnd.
  destruct (fill_answers_spec (allItems random answers options) Hnd answers 0 [] []
              filled_inv_nil) as ([Hused Hzone Hinj Hkeys Hdrop] & Hzones & _).
  { intros t. rewrite used_count_nil, map_text_allItems, occurrences_merged. lia. }
  unfold handleShowAnswers. cbn [allCorrect droppedItems dragItems].
  split; [|split].
  - apply every_dropped_iff. intros i ans Hi.
    destruct (Hzones i ans Hi) as (it & Hin & Hget & Htext).
    exists (id it). split; [exact Hget|]. split.
    + now apply (truthy_ids_allItems random answers options).
    + now rewrite (getItemText_elem _ it Hnd Hin).
  - split; cbn [droppedItems dragItems].
    + exact Hkeys.
    + exact Hinj.
    + intros k t Hk Hin. apply list_elem_of_fmap in Hin as (i & -> & Hi).
      apply list_elem_of_In, filter_In in Hi as [_ Hi].
      apply negb_true_iff in Hi. apply Hused in Hk. congruence.
    + intros k Hk. destruct (Hdrop k Hk) as (j & _ & ->). apply truthy_dropId.
  - intros i Hi. unfold held. cbn [droppedItems dragItems].
    destruct (used_has (snd (fill_answers (allItems random answers options) 0 answers [] []))
                (id i)) eqn:E.
    + right. now apply Hzone.
    + left. apply list_elem_of_fmap. exists i. split; [reflexivity|].
      apply list_elem_of_In, filter_In. split; [now apply list_elem_of_In|].
      now rewrite E.
Qed.

(** X4.  Starting with a bank of pairwise distinct, non-empty ids and all
    drop zones empty, after any sequence of drag ends and of clicks on
    words and on drop zones (no pick from the menu of a drop zone), the bank
    has no repetition and the items that are in the bank or in a drop zone
    are exactly the items of the initial bank: none is lost, none appears
    twice. *)
Theorem tokens_conserved (bank : list string) (gs : list (bool * event))
  (Hdistinct : NoDup bank)
  (Hnonempty : ∀ t, t ∈ bank → truthy t = true)
  (Hplain : Forall (plain_gesture bank) gs) :
  let s := run gs (initial bank) in
  NoDup (dragItems s)
  ∧ (∀ t, t ∈ bank ↔ held s t)
  ∧ (∀ t zone, obj_get (droppedItems s) zone = Some t → t ∉ dragItems s)
  ∧ (∀ t zone1 zone2, obj_get (droppedItems s) zone1 = Some t →
       obj_get (droppedItems s) zone2 = Some t → zone1 = zone2).
Proof.
  cbv zeta.
  destruct (tracked_run bank gs Hnonempty Hplain (initial bank) (tracked_initial bank Hdistinct))
    as [[Hinv Hnd Hheld] _].
  split; [exact Hnd|]. split; [exact Hheld|]. split.
  - intros t zone. apply (inv_disj _ Hinv).
  - intros t zone1 zone2. apply (inv_inj _ Hinv).
Qed.

(** Two items: the first is dragged to zone 0, the second is selected and
    put on zone 0 by a click; the first is back in the bank. *)
Lemma tokens_conserved_witness :
  let bank := ["item-0-a"; "item-1-b"] in
  let s := run [(false, DragEnd "item-0-a" (Some 0));
                (false, WordClick "item-1-b");
                (false, DropZoneClick 0)] (initial bank) in
  dragItems s = ["item-0-a"]
  ∧ NoDup (dragItems s)
  ∧ (∀ t, t ∈ bank ↔ held s t).
Proof.
  intros bank s. split; [reflexivity|].
  assert (NoDup bank) as Hd.
  { apply NoDup_cons. split; [|apply NoDup_singleton].
    intros H. apply list_elem_of_singleton in H. discriminate. }
  assert (∀ t, t ∈ bank → truthy t = true) as Hn.
  { intros t H. apply elem_of_cons in H as [->|H]; [reflexivity|].
    apply list_elem_of_singleton in H. now subst t. }
  assert (Forall (plain_gesture bank)
            [(false, DragEnd "item-0-a" (Some 0));
             (false, WordClick "item-1-b");
             (false, DropZoneClick 0)]) as Hp.
  { repeat apply Forall_cons_2; try apply Forall_nil_2.
    - apply list_elem_of_here.
    - apply list_elem_of_further, list_elem_of_here.
    - exact I. }
  destruct (tokens_conserved bank _ Hd Hn Hp) as (H1 & H2 & _).
  split; [exact H1|exact H2].
Defined.

End ItemBank.

(** ** The progress ledger in local storage
    (utils/progressStorage, context/ProgressContext.tsx) *)

Module Storage.
Import JsString JsNumber Progress.

Local Open Scope Z_scope.

(** What [getAllProgress] meets under [STORAGE_KEY]: no item (or the empty
    text), the JSON text of an object whose own properties are exercise
    records, given by the entries [Object.entries] lists for it, or a text
    on which [JSON.parse] or [Object.entries] throws. *)
Inductive stored : Type :=
| Absent
| Parsed (entries : ledger)
| Rejected.

(** [getAllProgress]: the entries of the map, in insertion order. *)
Definition getAllProgress (st : stored) : ledger :=
  match st with
  | Parsed entries => entries
  | Absent | Rejected => []
  end.

(** [map.get(k)] *)
Fixpoint map_get (m : ledger) (k : string) : option ExerciseProgress :=
  match m with
  | [] => None
  | (k', v) :: r => if str_eqb k' k then Some v else map_get r k
  end.

(** [map.set(k, v)]: a key of the map keeps its place, a new key goes
    last. *)
Fixpoint map_set (m : ledger) (k : string) (v : ExerciseProgress) : ledger :=
  match m with
  | [] => [(k, v)]
  | (k', v') :: r =>
      if str_eqb k' k then (k', v) :: r else (k', v') :: map_set r k v
  end.

Definition is_digit (c : ascii) : bool :=
  let n := nat_of_ascii c in (48 <=? n)%nat && (n <=? 57)%nat.

(** The value of a text of decimal digits. *)
Fixpoint digits_value (acc : N) (s : string) : option N :=
  match s with
  | EmptyString => Some acc
  | String c r =>
      if is_digit c
      then digits_value (10 * acc + N.of_nat (nat_of_ascii c - 48)) r
      else None
  end.

(** A property key that is an array index: the canonical decimal writing
    of an integer below [2^32 - 1]. *)
Definition array_index (k : string) : option N :=
  match k with
  | EmptyString => None
  | _ =>
      match digits_value 0 k with
      | Some v =>
          if String.eqb (pretty v) k && (v <? 4294967295)%N then Some v else None
      | None => None
      end
  end.

Definition is_index (kv : string * ExerciseProgress) : bool :=
  match array_index (fst kv) with Some _ => true | None => false end.

Definition index_of (kv : string * ExerciseProgress) : N :=
  match array_index (fst kv) with Some v => v | None => 0%N end.

Fixpoint insert_index (e : string * ExerciseProgress) (l : ledger) : ledger :=
  match l with
  | [] => [e]
  | x :: r => if (index_of e <? index_of x)%N then e :: l else x :: insert_index e r
  end.

(** The order in which an object lists its own properties: the array
    indices in ascending order, then the other keys in the order of their
    creation.  This is the order of the entries after the object built by
    [Object.fromEntries] has gone through [JSON.stringify], [JSON.parse] and
    [Object.entries]. *)
Definition own_property_order (l : ledger) : ledger :=
  fold_right insert_index [] (List.filter is_index l)
  ++ List.filter (fun kv => negb (is_index kv)) l.

(** [saveExerciseProgress]; [now] is [Date.now()], [accepted] tells whether
    [localStorage.setItem] returns (it throws when the storage is full or
    closed, and the [catch] leaves the item as it is). *)
Definition saveExerciseProgress (accepted : bool) (now : Z)
  (exerciseId lessonPath : string) (st : stored) : stored :=
  let progress :=
    map_set (getAllProgress st) exerciseId
      {| Progress.exerciseId := exerciseId;
         Progress.lessonPath := lessonPath;
         completed := true;
         lastAttempt := Some now |} in
  if accepted then Parsed (own_property_order progress) else st.

(** [isExerciseCompleted]: [progress.get(exerciseId)?.completed ?? false] *)
Definition isExerciseCompleted (exerciseId : string) (st : stored) : bool :=
  match map_get (getAllProgress st) exerciseId with
  | Some p => completed p
  | None => false
  end.

(** [resetAllProgress]; [accepted] tells whether [localStorage.removeItem]
    returns. *)
Definition resetAllProgress (accepted : bool) (st : stored) : stored :=
  if accepted then Absent else st.

(** [markExerciseComplete] of the progress context, under the deployment
    base [BASE_URL]. *)
Definition markExerciseComplete (BASE_URL : string) (accepted : bool) (now : Z)
  (exerciseId lessonPath : string) (st : stored) : stored :=
  saveExerciseProgress accepted now exerciseId (normalizePath BASE_URL lessonPath) st.

(** [getLessonProgressData] of the progress context *)
Definition getLessonProgressData (lessonPath : string) (totalExercises : Z) (st : stored)
  : LessonProgress :=
  getLessonProgress (getAllProgress st) lessonPath totalExercises.

(** [total > 0 ? Math.round((completed / total) * 100) : 0] *)
Definition percent (done total : Z) : Z :=
  if 0 <? total
  then Math_round (mul (div (of_Z done) (of_Z total)) (of_Z 100))
  else 0.

(** An element of [lessons]: [{ path, exerciseCount }], and [folder] for
    the lessons of [getCourseProgress]. *)
Record lesson := mkLesson {
  lesson_path : string;
  exerciseCount : Z;
  folder : string
}.

(** The three counters of the loop over the lessons. *)
Record tally := mkTally {
  sumExercises : Z;
  sumCompleted : Z;
  lessonsCompleted : Z
}.

(** The body of the loop of [getFolderProgress] and [getCourseProgress]. *)
Definition tally_lesson (progress : ledger) (acc : tally) (l : lesson) : tally :=
  let lessonCompleted := Z.of_nat (length (lessonExercises progress (lesson_path l))) in
  {| sumExercises := sumExercises acc + exerciseCount l;
     sumCompleted := sumCompleted acc + lessonCompleted;
     lessonsCompleted :=
       if (lessonCompleted =? exerciseCount l) && (0 <? exerciseCount l)
       then lessonsCompleted acc + 1
       else lessonsCompleted acc |}.

Definition tally_lessons (progress : ledger) (lessons : list lesson) : tally :=
  fold_left (tally_lesson progress) lessons
    {| sumExercises := 0; sumCompleted := 0; lessonsCompleted := 0 |}.

(** [interface FolderProgress] *)
Record FolderProgress := mkFolderProgress {
  folderPath : string;
  folderTotalLessons : Z;
  folderCompletedLessons : Z;
  folderTotalExercises : Z;
  folderCompletedExercises : Z;
  folderPercentage : Z
}.

(** [getFolderProgress], on the ledger read from storage *)
Definition getFolderProgress (progress : ledger) (path : string) (lessons : list lesson)
  : FolderProgress :=
  let t := tally_lessons progress lessons in
  {| folderPath := path;
     folderTotalLessons := Z.of_nat (length lessons);
     folderCompletedLessons := lessonsCompleted t;
     folderTotalExercises := sumExercises t;
     folderCompletedExercises := sumCompleted t;
     folderPercentage := percent (sumCompleted t) (sumExercises t) |}.

(** [interface CourseProgress] *)
Record CourseProgress := mkCourseProgress {
  totalFolders : Z;
  courseTotalLessons : Z;
  courseCompletedLessons : Z;
  courseTotalExercises : Z;
  courseCompletedExercises : Z;
  coursePercentage : Z
}.

(** [set.add(x)] and [new Set(l)] on strings, in insertion order. *)
Definition folder_add (set : list string) (x : string) : list string :=
  if existsb (fun y => str_eqb y x) set then set else set ++ [x].

Definition folder_set (l : list string) : list string := fold_left folder_add l [].

(** [getCourseProgress], on the ledger read from storage *)
Definition getCourseProgress (progress : ledger) (allLessons : list lesson)
  : CourseProgress :=
  let folders := folder_set (map folder allLessons) in
  let t := tally_lessons progress allLessons in
  {| totalFolders := Z.of_nat (length folders);
     courseTotalLessons := Z.of_nat (length allLessons);
     courseCompletedLessons := lessonsCompleted t;
     courseTotalExercises := sumExercises t;
     courseCompletedExercises := sumCompleted t;
     coursePercentage := percent (sumCompleted t) (sumExercises t) |}.

(** The keys of a stored object are pairwise distinct. *)
Definition well_formed (st : stored) : Prop := NoDup (map fst (getAllProgress st)).


(** *** Facts on the map and on the order of the keys *)

Lemma map_get_set m k v k' :
  map_get (map_set m k v) k' = if str_eqb k k' then Some v else map_get m k'.
Proof.
  induction m as [|[k0 v0] r IH]; simpl.
  - destruct (str_eqb k k'); reflexivity.
  - destruct (str_eqb k0 k) eqn:E0; simpl.
    + apply str_eqb_eq in E0. subst k0. destruct (str_eqb k k'); reflexivity.
    + rewrite IH. destruct (str_eqb k0 k') eqn:E1; [|reflexivity].
      apply str_eqb_eq in E1. subst k0.
      now rewrite (str_eqb_sym k k'), E0.
Qed.

Lemma map_keys_set m k v :
  ∀ x, x ∈ map fst (map_set m k v) ↔ x = k ∨ x ∈ map fst m.
Proof.
  induction m as [|[k0 v0] r IH]; intros x; simpl.
  - rewrite list_elem_of_singleton, elem_of_nil. tauto.
  - destruct (str_eqb k0 k) eqn:E0; simpl.
    + apply str_eqb_eq in E0. subst k0. rewrite !elem_of_cons. tauto.
    + rewrite !elem_of_cons, IH. tauto.
Qed.

Lemma map_set_NoDup m k v : NoDup (map fst m) → NoDup (map fst (map_set m k v)).
Proof.
  induction m as [|[k0 v0] r IH]; simpl; intros H.
  - apply NoDup_singleton.
  - apply NoDup_cons in H as [H0 Hr].
    destruct (str_eqb k0 k) eqn:E0; simpl.
    + apply NoDup_cons. now split.
    + apply NoDup_cons. split; [|now apply IH].
      rewrite map_keys_set. intros [->|H]; [|contradiction].
      now rewrite str_eqb_refl in E0.
Qed.

Lemma map_get_Some m k v :
  NoDup (map fst m) → map_get m k = Some v ↔ (k, v) ∈ m.
Proof.
  induction m as [|[k0 v0] r IH]; simpl; intros H.
  - rewrite elem_of_nil. split; [discriminate|contradiction].
  - apply NoDup_cons in H as [H0 Hr]. rewrite elem_of_cons.
    destruct (str_eqb k0 k) eqn:E0.
    + apply str_eqb_eq in E0. subst k0. split.
      * intros [= ->]. now left.
      * intros [[= ->]|Hin]; [reflexivity|].
        exfalso. apply H0. apply list_elem_of_fmap. now exists (k, v).
    + apply str_eqb_neq in E0. rewrite (IH Hr). split; [tauto|].
      intros [[= -> ->]|Hin]; [contradiction|exact Hin].
Qed.

Lemma map_get_Permutation m m' k :
  m ≡ₚ m' → NoDup (map fst m) → map_get m k = map_get m' k.
Proof.
  intros Hp Hnd.
  assert (NoDup (map fst m')) as Hnd' by now rewrite <- Hp.
  destruct (map_get m k) as [v|] eqn:E.
  - symmetry. apply (map_get_Some m' k v Hnd'). rewrite <- Hp.
    now apply (map_get_Some m k v Hnd).
  - destruct (map_get m' k) as [v|] eqn:E'; [|reflexivity].
    apply (map_get_Some m' k v Hnd') in E'. rewrite <- Hp in E'.
    apply (map_get_Some m k v Hnd) in E'. congruence.
Qed.

Lemma insert_index_Permutation e l : insert_index e l ≡ₚ e :: l.
Proof.
  induction l as [|x r IH]; [reflexivity|]. simpl.
  destruct (index_of e <? index_of x)%N; [reflexivity|].
  rewrite IH. apply Permutation_swap.
Qed.

Lemma sort_index_Permutation l : fold_right insert_index [] l ≡ₚ l.
Proof.
  induction l as [|x r IH]; [reflexivity|]. simpl.
  now rewrite insert_index_Permutation, IH.
Qed.

Lemma filter_split_Permutation {A} (p : A → bool) (l : list A) :
  List.filter p l ++ List.filter (fun x => negb (p x)) l ≡ₚ l.
Proof.
  induction l as [|x r IH]; [reflexivity|]. simpl.
  destruct (p x); simpl.
  - now rewrite IH.
  - rewrite <- Permutation_middle. now rewrite IH.
Qed.

Lemma own_property_order_Permutation l : own_property_order l ≡ₚ l.
Proof.
  unfold own_property_order. rewrite sort_index_Permutation.
  apply filter_split_Permutation.
Qed.

Lemma completed_entries_Permutation m m' q :
  m ≡ₚ m' → completed_entries m q = completed_entries m' q.
Proof.
  induction 1 as [|[k p] l l' _ IH|[k p] [k' p'] l|l l' l'' _ IH1 _ IH2].
  - reflexivity.
  - simpl. now rewrite IH.
  - simpl. destruct (completed p), (completed p'),
      (String.eqb (lessonPath p) q), (String.eqb (lessonPath p') q); reflexivity.
  - congruence.
Qed.

(** What an entry adds to the count of the lesson [q]. *)
Definition counts_for (q : string) (p : option ExerciseProgress) : nat :=
  match p with
  | Some p => if completed p && String.eqb (lessonPath p) q then 1%nat else 0%nat
  | None => 0%nat
  end.

Lemma completed_entries_cons k p m q :
  completed_entries ((k, p) :: m) q
  = (counts_for q (Some p) + completed_entries m q)%nat.
Proof.
  simpl. now destruct (completed p), (String.eqb (lessonPath p) q).
Qed.

Lemma completed_entries_set m k v q :
  (completed_entries (map_set m k v) q + counts_for q (map_get m k)
   = completed_entries m q + counts_for q (Some v))%nat.
Proof.
  induction m as [|[k0 v0] r IH].
  - cbn [map_set map_get]. rewrite completed_entries_cons. simpl. lia.
  - cbn [map_set map_get]. destruct (str_eqb k0 k) eqn:E0.
    + rewrite !completed_entries_cons. lia.
    + rewrite !completed_entries_cons. lia.
Qed.


Lemma well_formed_save st now exerciseId lessonPath :
  well_formed st →
  well_formed (saveExerciseProgress true now exerciseId lessonPath st).
Proof.
  unfold well_formed. intros H. cbn [saveExerciseProgress getAllProgress].
  rewrite own_property_order_Permutation. now apply map_set_NoDup.
Qed.

Lemma map_get_save st now exerciseId lessonPath k :
  well_formed st →
  map_get (getAllProgress (saveExerciseProgress true now exerciseId lessonPath st)) k
  = if str_eqb exerciseId k
    then Some {| Progress.exerciseId := exerciseId;
                 Progress.lessonPath := lessonPath;
                 completed := true;
                 lastAttempt := Some now |}
    else map_get (getAllProgress st) k.
Proof.
  intros H. cbn [saveExerciseProgress getAllProgress].
  rewrite (map_get_Permutation _ (map_set (getAllProgress st) exerciseId
            {| Progress.exerciseId := exerciseId;
               Progress.lessonPath := lessonPath;
               completed := true;
               lastAttempt := Some now |}) k).
  - apply map_get_set.
  - apply own_property_order_Permutation.
  - rewrite own_property_order_Permutation. now apply map_set_NoDup.
Qed.

Lemma completed_entries_save st now exerciseId lessonPath q :
  (completed_entries
     (getAllProgress (saveExerciseProgress true now exerciseId lessonPath st)) q
   + counts_for q (map_get (getAllProgress st) exerciseId)
   = completed_entries (getAllProgress st) q
     + (if String.eqb lessonPath q then 1 else 0))%nat.
Proof.
  cbn [saveExerciseProgress getAllProgress].
  rewrite (completed_entries_Permutation _ _ q (own_property_order_Permutation _)).
  rewrite completed_entries_set. reflexivity.
Qed.

(** The sum of a list of integers. *)
Definition Zsum (l : list Z) : Z := fold_right Z.add 0 l.

(** The test of the loop: the lesson has exercises and as many completed
    entries as exercises. *)
Definition lesson_done (progress : ledger) (l : lesson) : bool :=
  (Z.of_nat (completed_entries progress (lesson_path l)) =? exerciseCount l)
  && (0 <? exerciseCount l).

Lemma Zsum_cons x l : Zsum (x :: l) = x + Zsum l.
Proof. reflexivity. Qed.

Lemma tally_from progress lessons : ∀ acc,
  let t := fold_left (tally_lesson progress) lessons acc in
  sumExercises t = sumExercises acc + Zsum (map exerciseCount lessons)
  ∧ sumCompleted t
    = sumCompleted acc
      + Zsum (map (fun l => Z.of_nat (completed_entries progress (lesson_path l))) lessons)
  ∧ lessonsCompleted t
    = lessonsCompleted acc
      + Z.of_nat (length (List.filter (lesson_done progress) lessons)).
Proof.
  induction lessons as [|l lessons IH]; intros acc.
  - simpl. lia.
  - cbn [fold_left]. cbv zeta in IH |- *.
    destruct (IH (tally_lesson progress acc l)) as (H1 & H2 & H3).
    rewrite H1, H2, H3. unfold tally_lesson.
    cbn [sumExercises sumCompleted lessonsCompleted map List.filter].
    rewrite !Zsum_cons, length_lessonExercises.
    fold (lesson_done progress l).
    split; [lia|]. split; [lia|].
    destruct (lesson_done progress l); cbn [length]; lia.
Qed.

Lemma folder_add_elem set x y : y ∈ folder_add set x ↔ y ∈ set ∨ y = x.
Proof.
  unfold folder_add. destruct (existsb _ set) eqn:E.
  - split; [now left|]. intros [H| ->]; [exact H|].
    apply existsb_exists in E as (z & Hz & Hzx). apply str_eqb_eq in Hzx. subst z.
    now apply list_elem_of_In.
  - rewrite elem_of_app, list_elem_of_singleton. tauto.
Qed.

Lemma folder_add_NoDup set x : NoDup set → NoDup (folder_add set x).
Proof.
  intros H. unfold folder_add. destruct (existsb _ set) eqn:E; [exact H|].
  apply NoDup_app. split; [exact H|]. split; [|apply NoDup_singleton].
  intros y Hy Hx. apply list_elem_of_singleton in Hx. subst y.
  assert (existsb (fun y => str_eqb y x) set = true) as Ht; [|congruence].
  apply existsb_exists. exists x. split; [now apply list_elem_of_In|apply str_eqb_refl].
Qed.

Lemma folder_set_from l : ∀ set,
  NoDup set →
  NoDup (fold_left folder_add l set)
  ∧ ∀ y, y ∈ fold_left folder_add l set ↔ y ∈ set ∨ y ∈ l.
Proof.
  induction l as [|a l IH]; intros set Hset; simpl.
  - split; [exact Hset|]. intros y. rewrite elem_of_nil. tauto.
  - destruct (IH (folder_add set a) (folder_add_NoDup set a Hset)) as [Hnd Hel].
    split; [exact Hnd|]. intros y. rewrite Hel, folder_add_elem, elem_of_cons. tauto.
Qed.

(** *** The properties *)

(** X5.  On a stored object with pairwise distinct keys, after
    [saveExerciseProgress] has written, [isExerciseCompleted] holds of the
    exercise saved and is unchanged for every other exercise id; the keys
    stay pairwise distinct; after [resetAllProgress] no exercise is
    completed. *)
Theorem saveExerciseProgress_round_trip
  (st : stored) (now : Z) (exerciseId lessonPath : string)
  (Hkeys : well_formed st) :
  let st' := saveExerciseProgress true now exerciseId lessonPath st in
  isExerciseCompleted exerciseId st' = true
  ∧ (∀ other, other ≠ exerciseId →
       isExerciseCompleted other st' = isExerciseCompleted other st)
  ∧ well_formed st'
  ∧ (∀ other, isExerciseCompleted other (resetAllProgress true st') = false).
Proof.
  cbv zeta. unfold isExerciseCompleted. split; [|split; [|split]].
  - now rewrite map_get_save, str_eqb_refl.
  - intros other Hne. rewrite map_get_save by exact Hkeys.
    apply not_eq_sym, str_eqb_neq in Hne. now rewrite Hne.
  - now apply well_formed_save.
  - reflexivity.
Qed.

Lemma saveExerciseProgress_round_trip_witness :
  let st := saveExerciseProgress true 1 "/A1/Lesson1:Quiz:48504" "/A1/Lesson1" Rejected in
  let st' := saveExerciseProgress true 2 "7" "/A1/Lesson2" st in
  isExerciseCompleted "7" st' = true
  ∧ isExerciseCompleted "/A1/Lesson1:Quiz:48504" st' = true
  ∧ map fst (getAllProgress st') = ["7"; "/A1/Lesson1:Quiz:48504"].
Proof.
  intros st st'.
  assert (well_formed st) as Hst.
  { apply (well_formed_save Rejected). apply NoDup_nil_2. }
  destruct (saveExerciseProgress_round_trip st 2 "7" "/A1/Lesson2" Hst) as (H1 & H2 & _).
  split; [exact H1|]. split; [|reflexivity].
  rewrite H2 by discriminate. reflexivity.
Defined.

(** X6.  A save changes the number of completed entries of a lesson by what
    the new entry adds to it less what the entry the exercise had before
    added to it: an exercise counts once.  Saving the same exercise again
    for the same lesson changes no count. *)
Theorem saveExerciseProgress_counts_once
  (st : stored) (now : Z) (exerciseId lessonPath queried : string)
  (Hkeys : well_formed st) :
  let st' := saveExerciseProgress true now exerciseId lessonPath st in
  (completed_entries (getAllProgress st') queried
   + counts_for queried (map_get (getAllProgress st) exerciseId)
   = completed_entries (getAllProgress st) queried
     + (if String.eqb lessonPath queried then 1 else 0))%nat
  ∧ (map_get (getAllProgress st) exerciseId = None →
     completed_entries (getAllProgress st') queried
     = (completed_entries (getAllProgress st) queried
        + (if String.eqb lessonPath queried then 1 else 0))%nat)
  ∧ (∀ now',
       completed_entries
         (getAllProgress (saveExerciseProgress true now' exerciseId lessonPath st')) queried
       = completed_entries (getAllProgress st') queried).
Proof.
  cbv zeta. split; [apply completed_entries_save|]. split.
  - intros Hnew. pose proof (completed_entries_save st now exerciseId lessonPath queried) as H.
    rewrite Hnew in H. cbn [counts_for] in H. lia.
  - intros now'.
    pose proof (completed_entries_save
                  (saveExerciseProgress true now exerciseId lessonPath st)
                  now' exerciseId lessonPath queried) as H.
    rewrite map_get_save, str_eqb_refl in H by exact Hkeys.
    cbn [counts_for completed Progress.lessonPath andb] in H. lia.
Qed.

Ltac evaluate_count H :=
  match type of H with
  | (?x + ?a = ?b + ?c)%nat =>
      let a' := eval vm_compute in a in
      let b' := eval vm_compute in b in
      let c' := eval vm_compute in c in
      change (x + a' = b' + c')%nat in H
  end.

Lemma saveExerciseProgress_counts_once_witness :
  let st := Parsed stale_ledger in
  completed_entries
    (getAllProgress (saveExerciseProgress true 5 "l" "/A1/Lesson1" st)) "/A1/Lesson1"
  = 11%nat
  ∧ completed_entries
      (getAllProgress (saveExerciseProgress true 5 "a" "/A1/Lesson1" st)) "/A1/Lesson1"
    = 10%nat
  ∧ completed_entries
      (getAllProgress (saveExerciseProgress true 5 "a" "/A1/Lesson2" st)) "/A1/Lesson1"
    = 9%nat.
Proof.
  intros st.
  assert (well_formed st) as Hst.
  { unfold well_formed. cbn. apply (proj2 (NoDup_ListNoDup _)).
    repeat (constructor; [cbn; intuition discriminate|]). constructor. }
  split; [|split].
  - pose proof (proj1 (saveExerciseProgress_counts_once st 5 "l" "/A1/Lesson1"
                         "/A1/Lesson1" Hst)) as H.
    remember (completed_entries (getAllProgress (saveExerciseProgress _ _ _ _ _)) _) as x.
    clear Heqx. evaluate_count H. lia.
  - pose proof (proj1 (saveExerciseProgress_counts_once st 5 "a" "/A1/Lesson1"
                         "/A1/Lesson1" Hst)) as H.
    remember (completed_entries (getAllProgress (saveExerciseProgress _ _ _ _ _)) _) as x.
    clear Heqx. evaluate_count H. lia.
  - pose proof (proj1 (saveExerciseProgress_counts_once st 5 "a" "/A1/Lesson2"
                         "/A1/Lesson1" Hst)) as H.
    remember (completed_entries (getAllProgress (saveExerciseProgress _ _ _ _ _)) _) as x.
    clear Heqx. evaluate_count H. lia.
Defined.


(** X7.  Under a deployment base [/name/], [markExerciseComplete] called
    with a pathname below the base files the exercise under the path the
    lesson has under the root: for an exercise not recorded before, the
    number of completed entries of that path grows by one, the number of
    every other path (the pathname itself included, when it differs) stays,
    and the lesson progress queried under the root path reports the new
    entry, up to the cap. *)
Theorem markExerciseComplete_files_normalized
  (name rest : string) (st : stored) (now : Z) (exerciseId : string)
  (Hrest : startsWith rest "/" = false)
  (Hnew : map_get (getAllProgress st) exerciseId = None) :
  let base := "/" +:+ name +:+ "/" in
  let st' := markExerciseComplete base true now exerciseId (base +:+ rest) st in
  completed_entries (getAllProgress st') ("/" +:+ rest)
  = S (completed_entries (getAllProgress st) ("/" +:+ rest))
  ∧ (∀ q, q ≠ "/" +:+ rest →
       completed_entries (getAllProgress st') q = completed_entries (getAllProgress st) q)
  ∧ (∀ n,
       completedExercises (getLessonProgressData ("/" +:+ rest) n st')
       = Z.min (Z.of_nat (S (completed_entries (getAllProgress st) ("/" +:+ rest)))) n).
Proof.
  cbv zeta. unfold markExerciseComplete.
  rewrite (proj1 (normalizePath_strips_base name rest Hrest)).
  assert (∀ q, completed_entries
                 (getAllProgress (saveExerciseProgress true now exerciseId ("/" +:+ rest) st)) q
               = (completed_entries (getAllProgress st) q
                  + (if String.eqb ("/" +:+ rest) q then 1 else 0))%nat) as Hcount.
  { intros q. pose proof (completed_entries_save st now exerciseId ("/" +:+ rest) q) as H.
    rewrite Hnew in H. cbn [counts_for] in H. lia. }
  split; [|split].
  - rewrite Hcount, String.eqb_refl. lia.
  - intros q Hq. rewrite Hcount.
    apply not_eq_sym, String.eqb_neq in Hq. rewrite Hq. lia.
  - intros n. unfold getLessonProgressData, getLessonProgress.
    cbn [completedExercises]. rewrite length_lessonExercises, Hcount, String.eqb_refl.
    f_equal. lia.
Qed.

Lemma markExerciseComplete_files_normalized_witness :
  let st := markExerciseComplete "/telc/" true 1 "/A1/Lesson1:Quiz:48504"
              "/telc/A1/Lesson1" Absent in
  completed_entries (getAllProgress st) "/A1/Lesson1" = 1%nat
  ∧ completed_entries (getAllProgress st) "/telc/A1/Lesson1" = 0%nat
  ∧ completedExercises (getLessonProgressData "/A1/Lesson1" 3 st) = 1.
Proof.
  intros st.
  destruct (markExerciseComplete_files_normalized "telc" "A1/Lesson1" Absent 1
              "/A1/Lesson1:Quiz:48504" eq_refl eq_refl) as (H1 & H2 & H3).
  split; [exact H1|]. split; [|exact (H3 3)].
  apply (H2 "/telc/A1/Lesson1"). discriminate.
Defined.

Lemma Zsum_nonneg l : (∀ x, x ∈ l → 0 ≤ x) → 0 ≤ Zsum l.
Proof.
  induction l as [|a l IH]; intros H; [reflexivity|].
  rewrite Zsum_cons.
  pose proof (H a (list_elem_of_here _ _)).
  assert (0 ≤ Zsum l) by (apply IH; intros x Hx; apply H; now apply list_elem_of_further).
  lia.
Qed.

Lemma Zsum_le_pointwise {A} (f g : A → Z) (l : list A) :
  (∀ x, x ∈ l → f x ≤ g x) → Zsum (map f l) ≤ Zsum (map g l).
Proof.
  induction l as [|a l IH]; intros H; [reflexivity|].
  cbn [map]. rewrite !Zsum_cons.
  pose proof (H a (list_elem_of_here _ _)).
  assert (Zsum (map f l) ≤ Zsum (map g l))
    by (apply IH; intros x Hx; apply H; now apply list_elem_of_further).
  lia.
Qed.

Lemma Zsum_ext_in {A} (f g : A → Z) (l : list A) :
  (∀ x, x ∈ l → f x = g x) → Zsum (map f l) = Zsum (map g l).
Proof.
  induction l as [|a l IH]; intros H; [reflexivity|].
  cbn [map]. rewrite !Zsum_cons, (H a (list_elem_of_here _ _)), IH; [reflexivity|].
  intros x Hx. apply H. now apply list_elem_of_further.
Qed.

(** X8.  [getFolderProgress] adds up, over the lessons it is given, the
    exercise counts and the numbers of completed entries (not capped by the
    count of the lesson), and counts as completed the lessons that have
    exercises and exactly as many completed entries as exercises; completed
    lessons never exceed the lessons.  When no lesson has more completed
    entries than exercises, the completed exercises of the folder are the
    sum of what [getLessonProgress] reports for its lessons, and at most
    the total. *)
Theorem getFolderProgress_totals
  (progress : ledger) (path : string) (lessons : list lesson) :
  let r := getFolderProgress progress path lessons in
  let entries := fun l => Z.of_nat (completed_entries progress (lesson_path l)) in
  folderTotalExercises r = Zsum (map exerciseCount lessons)
  ∧ folderCompletedExercises r = Zsum (map entries lessons)
  ∧ folderCompletedLessons r
    = Z.of_nat (length (List.filter
                          (fun l => (entries l =? exerciseCount l) && (0 <? exerciseCount l))
                          lessons))
  ∧ 0 ≤ folderCompletedLessons r ≤ folderTotalLessons r
  ∧ folderPercentage r
    = (if 0 <? folderTotalExercises r
       then Math_round (mul (div (of_Z (folderCompletedExercises r))
                                 (of_Z (folderTotalExercises r))) (of_Z 100))
       else 0)
  ∧ ((∀ l, l ∈ lessons → entries l ≤ exerciseCount l) →
     folderCompletedExercises r
     = Zsum (map (fun l => completedExercises
                             (getLessonProgress progress (lesson_path l) (exerciseCount l)))
                 lessons)
     ∧ 0 ≤ folderCompletedExercises r ≤ folderTotalExercises r).
Proof.
  cbv zeta. unfold getFolderProgress, tally_lessons.
  cbn [folderTotalExercises folderCompletedExercises folderCompletedLessons
       folderTotalLessons folderPercentage].
  destruct (tally_from progress lessons
              {| sumExercises := 0; sumCompleted := 0; lessonsCompleted := 0 |})
    as (H1 & H2 & H3).
  cbv zeta in H1, H2, H3. cbn [sumExercises sumCompleted lessonsCompleted] in H1, H2, H3.
  rewrite H1, H2, H3, !Z.add_0_l.
  split; [reflexivity|]. split; [reflexivity|]. split; [reflexivity|]. split.
  - split; [lia|]. apply inj_le. apply List.filter_length_le.
  - split; [reflexivity|]. intros Hle. split.
    + apply Zsum_ext_in. intros l Hl. unfold getLessonProgress.
      cbn [completedExercises]. rewrite length_lessonExercises.
      specialize (Hle l Hl). lia.
    + split.
      * apply Zsum_nonneg. intros x Hx. apply list_elem_of_fmap in Hx as (l & -> & _). lia.
      * now apply Zsum_le_pointwise.
Qed.

(** One lesson of six exercises with ten completed entries in storage:
    the lesson progress is capped at 6 of 6, the folder reports 10 of 6, no
    completed lesson and 167 percent.  Without the surplus the two agree. *)
Lemma getFolderProgress_totals_witness :
  let surplus := getFolderProgress stale_ledger "/A1" [mkLesson "/A1/Lesson1" 6 "A1"] in
  let exact := getFolderProgress stale_ledger "/A1" [mkLesson "/A1/Lesson1" 10 "A1";
                                                      mkLesson "/A1/Lesson2" 4 "A1"] in
  completedExercises (getLessonProgress stale_ledger "/A1/Lesson1" 6) = 6
  ∧ folderCompletedExercises surplus = 10
  ∧ folderTotalExercises surplus = 6
  ∧ folderCompletedLessons surplus = 0
  ∧ folderPercentage surplus = 167
  ∧ folderCompletedExercises exact = 11
  ∧ folderCompletedLessons exact = 1
  ∧ 0 ≤ folderCompletedExercises exact ≤ folderTotalExercises exact.
Proof.
  intros surplus exact. repeat (split; [reflexivity|]).
  destruct (getFolderProgress_totals stale_ledger "/A1"
              [mkLesson "/A1/Lesson1" 10 "A1"; mkLesson "/A1/Lesson2" 4 "A1"])
    as (_ & _ & _ & _ & _ & H).
  apply H. intros l Hl.
  apply elem_of_cons in Hl as [->|Hl]; [vm_compute; discriminate|].
  apply list_elem_of_singleton in Hl. subst l. vm_compute. discriminate.
Defined.

Lemma folder_set_length l : ∀ set,
  (length (fold_left folder_add l set) ≤ length set + length l)%nat.
Proof.
  induction l as [|a l IH]; intros set; simpl; [lia|].
  specialize (IH (folder_add set a)).
  assert (length (folder_add set a) ≤ S (length set))%nat.
  { unfold folder_add. destruct (existsb _ set); [lia|].
    rewrite length_app. simpl. lia. }
  lia.
Qed.

(** X9.  [getCourseProgress] reports as [totalFolders] the number of
    distinct folder names among the lessons, never more than the lessons;
    its exercise totals are the sums over all the lessons, and a lesson is
    counted as completed under the same test as in a folder. *)
Theorem getCourseProgress_totals (progress : ledger) (allLessons : list lesson) :
  let c := getCourseProgress progress allLessons in
  let entries := fun l => Z.of_nat (completed_entries progress (lesson_path l)) in
  (∃ folders,
      NoDup folders
      ∧ (∀ x, x ∈ folders ↔ ∃ l, l ∈ allLessons ∧ folder l = x)
      ∧ totalFolders c = Z.of_nat (length folders))
  ∧ 0 ≤ totalFolders c ≤ courseTotalLessons c
  ∧ courseTotalExercises c = Zsum (map exerciseCount allLessons)
  ∧ courseCompletedExercises c = Zsum (map entries allLessons)
  ∧ courseCompletedLessons c
    = Z.of_nat (length (List.filter
                          (fun l => (entries l =? exerciseCount l) && (0 <? exerciseCount l))
                          allLessons))
  ∧ 0 ≤ courseCompletedLessons c ≤ courseTotalLessons c.
Proof.
  cbv zeta. unfold getCourseProgress, tally_lessons.
  cbn [totalFolders courseTotalLessons courseCompletedLessons courseTotalExercises
       courseCompletedExercises].
  destruct (tally_from progress allLessons
              {| sumExercises := 0; sumCompleted := 0; lessonsCompleted := 0 |})
    as (H1 & H2 & H3).
  cbv zeta in H1, H2, H3. cbn [sumExercises sumCompleted lessonsCompleted] in H1, H2, H3.
  rewrite H1, H2, H3, !Z.add_0_l.
  destruct (folder_set_from (map folder allLessons) [] NoDup_nil_2) as [Hnd Hel].
  split; [|split; [|split; [|split; [|split]]]]; try reflexivity.
  - exists (folder_set (map folder allLessons)). split; [exact Hnd|]. split; [|reflexivity].
    intros x. unfold folder_set. rewrite Hel, elem_of_nil, list_elem_of_fmap.
    split.
    + intros [[]|(l & -> & Hl)]. now exists l.
    + intros (l & Hl & <-). right. now exists l.
  - split; [lia|]. apply inj_le.
    pose proof (folder_set_length (map folder allLessons) []) as H.
    simpl in H. now rewrite length_map in H.
  - split; [lia|]. apply inj_le. apply List.filter_length_le.
Qed.

End Storage.

(** ** The validation status of a blank (hooks/useBlanks.tsx, renderContent) *)

Module BlankStatus.
Import JsString JsArray Blanks.

(** [status.isCorrect] of the blank [index] *)
Definition isCorrect (s : state) (index : nat) (answer : string) : bool :=
  str_eqb (toLowerCase (trim (value_at (inputs s) index))) (toLowerCase answer).

(** [status.showValidation] *)
Definition showValidation (s : state) (index : nat) : bool :=
  submitted s
  || (flag_at (touched s) index
      && negb (str_eqb (trim (value_at (inputs s) index)) EmptyString)).

(** [isPartialMatch] *)
Definition isPartialMatch (s : state) (index : nat) (answer : string) : bool :=
  (0 <? String.length (trim (value_at (inputs s) index)))
  && startsWith (toLowerCase answer) (toLowerCase (trim (value_at (inputs s) index))).

(** *** The memoised [renderContent]

    [renderContent] is a [useCallback] on [children, blanksData, inputs,
    submitted, touched]: a render in which none of these has changed keeps
    the callback of the render before it, with the cells that one read,
    [blurred] among them.  The children are the same at every render of a
    mount, and so are the blanks.  A state setter that is given a new array
    changes the cell; [setSubmitted] changes it when the value differs. *)

(** The hook after a render: its cells, and the cells of the render in
    which the [renderContent] it returns was created. *)
Record hook := mkHook {
  cells : state;
  callback : state
}.

Definition mount_hook (answers : list string) : hook :=
  {| cells := mount answers; callback := mount answers |}.

(** Whether the render after the event [e], handled with the cells [s],
    creates the callback anew. *)
Definition rebuilds (e : event) (s : state) : bool :=
  match e with
  | SetValue _ _ => true
  | Blur _ => false
  | CheckAll => negb (submitted s)
  | RevealOne _ => true
  | RevealAll => true
  | Reset => true
  end.

(** An event and the render after it. *)
Definition hook_step (answers : list string) (h : hook) (e : event) : hook :=
  let s' := step answers (cells h) e in
  {| cells := s'; callback := if rebuilds e (cells h) then s' else callback h |}.

Definition hook_run (answers : list string) (evs : list event) (h : hook) : hook :=
  fold_left (hook_step answers) evs h.

(** [status.isWrong] of the blank [index], as the [renderContent] the hook
    returns computes it. *)
Definition status_isWrong (h : hook) (index : nat) (answer : string) : bool :=
  isWrong (callback h) index answer.

(** *** Facts *)

Lemma isWrong_status s index answer :
  isWrong s index answer
  = showValidation s index && negb (isCorrect s index answer)
    && (submitted s || (negb (isPartialMatch s index answer) || flag_at (blurred s) index)).
Proof. reflexivity. Qed.

Lemma assign_lookup {A} (a : list (slot A)) i x : assign a i x !! i = Some x.
Proof.
  unfold assign. destruct (i <? length a) eqn:E.
  - apply Nat.ltb_lt in E. now apply list_lookup_insert_eq.
  - apply Nat.ltb_ge in E.
    rewrite lookup_app_r by exact E.
    rewrite lookup_app_r by (rewrite length_replicate; lia).
    rewrite length_replicate.
    now replace (i - length a - (i - length a)) with 0 by lia.
Qed.

Lemma value_at_assign ins i v : value_at (assign ins i (Value v)) i = v.
Proof. unfold value_at. now rewrite assign_lookup. Qed.

Lemma flag_at_assign flags i b : flag_at (assign flags i (Value b)) i = b.
Proof. unfold flag_at. now rewrite assign_lookup. Qed.

Lemma startsWith_refl s : startsWith s s = true.
Proof. induction s as [|c s IH]; [reflexivity|]. simpl. now rewrite chr_eqb_refl. Qed.

Lemma length_pos_nonempty s : (0 <? String.length s) = negb (str_eqb s EmptyString).
Proof. now destruct s. Qed.

Lemma spread_lookup {A} (a : list (slot A)) i :
  spread a !! i = (fun x => match x with Hole => Undefined | _ => x end) <$> a !! i.
Proof. unfold spread. apply list_lookup_fmap. Qed.

Lemma assign_lookup_ne {A} (a : list (slot A)) i j x :
  i ≠ j →
  assign a j x !! i = if i <? length a then a !! i
                      else if i <? j then Some Hole else None.
Proof.
  intros Hne. unfold assign. destruct (Nat.ltb_spec j (length a)) as [Hj|Hj].
  - rewrite list_lookup_insert_ne by congruence.
    destruct (Nat.ltb_spec i (length a)) as [Hi|Hi]; [reflexivity|].
    rewrite lookup_ge_None_2 by lia.
    destruct (Nat.ltb_spec i j); [lia|reflexivity].
  - destruct (Nat.ltb_spec i (length a)) as [Hi|Hi].
    + now rewrite lookup_app_l by lia.
    + rewrite lookup_app_r by lia.
      destruct (Nat.ltb_spec i j) as [Hij|Hij].
      * rewrite lookup_app_l by (rewrite length_replicate; lia).
        apply lookup_replicate_2. lia.
      * rewrite lookup_app_r by (rewrite length_replicate; lia).
        rewrite length_replicate. apply lookup_ge_None_2. simpl. lia.
Qed.

(** Writing at one index leaves the value read at another. *)
Lemma value_at_assign_ne ins i j x :
  i ≠ j → value_at (assign (spread ins) j x) i = value_at ins i.
Proof.
  intros Hne. unfold value_at. rewrite (assign_lookup_ne _ i j x Hne).
  unfold spread at 1. rewrite length_map.
  destruct (Nat.ltb_spec i (length ins)) as [Hi|Hi].
  - rewrite spread_lookup. destruct (ins !! i) as [[| |v]|]; reflexivity.
  - rewrite (lookup_ge_None_2 ins i) by lia. now destruct (i <? j).
Qed.

Lemma flag_at_assign_ne flags i j x :
  i ≠ j → flag_at (assign (spread flags) j x) i = flag_at flags i.
Proof.
  intros Hne. unfold flag_at. rewrite (assign_lookup_ne _ i j x Hne).
  unfold spread at 1. rewrite length_map.
  destruct (Nat.ltb_spec i (length flags)) as [Hi|Hi].
  - rewrite spread_lookup. destruct (flags !! i) as [[| |v]|]; reflexivity.
  - rewrite (lookup_ge_None_2 flags i) by lia. now destruct (i <? j).
Qed.

(** The callback in use has read the inputs, the touched flags and
    [submitted] of the present render: only its [blurred] can be old. *)
Record fresh (h : hook) : Prop := mkFresh {
  fresh_inputs : inputs (callback h) = inputs (cells h);
  fresh_touched : touched (callback h) = touched (cells h);
  fresh_submitted : submitted (callback h) = submitted (cells h)
}.

Lemma fresh_step answers h e : fresh h → fresh (hook_step answers h e).
Proof.
  intros [Hi Ht Hs]. unfold hook_step. cbv zeta.
  destruct (rebuilds e (cells h)) eqn:E; [now split|].
  destruct e; try discriminate.
  - split; cbn [cells callback step handleBlur inputs touched submitted]; assumption.
  - simpl in E. apply negb_false_iff in E.
    split; cbn [cells callback step checkAnswers inputs touched submitted];
      try assumption. congruence.
Qed.

Lemma fresh_run answers evs : ∀ h, fresh h → fresh (hook_run answers evs h).
Proof.
  induction evs as [|e evs IH]; intros h Hh; [exact Hh|].
  apply IH. now apply fresh_step.
Qed.


(** *** The properties *)

(** X10.  The status [renderContent] hands to the renderer of a blank,
    along any sequence of interactions from the mount.  The callback in use
    has the inputs, the touched flags and [submitted] of the present render.
    Before the exercise is submitted, a blank the learner has just typed
    into has [isWrong] set exactly when the trimmed text is not empty and is
    not, up to case, the beginning of the answer.  The blur of the field
    does not change the status: the callback is not created anew.  When the
    learner then types into another blank, the status of the blank left has
    [isWrong] set exactly when the trimmed text is not empty and is not, up
    to case, the answer.  After [checkAnswers] every blank that is not
    correct has [isWrong] set, whatever was typed or left. *)
Theorem isWrong_timing
  (answers : list string) (evs : list event)
  (index other : nat) (value later answer : string)
  (Hopen : submitted (cells (hook_run answers evs (mount_hook answers))) = false)
  (Hother : other ≠ index) :
  let h := hook_run answers evs (mount_hook answers) in
  let typed := hook_step answers h (SetValue index value) in
  let left := hook_step answers typed (Blur index) in
  let moved := hook_step answers left (SetValue other later) in
  let entered := toLowerCase (trim value) in
  fresh h
  ∧ status_isWrong typed index answer
    = negb (str_eqb (trim value) EmptyString)
      && negb (startsWith (toLowerCase answer) entered)
  ∧ flag_at (blurred (cells left)) index = true
  ∧ status_isWrong left index answer = status_isWrong typed index answer
  ∧ status_isWrong moved index answer
    = negb (str_eqb (trim value) EmptyString)
      && negb (str_eqb entered (toLowerCase answer))
  ∧ (∀ i, status_isWrong (hook_step answers h CheckAll) i answer
          = negb (isCorrect (cells h) i answer))
  ∧ status_isWrong (hook_step answers left CheckAll) index answer
    = negb (str_eqb entered (toLowerCase answer)).
Proof.
  intros h typed left moved entered.
  change (submitted (cells h) = false) in Hopen.
  assert (fresh h) as Hfresh.
  { apply fresh_run. now split. }
  split; [exact Hfresh|].
  assert (∀ t i, submitted t = false →
            isWrong (checkAnswers t) i answer = negb (isCorrect t i answer)) as Hcheck.
  { intros t i _. rewrite isWrong_status. unfold showValidation, isCorrect.
    cbn [checkAnswers submitted inputs]. now rewrite andb_true_r. }
  split; [|split; [|split; [|split; [|split]]]].
  - unfold status_isWrong, typed, hook_step. cbv zeta. cbn [rebuilds callback step].
    rewrite isWrong_status. unfold showValidation, isCorrect, isPartialMatch.
    cbn [handleInputChange submitted inputs touched blurred].
    rewrite Hopen, value_at_assign, !flag_at_assign, length_pos_nonempty.
    destruct (str_eqb (trim value) "") eqn:En; [reflexivity|].
    destruct (str_eqb (toLowerCase (trim value)) (toLowerCase answer)) eqn:Ec.
    + apply str_eqb_eq in Ec. unfold entered. rewrite Ec, startsWith_refl. reflexivity.
    + unfold entered.
      now destruct (startsWith (toLowerCase answer) (toLowerCase (trim value))).
  - unfold left, typed, hook_step. cbv zeta.
    cbn [rebuilds cells callback step handleBlur handleInputChange blurred].
    apply flag_at_assign.
  - reflexivity.
  - unfold status_isWrong, moved, left, typed, hook_step. cbv zeta.
    cbn [rebuilds cells callback step].
    rewrite isWrong_status. unfold showValidation, isCorrect, isPartialMatch.
    cbn [handleBlur handleInputChange submitted inputs touched blurred].
    rewrite Hopen.
    rewrite !(value_at_assign_ne _ index other) by congruence.
    rewrite !(flag_at_assign_ne _ index other) by congruence.
    rewrite value_at_assign, !flag_at_assign.
    destruct (str_eqb (trim value) ""); [reflexivity|].
    cbn [negb andb orb]. now rewrite orb_true_r, andb_true_r.
  - intros i. unfold status_isWrong, hook_step. cbv zeta. cbn [rebuilds callback step].
    rewrite Hopen. cbn [negb]. now apply Hcheck.
  - unfold status_isWrong, left, typed, hook_step. cbv zeta.
    cbn [rebuilds cells callback step handleBlur handleInputChange submitted].
    rewrite Hopen. cbn [negb].
    rewrite Hcheck by (cbn [submitted]; exact Hopen).
    unfold isCorrect. cbn [handleBlur handleInputChange inputs].
    now rewrite value_at_assign.
Qed.

(** The answer "Mann", two blanks: "ma" is tolerated while typing, and
    still after the blur; it is wrong once the learner types into the other
    blank.  "mx" is wrong at once. *)
Lemma isWrong_timing_witness :
  let answers := ["Mann"; "Frau"] in
  let h := mount_hook answers in
  let typed := hook_step answers h (SetValue 0 "ma") in
  let left := hook_step answers typed (Blur 0) in
  let moved := hook_step answers left (SetValue 1 "f") in
  status_isWrong typed 0 "Mann" = false
  ∧ flag_at (blurred (cells left)) 0 = true
  ∧ status_isWrong left 0 "Mann" = false
  ∧ status_isWrong moved 0 "Mann" = true
  ∧ status_isWrong (hook_step answers h (SetValue 0 "mx")) 0 "Mann" = true
  ∧ status_isWrong (hook_step answers left CheckAll) 0 "Mann" = true.
Proof.
  intros answers h typed left moved.
  assert (1 ≠ 0) as Hother by discriminate.
  destruct (isWrong_timing answers [] 0 1 "ma" "f" "Mann" eq_refl Hother)
    as (_ & H1 & H2 & H3 & H4 & _ & H6).
  destruct (isWrong_timing answers [] 0 1 "mx" "f" "Mann" eq_refl Hother)
    as (_ & H5 & _).
  split; [exact H1|]. split; [exact H2|]. split; [exact (eq_trans H3 H1)|].
  split; [exact H4|]. split; [exact H5|exact H6].
Defined.

(** X11.  After [showAllAnswers] the verdict [allCorrect] of the hook is
    true exactly when every answer is, up to case, its own trimmed text: an
    answer written with white space at an end makes the revealed exercise
    count as having errors, and the status of the blank of such an answer
    has [isWrong] set.  The verdict never throws there. *)
Theorem showAllAnswers_verdict (answers : list string) (s : state) :
  let s' := showAllAnswers answers s in
  (allCorrect (inputs s') answers = Some true ↔
   ∀ a, a ∈ answers → toLowerCase (trim a) = toLowerCase a)
  ∧ allCorrect (inputs s') answers ≠ None
  ∧ (∀ i a, answers !! i = Some a →
       isWrong s' i a = negb (str_eqb (toLowerCase (trim a)) (toLowerCase a))).
Proof.
  cbv zeta. cbn [showAllAnswers inputs]. unfold allCorrect.
  destruct (every_correct_dense answers answers 0) as [Hd Hiff]; [simpl; lia|].
  split; [|split].
  - rewrite Hiff. split.
    + intros H a Ha. apply list_elem_of_lookup in Ha as [i Hi].
      now apply (H i a a).
    + intros H i v a Hv Ha. simpl in Ha. rewrite Hv in Ha. injection Ha as <-.
      apply H. now apply list_elem_of_lookup_2 in Hv.
  - destruct Hd as [-> | ->]; discriminate.
  - intros i a Hi. rewrite isWrong_status. unfold showValidation, isCorrect.
    cbn [showAllAnswers submitted inputs]. unfold value_at, dense.
    change (map Value answers) with (Value <$> answers).
    rewrite list_lookup_fmap, Hi. cbn [fmap option_fmap option_map].
    now rewrite andb_true_r.
Qed.

End BlankStatus.

(** ** A session on the rendered quiz (Quiz.tsx) *)

Module QuizSession.
Import JsString Quiz.

Section Rendered.

Variable multiple : bool.
Variable answer : string.
Variable exerciseId : string.
(** [showHints] of the settings *)
Variable showHints : bool.

(** What the rendered quiz lets the learner click: an option at any time;
    the Check button while the quiz is not submitted, enabled when
    something is selected; the Try-again button once it is submitted; the
    Show-answers button when the hints are on. *)
Definition offered (s : state) (e : event) : bool :=
  match e with
  | Select _ => true
  | Submit => negb (submitted s) && negb (length (selected s) =? 0)
  | Reset => submitted s
  | ShowAnswers => showHints
  end.

(** A click: on a control that is not offered it does nothing. *)
Definition click (s : state) (e : event) : state :=
  if offered s e then step multiple answer exerciseId s e else s.

Definition session (evs : list event) : state := fold_left click evs initial.

End Rendered.

Definition is_select (e : event) : bool :=
  match e with Select _ => true | _ => false end.


(** *** Facts *)

Lemma session_snoc multiple answer exerciseId showHints evs e :
  session multiple answer exerciseId showHints (evs ++ [e])
  = click multiple answer exerciseId showHints
      (session multiple answer exerciseId showHints evs) e.
Proof. unfold session. now rewrite fold_left_app. Qed.

Lemma markedComplete_click multiple answer exerciseId showHints s e :
  markedComplete (click multiple answer exerciseId showHints s e)
  = markedComplete s
    || (match e with Submit => true | _ => false end
        && offered showHints s Submit
        && isCorrect (selected s) answer && truthy exerciseId).
Proof.
  unfold click. destruct e as [index| | |]; cbn [offered].
  - cbn [step]. unfold handleSelect. destruct (submitted s); cbn; now rewrite orb_false_r.
  - destruct (negb (submitted s) && negb (length (selected s) =? 0)).
    + cbn [step handleSubmit markedComplete andb].
      destruct (isCorrect (selected s) answer && truthy exerciseId);
        [now rewrite orb_true_r|now rewrite orb_false_r].
    + cbn. now rewrite orb_false_r.
  - destruct (submitted s); cbn; now rewrite orb_false_r.
  - destruct showHints; cbn; now rewrite orb_false_r.
Qed.

(** Without a click on an option, a quiz that is not submitted has nothing
    selected. *)
Lemma unselected_session multiple answer exerciseId showHints evs :
  forallb (fun e => negb (is_select e)) evs = true →
  let s := session multiple answer exerciseId showHints evs in
  markedComplete s = false ∧ (submitted s = false → selected s = []).
Proof.
  induction evs as [|e evs IH] using rev_ind; intros Hevs; [now split|].
  rewrite forallb_app in Hevs. apply andb_true_iff in Hevs as [Hevs He].
  cbv zeta. rewrite session_snoc.
  destruct (IH Hevs) as [Hm Hs]. clear IH. cbv zeta in Hm, Hs.
  split.
  - rewrite markedComplete_click, Hm. destruct e; try reflexivity.
    cbn [offered orb andb].
    destruct (submitted (session multiple answer exerciseId showHints evs)) eqn:E;
      [reflexivity|].
    now rewrite (Hs eq_refl).
  - unfold click. destruct e as [index| | |]; cbn [offered].
    + discriminate.
    + destruct (negb _ && negb _); [discriminate|exact Hs].
    + destruct (submitted _) eqn:E; [reflexivity|].
      intros _. now apply Hs.
    + destruct showHints; [discriminate|exact Hs].
Qed.

Lemma isCorrect_Permutation l l' answer :
  l ≡ₚ l' → isCorrect l answer = isCorrect l' answer.
Proof.
  intros H. apply eq_true_iff_eq. rewrite !isCorrect_true.
  rewrite (Permutation_length H). now setoid_rewrite H.
Qed.

Lemma filter_ne_absent (l : list string) v :
  v ∉ l → List.filter (fun x => negb (str_eqb x v)) l = l.
Proof.
  induction l as [|a l IH]; intros H; [reflexivity|].
  apply not_elem_of_cons in H as [Ha Hl]. simpl.
  apply not_eq_sym, str_eqb_neq in Ha. rewrite Ha. simpl. now rewrite IH.
Qed.

Lemma filter_ne_present (l : list string) v :
  NoDup l → v ∈ l → List.filter (fun x => negb (str_eqb x v)) l ++ [v] ≡ₚ l.
Proof.
  induction l as [|a l IH]; intros Hnd Hin; [now apply not_elem_of_nil in Hin|].
  apply NoDup_cons in Hnd as [Ha Hnd]. simpl.
  destruct (str_eqb a v) eqn:E; simpl.
  - apply str_eqb_eq in E. subst a. rewrite filter_ne_absent by exact Ha.
    now rewrite <- Permutation_cons_append.
  - apply str_eqb_neq in E. apply elem_of_cons in Hin as [->|Hin]; [contradiction|].
    now rewrite (IH Hnd Hin).
Qed.

Lemma session_reachable multiple answer exerciseId showHints evs :
  reachable_selection answer (session multiple answer exerciseId showHints evs).
Proof.
  induction evs as [|e evs IH] using rev_ind.
  - left. apply NoDup_nil_2.
  - rewrite session_snoc. unfold click. destruct (offered _ _ _); [|exact IH].
    now apply reachable_step.
Qed.


Lemma offered_Submit showHints s :
  offered showHints s Submit = true ↔ submitted s = false ∧ selected s ≠ [].
Proof.
  cbn [offered]. rewrite andb_true_iff, !negb_true_iff, Nat.eqb_neq.
  destruct (selected s); simpl; split; intros [H1 H2]; split;
    try exact H1; try discriminate; try lia; congruence.
Qed.

Lemma handleSelect_submitted multiple answer index s :
  submitted s = true → handleSelect multiple answer index s = s.
Proof. intros H. unfold handleSelect. now rewrite H. Qed.

Lemma handleSelect_twice multiple answer index s :
  submitted s = false → isMultiple multiple answer = true → NoDup (selected s) →
  selected (handleSelect multiple answer index (handleSelect multiple answer index s))
  ≡ₚ selected s.
Proof.
  intros Esub Hmulti Hnd. unfold handleSelect. rewrite Esub.
  cbn [submitted selected]. rewrite ?Esub, Hmulti.
  destruct (includes (selected s) (pretty (index + 1))) eqn:Ein.
  - assert (includes (List.filter (fun v => negb (str_eqb v (pretty (index + 1))))
                        (selected s)) (pretty (index + 1)) = false) as ->.
    { apply not_true_is_false. intros H. apply includes_true in H.
      apply list_elem_of_In, filter_In in H as [_ H].
      now rewrite str_eqb_refl in H. }
    apply filter_ne_present; [exact Hnd|now apply includes_true].
  - assert (includes (selected s ++ [pretty (index + 1)]) (pretty (index + 1)) = true)
      as ->.
    { apply includes_true, elem_of_app. right. apply list_elem_of_here. }
    rewrite List.filter_app. cbn [List.filter].
    rewrite str_eqb_refl. cbn [negb]. rewrite app_nil_r.
    rewrite filter_ne_absent; [reflexivity|].
    intros H. apply includes_true in H. congruence.
Qed.

(** *** The properties *)

(** X12.  On the rendered quiz, the exercise has been marked complete
    exactly when, at some point of the session, the Check button was
    clicked while the quiz was not submitted, with a non-empty selection
    that the validator accepts (and an exercise id that is set).  A session
    without any click on an option never marks the exercise complete: the
    key shown by Show answers cannot be submitted. *)
Theorem completion_needs_own_selection
  (multiple : bool) (answer exerciseId : string) (showHints : bool) (evs : list event) :
  let quiz := session multiple answer exerciseId showHints in
  (markedComplete (quiz evs) = true ↔
   ∃ before after,
     evs = before ++ Submit :: after
     ∧ submitted (quiz before) = false
     ∧ selected (quiz before) ≠ []
     ∧ isCorrect (selected (quiz before)) answer = true
     ∧ truthy exerciseId = true)
  ∧ (forallb (fun e => negb (is_select e)) evs = true →
     markedComplete (quiz evs) = false).
Proof.
  cbv zeta. split; [|apply unselected_session].
  induction evs as [|e evs IH] using rev_ind.
  - split; [discriminate|]. intros (before & after & H & _).
    now destruct before.
  - rewrite session_snoc, markedComplete_click, orb_true_iff, IH. clear IH. split.
    + intros [(before & after & -> & H)|H].
      * exists before, (after ++ [e]). split; [|exact H].
        now rewrite <- app_assoc.
      * destruct e; try discriminate. cbn [andb] in H.
        apply andb_true_iff in H as [H Htruthy].
        apply andb_true_iff in H as [Hoff Hcorrect].
        apply offered_Submit in Hoff as [Hsub Hsel].
        exists evs, []. now repeat split.
    + intros (before & after & Heq & Hsub & Hsel & Hcorrect & Htruthy).
      destruct after as [|a after _] using rev_ind.
      * apply app_inj_tail in Heq as [<- ->]. right. cbn [andb].
        rewrite Hcorrect, Htruthy, !andb_true_r.
        apply offered_Submit. now split.
      * left. rewrite app_comm_cons, app_assoc in Heq.
        apply app_inj_tail in Heq as [-> <-].
        exists before, after. now repeat split.
Qed.

(** The key "2": Show answers, then Check, Try again and Check without
    any option clicked; and option 2 clicked, then Check. *)
Lemma completion_needs_own_selection_witness :
  let quiz := session false "2" "/A1/Lesson1:Quiz:50" true in
  markedComplete (quiz [ShowAnswers; Submit; Reset; Submit]) = false
  ∧ selected (quiz [ShowAnswers; Submit]) = ["2"]
  ∧ markedComplete (quiz [Select 1; Submit]) = true.
Proof.
  intros quiz. split; [|split; reflexivity].
  apply (completion_needs_own_selection false "2" "/A1/Lesson1:Quiz:50" true
           [ShowAnswers; Submit; Reset; Submit]).
  reflexivity.
Defined.

(** X13.  Two clicks on the same option: in a multi-select quiz they leave
    the selected options the same up to their order, and the verdict of the
    validator unchanged; in a single-select quiz the second click changes
    nothing. *)
Theorem double_click_keeps_verdict
  (multiple : bool) (answer exerciseId : string) (showHints : bool)
  (evs : list event) (index : nat) :
  let s := session multiple answer exerciseId showHints evs in
  let once := click multiple answer exerciseId showHints s (Select index) in
  let twice := click multiple answer exerciseId showHints once (Select index) in
  (isMultiple multiple answer = true →
   selected twice ≡ₚ selected s
   ∧ isCorrect (selected twice) answer = isCorrect (selected s) answer)
  ∧ (isMultiple multiple answer = false → twice = once).
Proof.
  cbv zeta. unfold click. cbn [offered step].
  pose proof (session_reachable multiple answer exerciseId showHints evs) as Hreach.
  set (s := session multiple answer exerciseId showHints evs) in *.
  destruct (submitted s) eqn:Esub.
  - rewrite !(handleSelect_submitted multiple answer index s Esub).
    split; [|reflexivity]. intros _. now split.
  - destruct Hreach as [Hnd|[Hsub _]]; [|congruence].
    split; intros Hmulti.
    + pose proof (handleSelect_twice multiple answer index s Esub Hmulti Hnd) as Hp.
      split; [exact Hp|]. now apply isCorrect_Permutation.
    + unfold handleSelect. rewrite Esub. cbn [submitted]. now rewrite ?Esub, ?Hmulti.
Qed.

Lemma double_click_keeps_verdict_witness :
  let s := session false "1,3" "/A1/Lesson1:Quiz:48504" false [Select 0; Select 2] in
  let click := click false "1,3" "/A1/Lesson1:Quiz:48504" false in
  selected (click (click s (Select 0)) (Select 0)) = ["3"; "1"]
  ∧ selected (click (click s (Select 0)) (Select 0)) ≡ₚ selected s
  ∧ isCorrect (selected (click (click s (Select 0)) (Select 0))) "1,3" = true.
Proof.
  intros s click. split; [reflexivity|].
  destruct (double_click_keeps_verdict false "1,3" "/A1/Lesson1:Quiz:48504" false
              [Select 0; Select 2] 0) as [H _].
  destruct (H eq_refl) as [Hp Hc]. split; [exact Hp|]. exact Hc.
Defined.

End QuizSession.

(** ** Facts on the transcript matcher (SpeakingChallenge.tsx) *)

Module SpeakingFacts.
Import JsString JsNumber Speaking.

(** The difference of two lengths. *)
Definition length_gap (n m : nat) : nat := (n - m) + (m - n).

Lemma distance_rev_same l : distance_rev l l = 0.
Proof.
  induction l as [|x l IH]; [reflexivity|].
  now rewrite distance_rev_cons, chr_eqb_refl.
Qed.

Lemma distance_rev_sym rb : ∀ ra, distance_rev rb ra = distance_rev ra rb.
Proof.
  induction rb as [|y rb IHb]; intros ra.
  - now rewrite distance_rev_nil_l, distance_rev_nil_r.
  - induction ra as [|x ra IHa].
    + now rewrite distance_rev_nil_l, distance_rev_nil_r.
    + rewrite !distance_rev_cons, (chr_eqb_sym y x), IHa, !IHb.
      destruct (chr_eqb x y); [reflexivity|]. lia.
Qed.

Lemma distance_rev_bounds rb : ∀ ra,
  length_gap (length rb) (length ra) ≤ distance_rev rb ra
  ∧ distance_rev rb ra ≤ Nat.max (length rb) (length ra).
Proof.
  unfold length_gap. induction rb as [|y rb IHb]; intros ra.
  - rewrite distance_rev_nil_l. simpl. lia.
  - induction ra as [|x ra IHa].
    + rewrite distance_rev_nil_r. simpl. lia.
    + rewrite distance_rev_cons.
      pose proof (IHb ra) as H1. pose proof (IHb (x :: ra)) as H2.
      cbn [length] in *.
      destruct (chr_eqb y x); lia.
Qed.

Lemma distance_rev_zero rb : ∀ ra, distance_rev rb ra = 0 → rb = ra.
Proof.
  induction rb as [|y rb IHb]; intros ra.
  - rewrite distance_rev_nil_l. now destruct ra.
  - destruct ra as [|x ra].
    + rewrite distance_rev_nil_r. discriminate.
    + rewrite distance_rev_cons. destruct (chr_eqb y x) eqn:E; [|lia].
      apply chr_eqb_eq in E. subst y. intros H. f_equal. now apply IHb.
Qed.

Lemma list_ascii_of_string_inj a b :
  list_ascii_of_string a = list_ascii_of_string b → a = b.
Proof.
  intros H. rewrite <- (string_of_list_ascii_of_string a),
    <- (string_of_list_ascii_of_string b). now rewrite H.
Qed.

Lemma length_list_ascii a : length (list_ascii_of_string a) = String.length a.
Proof. induction a as [|c a IH]; [reflexivity|]. simpl. now rewrite IH. Qed.


Lemma matched_add_fresh i : set_add (seq 0 i) i = seq 0 (S i).
Proof.
  unfold set_add.
  assert (existsb (Nat.eqb i) (seq 0 i) = false) as ->.
  { apply not_true_is_false. intros H. apply existsb_exists in H as (x & Hx & E).
    apply Nat.eqb_eq in E. subst x. apply in_seq in Hx. lia. }
  now rewrite seq_S.
Qed.

Lemma isMatch_refl w : isMatch w w = true.
Proof. unfold isMatch. now rewrite str_eqb_refl. Qed.

(** The loop on a transcript whose words are the target words. *)
Lemma matchLoop_same words : ∀ tIndex,
  matchLoop tIndex words words (seq 0 tIndex) = seq 0 (tIndex + length words).
Proof.
  induction words as [|w words IH]; intros tIndex.
  - simpl. now rewrite Nat.add_0_r.
  - cbn [matchLoop length]. rewrite isMatch_refl, matched_add_fresh, IH.
    f_equal. lia.
Qed.

(** *** The properties *)

(** X14.  [levenshteinDistance], computed by the matrix, is 0 exactly on
    equal strings, is the same in both directions, is at least the
    difference of the two lengths and at most the larger length; the
    distance from the empty string is the length of the other string. *)
Theorem levenshteinDistance_bounds (a b : string) :
  (levenshteinDistance a b = 0 ↔ a = b)
  ∧ levenshteinDistance a b = levenshteinDistance b a
  ∧ length_gap (String.length a) (String.length b) ≤ levenshteinDistance a b
  ∧ levenshteinDistance a b ≤ Nat.max (String.length a) (String.length b)
  ∧ levenshteinDistance EmptyString b = String.length b.
Proof.
  rewrite !levenshteinDistance_edit_distance. unfold edit_distance.
  split; [|split; [|split; [|split]]].
  - split.
    + intros H. apply distance_rev_zero in H.
      apply (f_equal (@rev ascii)) in H. rewrite !rev_involutive in H.
      symmetry. now apply list_ascii_of_string_inj.
    + intros ->. apply distance_rev_same.
  - apply distance_rev_sym.
  - destruct (distance_rev_bounds (rev (list_ascii_of_string b))
                (rev (list_ascii_of_string a))) as [H _].
    rewrite !length_rev, !length_list_ascii in H. unfold length_gap in *. lia.
  - destruct (distance_rev_bounds (rev (list_ascii_of_string b))
                (rev (list_ascii_of_string a))) as [_ H].
    rewrite !length_rev, !length_list_ascii in H. lia.
  - cbn [list_ascii_of_string rev]. rewrite distance_rev_nil_r.
    now rewrite length_rev, length_list_ascii.
Qed.

(** X15.  The word test of the matcher does not depend on which of the
    two words is the target; two words it accepts differ in length by at
    most one unit; a word of at most three units is accepted only for
    itself. *)
Theorem isMatch_close_words (target spoken : string) :
  isMatch target spoken = isMatch spoken target
  ∧ (isMatch target spoken = true →
     length_gap (String.length target) (String.length spoken) ≤ 1)
  ∧ (String.length target ≤ 3 ∨ String.length spoken ≤ 3 →
     (isMatch target spoken = true ↔ target = spoken)).
Proof.
  split; [|split].
  - unfold isMatch.
    rewrite (str_eqb_sym target spoken), !levenshteinDistance_edit_distance.
    unfold edit_distance. rewrite distance_rev_sym.
    now rewrite (andb_comm (3 <? String.length target)).
  - rewrite isMatch_iff. intros [->|(_ & _ & H)].
    + unfold length_gap. lia.
    + unfold edit_distance in H.
      destruct (distance_rev_bounds (rev (list_ascii_of_string spoken))
                  (rev (list_ascii_of_string target))) as [Hgap _].
      rewrite !length_rev, !length_list_ascii in Hgap. unfold length_gap in *. lia.
  - intros Hshort. rewrite isMatch_iff. split; [|now left].
    intros [H|(H1 & H2 & _)]; [exact H|lia].
Qed.

Lemma isMatch_close_words_witness :
  isMatch "haus" "hau" = false
  ∧ isMatch "hause" "haus" = true
  ∧ (isMatch "der" "den" = true ↔ "der" = "den").
Proof.
  split; [reflexivity|]. split; [reflexivity|].
  apply (isMatch_close_words "der" "den"). left. simpl. lia.
Defined.

(** X16.  When the words of the transcript, after normalization, are the
    target words (none of which is empty, then), every target word is
    matched; for a text of at most 128 words the status becomes [correct]. *)
Theorem verifySpeech_same_words (text spokenText : string)
  (Hsame : spokenWords spokenText = targetWords text)
  (Hbound : length (targetWords text) ≤ 128) :
  matchedIndices text spokenText = seq 0 (length (targetWords text))
  ∧ verifySpeech text spokenText = Correct.
Proof.
  assert (matchedIndices text spokenText = seq 0 (length (targetWords text))) as Hm.
  { unfold matchedIndices. rewrite Hsame.
    exact (matchLoop_same (targetWords text) 0). }
  split; [exact Hm|].
  unfold verifySpeech, matchPercentage. rewrite Hm, length_seq.
  fold (reaches_threshold (length (targetWords text)) (length (targetWords text))).
  rewrite reaches_threshold_exact.
  - unfold reaches_85_percent.
    assert ((17 * length (targetWords text) <=? 20 * length (targetWords text)) = true) as ->;
      [apply Nat.leb_le; lia|reflexivity].
  - split; [apply targetWords_length|exact Hbound].
  - lia.
Qed.

(** The text read with other capitals and punctuation. *)
Lemma verifySpeech_same_words_witness :
  verifySpeech "Guten Morgen, Anna!" "guten morgen anna" = Correct
  ∧ matchedIndices "Guten Morgen, Anna!" "guten morgen anna" = [0; 1; 2].
Proof.
  assert (length (targetWords "Guten Morgen, Anna!") ≤ 128) as Hb by (simpl; lia).
  destruct (verifySpeech_same_words "Guten Morgen, Anna!" "guten morgen anna"
              eq_refl Hb) as [Hm Hv].
  split; [exact Hv|exact Hm].
Defined.

End SpeakingFacts.

(** ** Counting the exercises of a lesson (utils/exerciseCounter.ts) *)

Module ExerciseCount.
Import JsString.

Definition EXERCISE_COMPONENTS : list string :=
  [ "Quiz"; "FillBlanks"; "InlineBlanks"; "Matching"; "Ordering"; "Grouping";
    "Flashcards"; "SpeakingChallenge"; "InteractiveMedia"; "AudioPhrase"; "Dialogue" ].

(** The argument of [countExercisesInMdx]: a string, or a value of another
    type. *)
Inductive content : Type :=
| Text (mdxContent : string)
| NotString.

(** The number of code units before the first [-->] of [s], if there is
    one: what the lazy [[\s\S]*?] of the comment pattern runs over. *)
Fixpoint close_offset (s : string) : option nat :=
  match s with
  | EmptyString => None
  | String c r =>
      if startsWith s "-->" then Some 0
      else match close_offset r with
           | Some k => Some (S k)
           | None => None
           end
  end.

(** [s.replace(/<!--[\s\S]*?-->/g, '')]; [skip] counts the code units of
    the comment being removed that are still ahead.  At a position where no
    comment starts, or where [<!--] has no [-->] after it, the code unit is
    kept. *)
Fixpoint remove_comments_from (skip : nat) (s : string) : string :=
  match s with
  | EmptyString => EmptyString
  | String c r =>
      match skip with
      | S k => remove_comments_from k r
      | O =>
          if startsWith s "<!--" then
            match close_offset (substring_from 4 s) with
            | Some k => remove_comments_from (3 + k + 3) r
            | None => String c (remove_comments_from 0 r)
            end
          else String c (remove_comments_from 0 r)
      end
  end.

Definition remove_comments (s : string) : string := remove_comments_from 0 s.

(** A word character of [\b]: a letter, a digit or the underscore. *)
Definition is_word (c : ascii) : bool :=
  let n := nat_of_ascii c in
  ((48 <=? n) && (n <=? 57)) || ((65 <=? n) && (n <=? 90))
  || ((97 <=? n) && (n <=? 122)) || (n =? 95).

(** [<component\b] matches at the start of [s]: the text [<component], and
    after it the end of the text or a code unit that is no word character
    (the names end with a letter). *)
Definition tag_at (component s : string) : bool :=
  startsWith s ("<" +:+ component)
  && match substring_from (S (String.length component)) s with
     | EmptyString => true
     | String c _ => negb (is_word c)
     end.

(** [cleanContent.match(regex)?.length], the number of matches of
    [<component\b]: a match starts with [<], which no match contains
    further on, so the matches are the positions where the pattern
    matches. *)
Fixpoint count_tag (component s : string) : nat :=
  match s with
  | EmptyString => 0
  | String c r => (if tag_at component s then 1 else 0) + count_tag component r
  end.

(** [countExercisesInMdx] *)
Definition countExercisesInMdx (mdxContent : content) : nat :=
  match mdxContent with
  | NotString => 0
  | Text s =>
      let cleanContent := remove_comments s in
      fold_left (fun count component => count + count_tag component cleanContent)
                EXERCISE_COMPONENTS 0
  end.


(** The number of occurrences of a code unit. *)
Fixpoint count_chr (c : ascii) (s : string) : nat :=
  match s with
  | EmptyString => 0
  | String a r => (if chr_eqb a c then 1 else 0) + count_chr c r
  end.

(** The sum of [f] over a list. *)
Definition total {A} (f : A → nat) (l : list A) : nat := fold_right (fun x n => f x + n) 0 l.

(** *** Facts *)

Lemma fold_left_total {A} (f : A → nat) (l : list A) : ∀ acc,
  fold_left (fun count x => count + f x) l acc = acc + total f l.
Proof.
  induction l as [|x l IH]; intros acc; simpl; [lia|]. rewrite IH. lia.
Qed.

Lemma countExercisesInMdx_total s :
  countExercisesInMdx (Text s)
  = total (fun component => count_tag component (remove_comments s)) EXERCISE_COMPONENTS.
Proof. unfold countExercisesInMdx. now rewrite fold_left_total. Qed.

Lemma total_add {A} (f g : A → nat) (l : list A) :
  total (fun x => f x + g x) l = total f l + total g l.
Proof. induction l as [|x l IH]; simpl; [reflexivity|]. rewrite IH. lia. Qed.

Lemma total_0 {A} (f : A → nat) (l : list A) :
  (∀ x, x ∈ l → f x = 0) → total f l = 0.
Proof.
  induction l as [|x l IH]; intros H; [reflexivity|]. simpl.
  rewrite (H x (list_elem_of_here _ _)), IH; [reflexivity|].
  intros y Hy. apply H. now apply list_elem_of_further.
Qed.

(** A sum of indicators of which at most one is set. *)
Lemma total_indicator (p : string → bool) (l : list string) :
  NoDup l →
  (∀ x y, x ∈ l → y ∈ l → p x = true → p y = true → x = y) →
  total (fun x => if p x then 1 else 0) l ≤ 1.
Proof.
  induction l as [|a l IH]; intros Hnd Hone; [simpl; lia|].
  apply NoDup_cons in Hnd as [Ha Hnd]. simpl.
  destruct (p a) eqn:Ea.
  - rewrite total_0; [lia|]. intros y Hy. destruct (p y) eqn:Ey; [|reflexivity].
    exfalso. apply Ha.
    rewrite (Hone a y (list_elem_of_here _ _) (list_elem_of_further _ _ _ Hy) Ea Ey).
    exact Hy.
  - apply IH; [exact Hnd|]. intros x y Hx Hy.
    apply Hone; now apply list_elem_of_further.
Qed.

(** Two beginnings of one text: the shorter begins the longer. *)
Lemma startsWith_chain (s p q : string) :
  startsWith s p = true → startsWith s q = true →
  String.length p ≤ String.length q → startsWith q p = true.
Proof.
  revert s q. induction p as [|a p IH]; intros s q Hp Hq Hlen; [reflexivity|].
  destruct q as [|b q]; [simpl in Hlen; lia|].
  destruct s as [|c s]; [discriminate|].
  simpl in Hp, Hq. apply andb_true_iff in Hp as [Hac Hp], Hq as [Hbc Hq].
  apply chr_eqb_eq in Hac, Hbc. subst a b.
  simpl. rewrite chr_eqb_refl. simpl in Hlen. apply (IH s q Hp Hq). lia.
Qed.

(** No component name begins another one. *)
Definition prefix_free (names : list string) : bool :=
  forallb (fun n1 =>
             forallb (fun n2 => str_eqb n1 n2 || negb (startsWith n2 n1)) names)
          names.

Lemma components_prefix_free : prefix_free EXERCISE_COMPONENTS = true.
Proof. vm_compute. reflexivity. Qed.

Lemma components_NoDup : NoDup EXERCISE_COMPONENTS.
Proof.
  apply NoDup_ListNoDup.
  repeat (constructor; [cbn; intuition discriminate|]). constructor.
Qed.

Lemma tag_at_one s x y :
  x ∈ EXERCISE_COMPONENTS → y ∈ EXERCISE_COMPONENTS →
  tag_at x s = true → tag_at y s = true → x = y.
Proof.
  intros Hx Hy Htx Hty. unfold tag_at in Htx, Hty.
  apply andb_true_iff in Htx as [Htx _], Hty as [Hty _].
  pose proof components_prefix_free as Hfree. unfold prefix_free in Hfree.
  rewrite forallb_forall in Hfree.
  assert (∀ a b, a ∈ EXERCISE_COMPONENTS → b ∈ EXERCISE_COMPONENTS →
                 startsWith b a = true → a = b) as Huniq.
  { intros a b Ha Hb Hab. apply list_elem_of_In in Ha, Hb.
    specialize (Hfree a Ha). rewrite forallb_forall in Hfree.
    specialize (Hfree b Hb). rewrite Hab in Hfree.
    apply orb_true_iff in Hfree as [H|H]; [now apply str_eqb_eq|discriminate]. }
  assert (∀ a b : string, startsWith ("<" +:+ b) ("<" +:+ a) = startsWith b a) as Hlt.
  { intros a b. reflexivity. }
  destruct (Nat.le_gt_cases (String.length x) (String.length y)) as [Hle|Hgt].
  - apply (Huniq x y Hx Hy). rewrite <- Hlt.
    apply (startsWith_chain s _ _ Htx Hty).
    change (S (String.length x) ≤ S (String.length y)). lia.
  - symmetry. apply (Huniq y x Hy Hx). rewrite <- Hlt.
    apply (startsWith_chain s _ _ Hty Htx).
    change (S (String.length y) ≤ S (String.length x)). lia.
Qed.

Lemma tag_at_lt component c r :
  tag_at component (String c r) = true → chr_eqb c "<" = true.
Proof.
  unfold tag_at. rewrite str_app_cons, str_app_nil_l. simpl.
  intros H. apply andb_true_iff in H as [H _]. apply andb_true_iff in H as [H _].
  now rewrite chr_eqb_sym.
Qed.

Lemma tags_at_position c r :
  total (fun component => if tag_at component (String c r) then 1 else 0)
        EXERCISE_COMPONENTS
  ≤ (if chr_eqb c "<" then 1 else 0).
Proof.
  destruct (chr_eqb c "<") eqn:E.
  - apply total_indicator; [apply components_NoDup|].
    intros x y. apply tag_at_one.
  - rewrite total_0; [lia|]. intros x _.
    destruct (tag_at x (String c r)) eqn:Et; [|reflexivity].
    apply tag_at_lt in Et. congruence.
Qed.

Lemma count_tags_le s :
  total (fun component => count_tag component s) EXERCISE_COMPONENTS ≤ count_chr "<" s.
Proof.
  induction s as [|c r IH].
  - rewrite total_0; [reflexivity|]. reflexivity.
  - cbn [count_tag count_chr].
    rewrite (total_add (fun component => if tag_at component (String c r) then 1 else 0)
                       (fun component => count_tag component r)).
    pose proof (tags_at_position c r). lia.
Qed.

Lemma count_chr_remove_comments c s : ∀ skip,
  count_chr c (remove_comments_from skip s) ≤ count_chr c s.
Proof.
  induction s as [|a r IH]; intros skip; [destruct skip; reflexivity|].
  cbn [remove_comments_from]. destruct skip as [|k].
  - destruct (startsWith (String a r) "<!--").
    + destruct (close_offset (substring_from 4 (String a r))) as [k|].
      * cbn [count_chr]. specialize (IH (3 + k + 3)). lia.
      * cbn [count_chr]. specialize (IH 0). lia.
    + cbn [count_chr]. specialize (IH 0). lia.
  - cbn [count_chr]. specialize (IH k). lia.
Qed.


Lemma startsWith_cons_ne (c : ascii) (r p : string) a :
  chr_eqb a c = false → startsWith (String c r) (String a p) = false.
Proof. intros H. simpl. now rewrite H. Qed.

Lemma remove_comments_prefix (pre x : string) :
  includes_chr "<" pre = false →
  remove_comments_from 0 (pre +:+ x) = pre +:+ remove_comments_from 0 x.
Proof.
  induction pre as [|a pre IH]; intros H; [reflexivity|].
  change (includes_chr "<" (String a pre)) with (chr_eqb a "<" || includes_chr "<" pre) in H.
  apply orb_false_iff in H as [Ha H].
  rewrite !str_app_cons. cbn [remove_comments_from].
  rewrite (startsWith_cons_ne a (pre +:+ x) "!--" "<") by now rewrite chr_eqb_sym.
  now rewrite (IH H).
Qed.

Lemma count_tag_prefix component (pre x : string) :
  includes_chr "<" pre = false →
  count_tag component (pre +:+ x) = count_tag component x.
Proof.
  induction pre as [|a pre IH]; intros H; [reflexivity|].
  change (includes_chr "<" (String a pre)) with (chr_eqb a "<" || includes_chr "<" pre) in H.
  apply orb_false_iff in H as [Ha H].
  rewrite str_app_cons. cbn [count_tag]. rewrite (IH H).
  destruct (tag_at component (String a (pre +:+ x))) eqn:E; [|reflexivity].
  apply tag_at_lt in E. congruence.
Qed.

Lemma close_offset_closer (c rest : string) :
  includes_chr ">" c = false →
  close_offset (c +:+ "-->" +:+ rest) = Some (String.length c).
Proof.
  induction c as [|a c IH]; intros H.
  - rewrite str_app_nil_l. reflexivity.
  - change (includes_chr ">" (String a c)) with (chr_eqb a ">" || includes_chr ">" c) in H.
    apply orb_false_iff in H as [Ha H].
    rewrite str_app_cons. cbn [close_offset String.length]. rewrite (IH H).
    assert (startsWith (String a (c +:+ "-->" +:+ rest)) "-->" = false) as ->;
      [|reflexivity].
    destruct c as [|b c].
    + rewrite str_app_nil_l. simpl.
      destruct (chr_eqb "-" a); reflexivity.
    + change (includes_chr ">" (String b c)) with (chr_eqb b ">" || includes_chr ">" c) in H.
      apply orb_false_iff in H as [Hb H]. rewrite str_app_cons.
      destruct c as [|d c].
      * rewrite str_app_nil_l. simpl.
        destruct (chr_eqb "-" a), (chr_eqb "-" b); reflexivity.
      * change (includes_chr ">" (String d c)) with (chr_eqb d ">" || includes_chr ">" c) in H.
        apply orb_false_iff in H as [Hd H]. rewrite str_app_cons. simpl.
        rewrite (chr_eqb_sym ">" d), Hd.
        destruct (chr_eqb "-" a), (chr_eqb "-" b); reflexivity.
Qed.

Lemma str_app_length (s t : string) :
  String.length (s +:+ t) = String.length s + String.length t.
Proof. induction s as [|a s IH]; [reflexivity|]. rewrite str_app_cons. simpl. now rewrite IH. Qed.

Lemma total_ext {A} (f g : A → nat) (l : list A) :
  (∀ x, f x = g x) → total f l = total g l.
Proof. intros H. induction l as [|x l IH]; [reflexivity|]. simpl. now rewrite H, IH. Qed.

Lemma remove_comments_skip (x rest : string) :
  remove_comments_from (String.length x) (x +:+ rest) = remove_comments_from 0 rest.
Proof. induction x as [|a x IH]; [reflexivity|]. now rewrite str_app_cons. Qed.

Lemma close_offset_None (s : string) : includes_chr ">" s = false → close_offset s = None.
Proof.
  induction s as [|a s IH]; intros H; [reflexivity|].
  change (includes_chr ">" (String a s)) with (chr_eqb a ">" || includes_chr ">" s) in H.
  apply orb_false_iff in H as [Ha H]. cbn [close_offset]. rewrite (IH H).
  assert (startsWith (String a s) "-->" = false) as ->; [|reflexivity].
  destruct s as [|b [|d s]]; simpl.
  - now destruct (chr_eqb "-" a).
  - now destruct (chr_eqb "-" a), (chr_eqb "-" b).
  - change (includes_chr ">" (String b (String d s)))
      with (chr_eqb b ">" || (chr_eqb d ">" || includes_chr ">" s)) in H.
    apply orb_false_iff in H as [_ H]. apply orb_false_iff in H as [Hd _].
    rewrite (chr_eqb_sym ">" d), Hd.
    now destruct (chr_eqb "-" a), (chr_eqb "-" b).
Qed.

Lemma substring_from_no_close n : ∀ s,
  includes_chr ">" s = false → includes_chr ">" (substring_from n s) = false.
Proof.
  induction n as [|n IH]; intros s H; [exact H|].
  destruct s as [|a s]; [reflexivity|].
  change (includes_chr ">" (String a s)) with (chr_eqb a ">" || includes_chr ">" s) in H.
  apply orb_false_iff in H as [_ H]. now apply IH.
Qed.

Lemma remove_comments_unclosed (s : string) :
  includes_chr ">" s = false → remove_comments_from 0 s = s.
Proof.
  induction s as [|a s IH]; intros H; [reflexivity|].
  cbn [remove_comments_from].
  rewrite (close_offset_None (substring_from 4 (String a s)))
    by now apply substring_from_no_close.
  change (includes_chr ">" (String a s)) with (chr_eqb a ">" || includes_chr ">" s) in H.
  apply orb_false_iff in H as [_ H]. rewrite (IH H).
  now destruct (startsWith (String a s) "<!--").
Qed.

(** The count of a text made of one tag name and one more code unit. *)
Definition boundary_check : bool :=
  forallb (fun name =>
             forallb (fun n =>
                        let c := ascii_of_nat n in
                        countExercisesInMdx (Text ("<" +:+ name +:+ String c EmptyString))
                        =? (if is_word c then 0 else 1))
                     (seq 0 256)
             && (countExercisesInMdx (Text ("<" +:+ name)) =? 1))
          EXERCISE_COMPONENTS.

Lemma boundary_check_true : boundary_check = true.
Proof. vm_compute. reflexivity. Qed.

(** *** The properties *)

(** X17.  At a position of the text at most one component name matches, so
    that a tag is counted for one component only, and the count is at most
    the number of [<] of the text.  The name must end where the tag name
    ends: a component name followed by a letter, a digit or an underscore is
    not counted, followed by any other code unit or by the end of the text
    it is.  A value that is not a string counts 0. *)
Theorem countExercisesInMdx_one_per_tag (s : string) :
  (∀ t x y, x ∈ EXERCISE_COMPONENTS → y ∈ EXERCISE_COMPONENTS →
            tag_at x t = true → tag_at y t = true → x = y)
  ∧ countExercisesInMdx (Text s) ≤ count_chr "<" s
  ∧ (∀ name c, name ∈ EXERCISE_COMPONENTS →
       countExercisesInMdx (Text ("<" +:+ name +:+ String c EmptyString))
       = if is_word c then 0 else 1)
  ∧ (∀ name, name ∈ EXERCISE_COMPONENTS → countExercisesInMdx (Text ("<" +:+ name)) = 1)
  ∧ countExercisesInMdx NotString = 0.
Proof.
  pose proof boundary_check_true as Hcheck. unfold boundary_check in Hcheck.
  rewrite forallb_forall in Hcheck.
  split; [intros t x y; apply tag_at_one|]. split; [|split; [|split; [|reflexivity]]].
  - rewrite countExercisesInMdx_total.
    etransitivity; [apply count_tags_le|]. apply count_chr_remove_comments.
  - intros name c Hname. apply list_elem_of_In, Hcheck in Hname.
    apply andb_true_iff in Hname as [Hname _]. rewrite forallb_forall in Hname.
    specialize (Hname (nat_of_ascii c)). cbv zeta in Hname.
    rewrite ascii_nat_embedding in Hname. apply Nat.eqb_eq, Hname.
    apply in_seq. pose proof (nat_ascii_bounded c). lia.
  - intros name Hname. apply list_elem_of_In, Hcheck in Hname.
    apply andb_true_iff in Hname as [_ Hname]. now apply Nat.eqb_eq.
Qed.

(** X18.  A comment that is closed hides what it holds: with no [<] before
    the comment and no [>] inside it, the cleaned text is the text before
    the comment followed by the cleaned text after it, and the count is the
    count of the text after the comment.  A text without [>] is left as it
    is: a comment that is not closed hides nothing. *)
Theorem countExercisesInMdx_skips_comments (pre c rest : string)
  (Hpre : includes_chr "<" pre = false)
  (Hc : includes_chr ">" c = false) :
  remove_comments (pre +:+ "<!--" +:+ c +:+ "-->" +:+ rest) = pre +:+ remove_comments rest
  ∧ countExercisesInMdx (Text (pre +:+ "<!--" +:+ c +:+ "-->" +:+ rest))
    = countExercisesInMdx (Text rest)
  ∧ remove_comments (pre +:+ "<!--" +:+ c) = pre +:+ "<!--" +:+ c.
Proof.
  assert (remove_comments (pre +:+ "<!--" +:+ c +:+ "-->" +:+ rest)
          = pre +:+ remove_comments rest) as Hclean.
  { unfold remove_comments. rewrite (remove_comments_prefix pre _ Hpre). f_equal.
    change ("<!--" +:+ c +:+ "-->" +:+ rest)
      with (String "<" ("!--" +:+ c +:+ "-->" +:+ rest)).
    cbn [remove_comments_from].
    change (startsWith (String "<" ("!--" +:+ c +:+ "-->" +:+ rest)) "<!--") with true.
    change (substring_from 4 (String "<" ("!--" +:+ c +:+ "-->" +:+ rest)))
      with (c +:+ "-->" +:+ rest).
    rewrite (close_offset_closer c rest Hc).
    replace ("!--" +:+ c +:+ "-->" +:+ rest) with (("!--" +:+ c +:+ "-->") +:+ rest)
      by now rewrite !str_app_assoc.
    replace (3 + String.length c + 3) with (String.length ("!--" +:+ c +:+ "-->")).
    - apply remove_comments_skip.
    - change ("!--" +:+ c +:+ "-->") with (String "!" (String "-" (String "-" (c +:+ "-->")))).
      cbn [String.length]. rewrite str_app_length. simpl. lia. }
  split; [exact Hclean|]. split.
  - rewrite !countExercisesInMdx_total, Hclean.
    apply total_ext. intros component.
    now rewrite (count_tag_prefix component pre _ Hpre).
  - unfold remove_comments. rewrite (remove_comments_prefix pre _ Hpre). f_equal.
    change ("<!--" +:+ c) with (String "<" ("!--" +:+ c)).
    cbn [remove_comments_from].
    change (substring_from 4 (String "<" ("!--" +:+ c))) with c.
    rewrite (close_offset_None c Hc).
    change (startsWith (String "<" ("!--" +:+ c)) "<!--") with true. cbv iota.
    f_equal.
    change ("!--" +:+ c) with (String "!" (String "-" (String "-" c))).
    apply remove_comments_unclosed. simpl. exact Hc.
Qed.

Lemma countExercisesInMdx_skips_comments_witness :
  countExercisesInMdx
    (Text ("Intro " +:+ "<!--" +:+ " <Quiz answer=1 " +:+ "-->" +:+ "<Quiz answer=2>"))
  = 1
  ∧ countExercisesInMdx (Text ("Intro <!-- <Quiz answer=1")) = 1.
Proof.
  destruct (countExercisesInMdx_skips_comments "Intro " " <Quiz answer=1 "
              "<Quiz answer=2>" eq_refl eq_refl) as (_ & H & _).
  split; [rewrite H; reflexivity|reflexivity].
Defined.

End ExerciseCount.

(** ** The hash of an exercise id (utils/exerciseCounter.ts) *)

Module HashFacts.
Import JsString JsNumber Progress.

Local Open Scope Z_scope.

Lemma poly31_app (p q : string) : ∀ acc, poly31 acc (p +:+ q) = poly31 (poly31 acc p) q.
Proof.
  induction p as [|c p IH]; intros acc; [reflexivity|].
  rewrite str_app_cons. cbn [poly31]. apply IH.
Qed.

Lemma poly31_two (a b : ascii) (s : string) acc :
  poly31 acc (String a (String b s))
  = poly31 (961 * acc + (31 * charCode a + charCode b)) s.
Proof. cbn [poly31]. f_equal. lia. Qed.

(** X19.  The hash is the decimal writing of an integer from 0 to 2^31: it
    has no sign.  It does not tell all contents apart: two contents that
    differ in two adjacent code units [a b] and [c d] with
    [31 a + b = 31 c + d] have the same hash, and then the same exercise id
    for every lesson path and exercise type. *)
Theorem simpleHash_collisions (p s : string) (a b c d : ascii)
  (Hsame : 31 * charCode a + charCode b = 31 * charCode c + charCode d) :
  (∀ str, ∃ n, 0 ≤ n ≤ 2 ^ 31 ∧ simpleHash str = pretty n)
  ∧ simpleHash (p +:+ String a (String b s)) = simpleHash (p +:+ String c (String d s))
  ∧ (∀ BASE_URL lessonPath exerciseType,
       generateStableExerciseId BASE_URL lessonPath exerciseType
         (p +:+ String a (String b s))
       = generateStableExerciseId BASE_URL lessonPath exerciseType
           (p +:+ String c (String d s))).
Proof.
  assert (simpleHash (p +:+ String a (String b s))
          = simpleHash (p +:+ String c (String d s))) as Hhash.
  { rewrite !simpleHash_poly, !poly31_app, !poly31_two. now rewrite Hsame. }
  split; [|split; [exact Hhash|]].
  - intros str. rewrite simpleHash_poly.
    exists (Z.abs (to_int32 (poly31 0 str))). split; [|reflexivity].
    pose proof (to_int32_range (poly31 0 str)). lia.
  - intros BASE_URL lessonPath exerciseType.
    unfold generateStableExerciseId. cbv zeta. now rewrite Hhash.
Qed.

Lemma simpleHash_collisions_witness :
  simpleHash "Aa [x]" = simpleHash "BB [x]"
  ∧ generateStableExerciseId "/telc/" "/telc/A1/Lesson1" "FillBlanks" "Aa [x]"
    = generateStableExerciseId "/telc/" "/telc/A1/Lesson1" "FillBlanks" "BB [x]".
Proof.
  destruct (simpleHash_collisions "" " [x]" "A" "a" "B" "B" eq_refl) as (_ & Hhash & Hid).
  split; [exact Hhash|apply Hid].
Defined.

End HashFacts.

(** ** Checkpoints along a session (InteractiveMedia) *)

Module MediaFacts.
Import JsString JsNumber Media.

Section Session.

Variable content : Type.
Variable checkpoints : list (checkpoint content).
Variable exerciseId : string.

Local Notation state := (Media.state content).
Local Notation initial := (Media.initial content).
Local Notation step := (Media.step content checkpoints exerciseId).
Local Notation run := (Media.run content checkpoints exerciseId).
Local Notation handle := (Media.handle content checkpoints).
Local Notation continued := (Media.continued content checkpoints exerciseId).
Local Notation inv := (Media.inv content checkpoints).
Local Notation completedCheckpoints := (Media.completedCheckpoints content).
Local Notation activeCheckpoint := (Media.activeCheckpoint content).

(** The active checkpoint is not in the completed set, and the completed
    set has one element for each checkpoint continued from. *)
Record pending (s : state) (done : list nat) : Prop := mkPending {
  pending_active : ∀ i cp, activeCheckpoint s = Some (i, cp) →
      has (completedCheckpoints s) (time cp) = false;
  pending_size : length (completedCheckpoints s) = length done
}.

Lemma pending_initial : pending initial [].
Proof. split; [discriminate|reflexivity]. Qed.

Lemma find_from_hit {A} (p : A → bool) (l : list A) : ∀ i0 i x,
  find_from p i0 l = Some (i, x) → p x = true.
Proof.
  induction l as [|a l IH]; intros i0 i x; simpl; [discriminate|].
  destruct (p a) eqn:E; [intros [= <- <-]; exact E|apply IH].
Qed.

Lemma pending_checkCheckpoints closure t s done :
  completedCheckpoints closure = completedCheckpoints s →
  pending s done → pending (checkCheckpoints content checkpoints closure t s) done.
Proof.
  intros Hc [Ha Hn]. unfold checkCheckpoints.
  destruct (find_from _ 0 checkpoints) as [[i cp]|] eqn:E; [|now split].
  apply find_from_hit in E. unfold hits in E. rewrite Hc in E.
  split; cbn [Media.completedCheckpoints Media.activeCheckpoint]; [|exact Hn].
  intros i' cp' [= <- <-].
  apply andb_true_iff in E as [_ E]. now apply negb_true_iff in E.
Qed.

Lemma pending_cells s s' done :
  completedCheckpoints s' = completedCheckpoints s →
  activeCheckpoint s' = activeCheckpoint s ∨ activeCheckpoint s' = None →
  pending s done → pending s' done.
Proof.
  intros Hc Ha [H1 H2]. split; rewrite ?Hc; [|exact H2].
  intros i cp Hi. destruct Ha as [Ha|Ha]; rewrite Ha in Hi; [now apply (H1 i)|discriminate].
Qed.

Lemma pending_handleProgress closure t s done :
  completedCheckpoints closure = completedCheckpoints s →
  pending s done → pending (handleProgress content checkpoints closure t s) done.
Proof.
  intros Hc Hs. unfold handleProgress.
  destruct (seeking content closure); [exact Hs|].
  destruct (negb (isFinite t)); [exact Hs|].
  apply pending_checkCheckpoints; [exact Hc|].
  revert Hs. apply pending_cells; [reflexivity|now left].
Qed.

Lemma completedCheckpoints_checkCheckpoints closure t s :
  completedCheckpoints (checkCheckpoints content checkpoints closure t s)
  = completedCheckpoints s.
Proof.
  unfold checkCheckpoints. now destruct (find_from _ 0 checkpoints) as [[i cp]|].
Qed.

Lemma pending_handle e s done :
  inv s done → NoDup done → pending s done →
  let done' := match e, activeCheckpoint s with
               | Continue, Some (i, _) => i :: done
               | _, _ => done
               end in
  pending (handle e s) done' ∧ NoDup done'.
Proof.
  intros Hinv Hnd Hs. destruct e; cbn [Media.handle]; cbv zeta;
    try (split; [|exact Hnd]).
  - now apply pending_handleProgress.
  - unfold videoTimeUpdate. destruct (negb (seeking content s)); [|exact Hs].
    apply pending_checkCheckpoints; [reflexivity|].
    revert Hs. apply pending_cells; [reflexivity|now left].
  - unfold audioTimeUpdate. apply pending_handleProgress.
    + now rewrite completedCheckpoints_checkCheckpoints.
    + apply pending_checkCheckpoints; [reflexivity|].
      revert Hs. apply pending_cells; [reflexivity|now left].
  - revert Hs. apply pending_cells; [reflexivity|now left].
  - unfold handleContinue.
    destruct (activeCheckpoint s) as [[i cp]|] eqn:E; [|now split].
    destruct Hs as [Ha Hn]. pose proof (Ha i cp E) as Hfresh.
    destruct Hinv as [_ _ H3 H4]. destruct (H4 i cp E) as [Hcp _].
    split; [split|].
    + discriminate.
    + cbn [Media.completedCheckpoints]. unfold set_add. rewrite Hfresh.
      rewrite length_app. simpl. lia.
    + apply NoDup_cons. split; [|exact Hnd].
      intros Hi. destruct (H3 i Hi) as (cp' & Hcp' & Hhas & _).
      rewrite Hcp in Hcp'. injection Hcp' as <-. congruence.
  - unfold handleReplay. destruct (activeCheckpoint s) as [[i cp]|] eqn:E; [|exact Hs].
    revert Hs. apply pending_cells; [reflexivity|now right].
  - revert Hs. apply pending_cells; [reflexivity|now left].
  - revert Hs. apply pending_cells; [reflexivity|now left].
  - revert Hs. apply pending_cells; [reflexivity|now left].
  - revert Hs. apply pending_cells; [reflexivity|now left].
  - revert Hs. apply pending_cells; [reflexivity|now left].
  - revert Hs. apply pending_cells; [reflexivity|now left].
  - revert Hs. apply pending_cells; [reflexivity|now left].
Qed.

Lemma pending_completionEffect s done :
  pending s done → pending (completionEffect content checkpoints exerciseId s) done.
Proof.
  unfold completionEffect. cbv zeta.
  destruct (hasEnded content s && _ && truthy exerciseId); [|tauto].
  apply pending_cells; [reflexivity|now left].
Qed.

Lemma pending_run evs : ∀ s done,
  inv s done → NoDup done → pending s done →
  NoDup (continued s evs ++ done)
  ∧ pending (run evs s) (continued s evs ++ done)
  ∧ inv (run evs s) (continued s evs ++ done).
Proof.
  induction evs as [|e evs IH]; intros s done Hinv Hnd Hs; [now split|].
  pose proof (controller_inv_step content checkpoints exerciseId e s done Hinv) as Hinv'.
  destruct (pending_handle e s done Hinv Hnd Hs) as [Hs' Hnd'].
  apply pending_completionEffect in Hs'.
  destruct (IH _ _ Hinv' Hnd' Hs') as (Hnodup & Hpending & Hfinal).
  cbn [Media.continued]. change (run (e :: evs) s) with (run evs (step s e)).
  destruct e; try (split; [|split]; assumption).
  destruct (activeCheckpoint s) as [[j cp]|]; [|split; [|split]; assumption].
  assert (continued (step s Continue) evs ++ j :: done
          ≡ₚ (j :: continued (step s Continue) evs) ++ done) as Hperm.
  { symmetry. apply Permutation_middle. }
  split; [|split].
  - now rewrite <- Hperm.
  - destruct Hpending as [Ha Hn]. split; [exact Ha|].
    rewrite Hn. now rewrite Hperm.
  - revert Hfinal. apply inv_done_equiv. intros i. now rewrite Hperm.
Qed.

End Session.

(** *** The properties *)

(** X20.  Along any sequence of player and learner events from the mount, a
    checkpoint is continued from at most once: after [Continue] its question
    does not come back, whatever times the player reports afterwards (a seek
    back, a restart).  The completed set has one element for each checkpoint
    continued from, and the checkpoint that is active is not one of them. *)
Theorem checkpoint_continued_once
  (content : Type) (checkpoints : list (checkpoint content)) (exerciseId : string)
  (evs : list event) :
  let s := run content checkpoints exerciseId evs (initial content) in
  let done := continued content checkpoints exerciseId (initial content) evs in
  NoDup done
  ∧ length (completedCheckpoints content s) = length done
  ∧ (∀ i cp, activeCheckpoint content s = Some (i, cp) →
       checkpoints !! i = Some cp ∧ (i ∉ done)
       ∧ has (completedCheckpoints content s) (time cp) = false).
Proof.
  cbv zeta.
  destruct (pending_run content checkpoints exerciseId evs (initial content) []
              (controller_inv_initial content checkpoints) NoDup_nil_2
              (pending_initial content)) as (Hnodup & [Ha Hn] & [_ _ H3 H4]).
  rewrite app_nil_r in *.
  split; [exact Hnodup|]. split; [exact Hn|].
  intros i cp Hi. destruct (H4 i cp Hi) as [Hcp _].
  split; [exact Hcp|]. split; [|now apply Ha with i].
  intros Hdone. destruct (H3 i Hdone) as (cp' & Hcp' & Hhas & _).
  rewrite Hcp in Hcp'. injection Hcp' as <-.
  rewrite (Ha i cp Hi) in Hhas. discriminate.
Qed.

(** X21.  Two checkpoints whose times are the same number: the later one
    never becomes the active one, so it is never continued from, and the
    exercise is never marked complete, whatever the player and the learner
    do. *)
Theorem duplicate_time_blocks_completion
  (content : Type) (checkpoints : list (checkpoint content))
  (BASE_URL pathname src : string) (evs : list event)
  (i j : nat) (cpi cpj : checkpoint content)
  (Hbefore : i < j)
  (Hi : checkpoints !! i = Some cpi)
  (Hj : checkpoints !! j = Some cpj)
  (Hsame : key (time cpi) = key (time cpj)) :
  let exerciseId :=
    Progress.generateStableExerciseId BASE_URL pathname "InteractiveMedia" src in
  (j ∉ continued content checkpoints exerciseId (initial content) evs)
  ∧ markedComplete content (run content checkpoints exerciseId evs (initial content))
    = false.
Proof.
  intros exerciseId.
  apply (same_time_never_complete content checkpoints exerciseId
           (Progress.generateStableExerciseId_truthy _ _ _ _) evs i j cpi cpj);
    assumption.
Qed.

(** Two checkpoints at 10 s.  The learner continues from the first, the
    player reports 10 s again and ends. *)
Definition twin_checkpoints : list (checkpoint string) :=
  [mkCheckpoint (of_Z 10) "first"; mkCheckpoint (of_Z 10) "again"].

Lemma duplicate_time_blocks_completion_witness :
  let id := Progress.generateStableExerciseId "/telc/" "/telc/A1/Lesson1"
              "InteractiveMedia" "clip.mp4" in
  let evs := [VideoTimeUpdate (of_Z 10); Continue; VideoTimeUpdate (of_Z 10); Ended] in
  hasEnded string (run string twin_checkpoints id evs (initial string)) = true
  ∧ markedComplete string (run string twin_checkpoints id evs (initial string)) = false.
Proof.
  intros id evs. split; [reflexivity|].
  assert (0 < 1) as Hbefore by lia.
  exact (proj2 (duplicate_time_blocks_completion string twin_checkpoints
                  "/telc/" "/telc/A1/Lesson1" "clip.mp4" evs 0 1
                  (mkCheckpoint (of_Z 10) "first") (mkCheckpoint (of_Z 10) "again")
                  Hbefore eq_refl eq_refl eq_refl)).
Defined.

End MediaFacts.

(** ** The text the blanks are parsed from (FillBlanks.tsx, contentToProcess) *)

Module Dedent.
Import JsString Blanks.

(** [lines.join('\n')] *)
Fixpoint join_lines (lines : list string) : string :=
  match lines with
  | [] => EmptyString
  | [line] => line
  | line :: rest => line +:+ String "010" (join_lines rest)
  end.

(** [line.match(/^\s*/)?.[0].length || 0]: the number of white code units
    the line starts with. *)
Fixpoint indent (line : string) : nat :=
  match line with
  | EmptyString => 0
  | String c r => if is_white c then S (indent r) else 0
  end.

(** The accumulator of the [reduce]: [Infinity] or the indent of a line. *)
Inductive bound : Type :=
| Infinity
| Finite (n : nat).

(** [Math.min(min, indent)] *)
Definition Math_min (min : bound) (n : nat) : bound :=
  match min with
  | Infinity => Finite n
  | Finite m => Finite (Nat.min m n)
  end.

(** The callback of the [reduce]: a line that is empty after [trim] is
    passed over. *)
Definition min_step (min : bound) (line : string) : bound :=
  if String.length (trim line) =? 0 then min else Math_min min (indent line).

Definition minIndent (lines : list string) : bound := fold_left min_step lines Infinity.

(** The callback of the [map]: [line.length >= minIndent ?
    line.slice(minIndent) : line]. *)
Definition cut (minIndent : nat) (line : string) : string :=
  if minIndent <=? String.length line then substring_from minIndent line else line.

(** [contentToProcess], as the text [useBlanks] reads from it: [text] is
    the text of the children. *)
Definition contentToProcess (text : string) : string :=
  if includes_chr "|" text || includes_chr "010" text then
    let lines := split_on "010" text in
    match minIndent lines with
    | Finite (S n) => join_lines (map (cut (S n)) lines)
    | _ => text
    end
  else text.

(** [text'] is [text] without some of the white code units its lines start
    with; [start] tells that only such code units have been read on the
    current line. *)
Inductive unindents : bool → string → string → Prop :=
| unindents_nil start : unindents start EmptyString EmptyString
| unindents_drop c s s' :
    is_white c = true → unindents true s s' → unindents true (String c s) s'
| unindents_keep start c s s' :
    unindents (chr_eqb c "010") s s' → unindents start (String c s) (String c s').

(** *** Facts *)

Lemma unindents_weaken s s' : unindents false s s' → unindents true s s'.
Proof. intros H. inversion H; subst; now constructor. Qed.

Lemma unindents_any start s s' : unindents false s s' → unindents start s s'.
Proof. destruct start; [apply unindents_weaken|tauto]. Qed.

Lemma unindents_refl s : ∀ start, unindents start s s.
Proof. induction s as [|c s IH]; intros start; constructor; apply IH. Qed.

Lemma is_white_not_bracket c : is_white c = true → chr_eqb c "[" = false ∧ chr_eqb c "]" = false.
Proof.
  unfold is_white. rewrite !orb_true_iff, !chr_eqb_eq.
  intros H. split; apply not_true_is_false; rewrite chr_eqb_eq; intros ->;
    repeat destruct H as [H|H]; discriminate.
Qed.

Lemma unindents_no_close start s s' :
  unindents start s s' → includes_chr "]" s = false → includes_chr "]" s' = false.
Proof.
  induction 1 as [start|c s s' Hc _ IH|start c s s' _ IH]; intros H; [reflexivity| |].
  - simpl in H. apply orb_false_iff in H as [_ H]. now apply IH.
  - simpl in H |- *. apply orb_false_iff in H as [-> H]. now apply IH.
Qed.

(** Inside a token that does not run over a line break nothing is
    dropped. *)
Lemma unindents_until_close s : ∀ s' content rest,
  unindents false s s' →
  until_close s = Some (content, rest) →
  has_line_terminator content = false →
  ∃ rest', until_close s' = Some (content, rest') ∧ unindents false rest rest'.
Proof.
  induction s as [|c s IH]; intros s' content rest Hu; [discriminate|].
  inversion Hu as [| |start c' s0 s0' Hrest]; subst. simpl.
  destruct (chr_eqb c "]") eqn:Ec.
  - intros [= <- <-] _. exists s0'. split; [reflexivity|].
    apply chr_eqb_eq in Ec. subst c. exact Hrest.
  - destruct (until_close s) as [[m rest0]|] eqn:E; [|discriminate].
    intros [= <- <-] Hline. simpl in Hline. apply orb_false_iff in Hline as [Hc Hline].
    assert (chr_eqb c "010" = false) as Hlf.
    { unfold is_line_terminator in Hc. now apply orb_false_iff in Hc as [Hc _]. }
    rewrite Hlf in Hrest.
    destruct (IH s0' m rest0 Hrest eq_refl Hline) as (rest' & -> & Hrest').
    exists rest'. now split.
Qed.

Lemma tokens_on_one_line_cons c r :
  tokens_on_one_line (String c r) = true →
  match (if chr_eqb c "[" then until_close r else None) with
  | Some (content, rest) =>
      has_line_terminator content = false ∧ tokens_on_one_line rest = true
  | None => tokens_on_one_line r = true
  end.
Proof.
  unfold tokens_on_one_line. rewrite bracket_contents_cons.
  destruct (if chr_eqb c "[" then until_close r else None) as [[content rest]|]; [|tauto].
  simpl. rewrite andb_true_iff, negb_true_iff. tauto.
Qed.

(** The tokens of a text none of whose tokens runs over a line break are
    those of the text without the indentation. *)
Lemma unindents_bracket_contents n : ∀ s s' start,
  String.length s = n →
  unindents start s s' →
  tokens_on_one_line s = true →
  bracket_contents s' = bracket_contents s.
Proof.
  induction n as [n IH] using lt_wf_ind. intros s s' start Hn Hu Hone. subst n.
  inversion Hu as [start0|c s0 s0' Hc Hrest|start0 c s0 s0' Hrest]; subst.
  - reflexivity.
  - apply tokens_on_one_line_cons in Hone. rewrite bracket_contents_cons.
    destruct (is_white_not_bracket c Hc) as [Ho _]. rewrite Ho in Hone |- *.
    apply (IH (String.length s0)) with true; [simpl; lia|reflexivity|exact Hrest|exact Hone].
  - apply tokens_on_one_line_cons in Hone. rewrite !bracket_contents_cons.
    destruct (chr_eqb c "[") eqn:Eo.
    + assert (chr_eqb c "010" = false) as Hlf.
      { apply chr_eqb_eq in Eo. now subst c. }
      rewrite Hlf in Hrest.
      destruct (until_close s0) as [[content rest]|] eqn:E.
      * destruct Hone as [Hline Hone].
        destruct (unindents_until_close s0 s0' content rest Hrest E Hline)
          as (rest' & -> & Hrest').
        f_equal.
        apply (IH (String.length rest)) with false;
          [|reflexivity|exact Hrest'|exact Hone].
        apply until_close_length in E. simpl. lia.
      * apply until_close_None in E.
        pose proof (unindents_no_close _ _ _ Hrest E) as E'.
        rewrite (proj2 (until_close_None s0') E').
        now rewrite (bracket_contents_no_close s0 E), (bracket_contents_no_close s0' E').
    + apply (IH (String.length s0)) with (chr_eqb c "010");
        [simpl; lia|reflexivity|exact Hrest|exact Hone].
Qed.

(** [split] and [join] *)
Lemma split_on_nonempty sep s : split_on sep s ≠ [].
Proof.
  destruct s as [|c r]; simpl; [discriminate|].
  destruct (chr_eqb c sep); [discriminate|].
  destruct (split_on sep r); discriminate.
Qed.

Lemma join_lines_cons line next rest :
  join_lines (line :: next :: rest) = line +:+ String "010" (join_lines (next :: rest)).
Proof. reflexivity. Qed.

Lemma join_split s : join_lines (split_on "010" s) = s.
Proof.
  induction s as [|c r IH]; [reflexivity|]. simpl.
  pose proof (split_on_nonempty "010" r) as Hne.
  destruct (chr_eqb c "010") eqn:Ec.
  - apply chr_eqb_eq in Ec. subst c.
    destruct (split_on "010" r) as [|line rest]; [contradiction|].
    rewrite join_lines_cons, IH. reflexivity.
  - destruct (split_on "010" r) as [|line rest]; [contradiction|].
    destruct rest as [|next rest].
    + simpl in IH |- *. now rewrite IH.
    + rewrite join_lines_cons in IH |- *. rewrite str_app_cons. now rewrite IH.
Qed.

Lemma split_on_lines sep s line : line ∈ split_on sep s → includes_chr sep line = false.
Proof.
  revert line. induction s as [|c r IH]; intros line; simpl.
  - intros H. apply list_elem_of_singleton in H. now subst line.
  - destruct (chr_eqb c sep) eqn:Ec.
    + intros H. apply elem_of_cons in H as [->|H]; [reflexivity|now apply IH].
    + destruct (split_on sep r) as [|piece rest].
      * intros H. apply list_elem_of_singleton in H. subst line. simpl. now rewrite Ec.
      * intros H. apply elem_of_cons in H as [->|H].
        -- simpl. rewrite Ec. apply IH, list_elem_of_here.
        -- apply IH. now apply list_elem_of_further.
Qed.

(** A line without line feed, kept or cut inside its indentation. *)
Lemma unindents_keep_line line : ∀ start t t',
  includes_chr "010" line = false →
  unindents false t t' → unindents start (line +:+ t) (line +:+ t').
Proof.
  induction line as [|c line IH]; intros start t t' Hline Ht.
  - now apply unindents_any.
  - simpl in Hline. apply orb_false_iff in Hline as [Hc Hline].
    rewrite !str_app_cons. apply unindents_keep. rewrite Hc. now apply IH.
Qed.

Lemma unindents_cut_line k : ∀ line t t',
  k ≤ indent line →
  includes_chr "010" line = false →
  unindents false t t' → unindents true (line +:+ t) (substring_from k line +:+ t').
Proof.
  induction k as [|k IH]; intros line t t' Hk Hline Ht.
  - now apply unindents_keep_line.
  - destruct line as [|c line]; [simpl in Hk; lia|].
    simpl in Hk. destruct (is_white c) eqn:Ec; [|lia].
    simpl in Hline. apply orb_false_iff in Hline as [_ Hline].
    rewrite str_app_cons. cbn [substring_from].
    apply unindents_drop; [exact Ec|]. apply IH; [lia|exact Hline|exact Ht].
Qed.

Lemma unindents_lines (f : string → string) (lines : list string) :
  (∀ line, line ∈ lines →
     includes_chr "010" line = false
     ∧ ∃ k, k ≤ indent line ∧ f line = substring_from k line) →
  unindents true (join_lines lines) (join_lines (map f lines)).
Proof.
  induction lines as [|line rest IH]; intros H; [constructor|].
  destruct (H line (list_elem_of_here _ _)) as (Hline & k & Hk & Hf).
  assert (unindents true (join_lines rest) (join_lines (map f rest))) as Hrest.
  { apply IH. intros l Hl. apply H. now apply list_elem_of_further. }
  destruct rest as [|next rest].
  - simpl. rewrite Hf, <- (str_app_nil_r line) at 1.
    rewrite <- (str_app_nil_r (substring_from k line)).
    apply unindents_cut_line; [exact Hk|exact Hline|constructor].
  - cbn [map]. rewrite !join_lines_cons, Hf.
    apply unindents_cut_line; [exact Hk|exact Hline|].
    apply unindents_keep. rewrite chr_eqb_refl. exact Hrest.
Qed.

(** A line that [trim] empties is made of white code units. *)
Lemma trimStart_indent line : trimStart line = substring_from (indent line) line.
Proof.
  induction line as [|c line IH]; [reflexivity|]. simpl.
  destruct (is_white c); [exact IH|reflexivity].
Qed.

Lemma trimStart_snoc_black (x : string) c y :
  is_white c = false → trimStart (x +:+ String c y) ≠ EmptyString.
Proof.
  intros Hc. induction x as [|a x IH].
  - rewrite str_app_nil_l. simpl. now rewrite Hc.
  - rewrite str_app_cons. simpl. destruct (is_white a); [exact IH|discriminate].
Qed.

Lemma rev_string_empty s : rev_string s = EmptyString → s = EmptyString.
Proof.
  intros H. apply (f_equal rev_string) in H. now rewrite rev_string_involutive in H.
Qed.

Lemma trim_empty_indent line :
  String.length (trim line) = 0 → indent line = String.length line.
Proof.
  intros H. assert (trim line = EmptyString) as Htrim by (now destruct (trim line)).
  clear H. unfold trim, trimEnd in Htrim. apply rev_string_empty in Htrim.
  induction line as [|c line IH]; [reflexivity|].
  simpl in Htrim |- *. destruct (is_white c) eqn:Ec.
  - f_equal. now apply IH.
  - exfalso. rewrite rev_string_cons in Htrim.
    now apply (trimStart_snoc_black (rev_string line) c EmptyString Ec).
Qed.

(** The least indent bounds the indent of every line that counts. *)
Lemma fold_min_step lines : ∀ acc n,
  fold_left min_step lines acc = Finite n →
  (∀ m, acc = Finite m → n ≤ m)
  ∧ ∀ line, line ∈ lines → String.length (trim line) ≠ 0 → n ≤ indent line.
Proof.
  induction lines as [|l lines IH]; intros acc n; simpl.
  - intros ->. split; [intros m [= ->]; lia|].
    intros line H. now apply not_elem_of_nil in H.
  - intros H. destruct (IH _ _ H) as [Hacc Hlines]. unfold min_step in Hacc.
    destruct (Nat.eqb_spec (String.length (trim l)) 0) as [Hblank|Hblack].
    + split; [exact Hacc|]. intros line Hin Hline.
      apply elem_of_cons in Hin as [->|Hin]; [contradiction|now apply Hlines].
    + split.
      * intros m ->. specialize (Hacc _ eq_refl). lia.
      * intros line Hin Hline. apply elem_of_cons in Hin as [->|Hin]; [|now apply Hlines].
        destruct acc as [|m]; specialize (Hacc _ eq_refl); lia.
Qed.

Lemma cut_inside (lines : list string) n line :
  minIndent lines = Finite n → line ∈ lines →
  ∃ k, k ≤ indent line ∧ cut n line = substring_from k line.
Proof.
  intros Hmin Hin. unfold cut.
  destruct (Nat.leb_spec n (String.length line)) as [Hle|Hlt];
    [|exists 0; split; [lia|reflexivity]].
  exists n. split; [|reflexivity].
  destruct (Nat.eq_dec (String.length (trim line)) 0) as [Hblank|Hblack].
  - now rewrite (trim_empty_indent line Hblank).
  - now apply (proj2 (fold_min_step lines Infinity n Hmin)).
Qed.

Lemma contentToProcess_unindents text : unindents true text (contentToProcess text).
Proof.
  unfold contentToProcess.
  destruct (includes_chr "|" text || includes_chr "010" text); [|apply unindents_refl].
  cbv zeta. destruct (minIndent (split_on "010" text)) as [|[|n]] eqn:Emin;
    try apply unindents_refl.
  rewrite <- (join_split text) at 1. apply unindents_lines.
  intros line Hin. split; [now apply split_on_lines in Hin|].
  now apply (cut_inside (split_on "010" text)).
Qed.

(** [split] undoes [join] on lines without line feed. *)
Lemma split_on_line sep line :
  includes_chr sep line = false → split_on sep line = [line].
Proof.
  induction line as [|c line IH]; [reflexivity|]. simpl.
  intros H. apply orb_false_iff in H as [-> H]. now rewrite (IH H).
Qed.

Lemma split_on_app sep line t :
  includes_chr sep line = false →
  split_on sep (line +:+ String sep t) = line :: split_on sep t.
Proof.
  induction line as [|c line IH]; intros H.
  - rewrite str_app_nil_l. simpl. now rewrite chr_eqb_refl.
  - simpl in H. apply orb_false_iff in H as [Hc H].
    rewrite str_app_cons. simpl. now rewrite Hc, (IH H).
Qed.

Lemma split_join (lines : list string) :
  lines ≠ [] → (∀ line, line ∈ lines → includes_chr "010" line = false) →
  split_on "010" (join_lines lines) = lines.
Proof.
  induction lines as [|line rest IH]; intros Hne H; [contradiction|].
  pose proof (H line (list_elem_of_here _ _)) as Hline.
  destruct rest as [|next rest]; [now apply split_on_line|].
  rewrite join_lines_cons, (split_on_app _ _ _ Hline). f_equal.
  apply IH; [discriminate|]. intros l Hl. apply H. now apply list_elem_of_further.
Qed.

Lemma includes_chr_substring_from c k : ∀ s,
  includes_chr c s = false → includes_chr c (substring_from k s) = false.
Proof.
  induction k as [|k IH]; intros s H; [exact H|].
  destruct s as [|a s]; [reflexivity|].
  simpl in H. apply orb_false_iff in H as [_ H]. now apply IH.
Qed.

Lemma includes_chr_cut n line :
  includes_chr "010" line = false → includes_chr "010" (cut n line) = false.
Proof.
  intros H. unfold cut. destruct (n <=? String.length line); [|exact H].
  now apply includes_chr_substring_from.
Qed.

(** The least indent is the indent of a line that counts. *)
Lemma fold_min_step_attained lines : ∀ acc n,
  fold_left min_step lines acc = Finite n →
  acc = Finite n
  ∨ ∃ line, line ∈ lines ∧ String.length (trim line) ≠ 0 ∧ indent line = n.
Proof.
  induction lines as [|l lines IH]; intros acc n; simpl; [now left|].
  intros H. destruct (IH _ _ H) as [Hacc|(line & Hin & Hline & Hn)].
  - unfold min_step in Hacc.
    destruct (Nat.eqb_spec (String.length (trim l)) 0) as [Hblank|Hblack]; [now left|].
    destruct acc as [|m]; simpl in Hacc; injection Hacc as Hacc.
    + right. exists l. split; [apply list_elem_of_here|now split].
    + destruct (Nat.min_dec m (indent l)) as [E|E]; rewrite E in Hacc.
      * left. now subst.
      * right. exists l. split; [apply list_elem_of_here|now split].
  - right. exists line. split; [now apply list_elem_of_further|now split].
Qed.

Lemma fold_min_step_0 lines : fold_left min_step lines (Finite 0) = Finite 0.
Proof.
  induction lines as [|l lines IH]; [reflexivity|]. simpl. unfold min_step at 2.
  destruct (String.length (trim l) =? 0); [exact IH|]. simpl. exact IH.
Qed.

Lemma fold_min_step_flush lines : ∀ acc line,
  line ∈ lines → String.length (trim line) ≠ 0 → indent line = 0 →
  fold_left min_step lines acc = Finite 0.
Proof.
  induction lines as [|l lines IH]; intros acc line Hin Hline H0.
  - now apply not_elem_of_nil in Hin.
  - simpl. apply elem_of_cons in Hin as [<-|Hin]; [|now apply (IH _ line)].
    unfold min_step at 2. apply Nat.eqb_neq in Hline. rewrite Hline, H0.
    destruct acc as [|m]; simpl; [|rewrite Nat.min_0_r]; apply fold_min_step_0.
Qed.

Lemma indent_le line : indent line ≤ String.length line.
Proof.
  induction line as [|c line IH]; simpl; [lia|]. destruct (is_white c); lia.
Qed.

Lemma indent_substring_from line : indent (substring_from (indent line) line) = 0.
Proof.
  induction line as [|c line IH]; [reflexivity|]. simpl.
  destruct (is_white c) eqn:Ec; [exact IH|]. simpl. now rewrite Ec.
Qed.

Lemma trimStart_substring_from k : ∀ line,
  k ≤ indent line → trimStart (substring_from k line) = trimStart line.
Proof.
  induction k as [|k IH]; intros line Hk; [reflexivity|].
  destruct line as [|c line]; [reflexivity|]. simpl in Hk |- *.
  destruct (is_white c); [|lia]. apply IH. lia.
Qed.

(** *** The properties *)

(** X22.  The text handed to the parser is the text of the children
    without some of the white code units its lines start with.  When no
    bracket token of the text runs over a line break, the parser reads the
    same tokens and the same blanks from it as from the text of the
    children. *)
Theorem contentToProcess_keeps_blanks (text : string)
  (Hone : tokens_on_one_line text = true) :
  unindents true text (contentToProcess text)
  ∧ bracket_contents (contentToProcess text) = bracket_contents text
  ∧ blanksData (contentToProcess text) = blanksData text.
Proof.
  pose proof (contentToProcess_unindents text) as Hu.
  pose proof (unindents_bracket_contents _ _ _ _ eq_refl Hu Hone) as Hsame.
  split; [exact Hu|]. split; [exact Hsame|].
  rewrite (blanksData_spec text Hone), blanksData_spec; [now rewrite Hsame|].
  unfold tokens_on_one_line in Hone |- *. now rewrite Hsame.
Qed.

Lemma contentToProcess_keeps_blanks_witness :
  let text := String "010" "    Der [Mann|Frau] geht." +:+ String "010" "      Sie [geht]."
              +:+ String "010" "  " in
  contentToProcess text
  = String "010" "Der [Mann|Frau] geht." +:+ String "010" "  Sie [geht]."
    +:+ String "010" "  "
  ∧ answers_of (blanksData (contentToProcess text)) = ["Mann"; "geht"].
Proof.
  intros text. split; [reflexivity|].
  destruct (contentToProcess_keeps_blanks text eq_refl) as (_ & _ & ->). reflexivity.
Defined.

(** A token that runs over a line break: the parser reads no blank from
    the text of the children, and one from the text without the
    indentation. *)
Lemma contentToProcess_token_over_lines :
  let text := "  [a" +:+ String "010" "  b]" in
  tokens_on_one_line text = false
  ∧ blanksData text = []
  ∧ answers_of (blanksData (contentToProcess text)) = ["a" +:+ String "010" "b"].
Proof. cbv zeta. split; [|split]; reflexivity. Qed.

(** X23.  Removing the indentation twice gives what removing it once
    gives: in the text handed to the parser, a line that [trim] does not
    empty starts at the first column, or the text is the text of the
    children. *)
Theorem contentToProcess_idempotent (text : string) :
  contentToProcess (contentToProcess text) = contentToProcess text
  ∧ (contentToProcess text = text
     ∨ ∃ line, line ∈ split_on "010" (contentToProcess text)
               ∧ String.length (trim line) ≠ 0 ∧ indent line = 0).
Proof.
  assert (contentToProcess text = text
          ∨ ∃ line, line ∈ split_on "010" (contentToProcess text)
                    ∧ String.length (trim line) ≠ 0 ∧ indent line = 0) as Hcases.
  { unfold contentToProcess.
    destruct (includes_chr "|" text || includes_chr "010" text); [|now left].
    cbv zeta. destruct (minIndent (split_on "010" text)) as [|[|n]] eqn:Emin;
      try (now left). right.
    destruct (fold_min_step_attained _ _ _ Emin) as [Habs|(line & Hin & Hline & Hn)];
      [discriminate|].
    assert (cut (S n) line = substring_from (indent line) line) as Hcut.
    { unfold cut. rewrite <- Hn.
      now rewrite (proj2 (Nat.leb_le _ _) (indent_le line)). }
    exists (cut (S n) line). rewrite split_join.
    - split; [apply list_elem_of_fmap; now exists line|].
      rewrite Hcut. split; [|apply indent_substring_from].
      unfold trim. rewrite trimStart_substring_from by lia. exact Hline.
    - pose proof (split_on_nonempty "010" text).
      destruct (split_on "010" text); [contradiction|discriminate].
    - intros l Hl. apply list_elem_of_fmap in Hl as (l0 & -> & Hl0).
      apply includes_chr_cut. now apply split_on_lines in Hl0. }
  split; [|exact Hcases].
  destruct Hcases as [Hsame|(line & Hin & Hline & H0)]; [now rewrite !Hsame|].
  unfold contentToProcess at 1.
  destruct (includes_chr "|" (contentToProcess text)
            || includes_chr "010" (contentToProcess text)); [|reflexivity].
  cbv zeta. unfold minIndent.
  now rewrite (fold_min_step_flush _ Infinity line Hin Hline H0).
Qed.

End Dedent.
